(** * nagioscfg: the streaming reader of io.go

    A shallow embedding of the rune reader, the field scanner, the line
    assembler and the object builder ([Reader.Read]) of package
    [nagioscfg], together with the producer loop of [Reader.ReadChan], the
    collectors [Reader.ReadAllList] and [Reader.ReadAllMap], and the
    printers [CfgObj.Print], [CfgObj.PrintPropsSorted] and
    [CfgObjs.Print].

    Modelling conventions.
    - A rune is its code point, a [Z].  A Go string is the list of its
      runes: the reader only ever stores runes it has decoded, so that
      encoding and decoding them again is the identity.
    - The [bufio.Reader] under a [Reader] is the list of runes it has not
      delivered yet ([src]) and the error it reports once they are used up
      ([srcerr], [io.EOF] for a file or a string).
    - [line], [inputline] and [column] are Go [int]s; they are kept as
      unbounded integers, since a counter can only overflow after 2^31
      runes at least.
    - Loops that consume input take a fuel argument; [None] means that the
      fuel ran out, and the lemmas named [*_total] show that it never does
      for the fuel the entry points provide.
    - [log.Debugf] and [log.Debug] calls have no effect on any result and
      are left out; [log.Errorf] in [ReadChan] is an event of the trace. *)

From stdpp Require Import base option list strings gmap sorting.
From Stdlib Require Import ZArith Lia.

Open Scope Z_scope.

(** ** Runes and strings *)

Abbreviation rune := Z (only parsing).
Abbreviation str := (list Z) (only parsing).

Definition LF : rune := 10.
Definition CR : rune := 13.
Definition TAB : rune := 9.
Definition SPACE : rune := 32.
Definition LBRACE : rune := 123.
Definition RBRACE : rune := 125.
Definition HASH : rune := 35.

(** Go's [unicode.IsSpace]: the Latin-1 spaces, then the code points with
    the White_Space property. *)
Definition IsSpace (c : rune) : bool :=
  if c <=? 255 then
    (c =? 9) || (c =? 10) || (c =? 11) || (c =? 12) || (c =? 13)
    || (c =? 32) || (c =? 133) || (c =? 160)
  else
    (c =? 5760) || ((8192 <=? c) && (c <=? 8202)) || (c =? 8232)
    || (c =? 8233) || (c =? 8239) || (c =? 8287) || (c =? 12288).

(** A string literal of the development, rune by rune. *)
Fixpoint runes (s : String.string) : str :=
  match s with
  | String.EmptyString => []
  | String.String a s' => Z.of_N (Ascii.N_of_ascii a) :: runes s'
  end.

Arguments runes s%_string.

(** [strings.Join]. *)
Fixpoint Join (elems : list str) (sep : str) : str :=
  match elems with
  | [] => []
  | [e] => e
  | e :: rest => e ++ sep ++ Join rest sep
  end.

(** [strings.Repeat] for a count that is not negative. *)
Definition Repeat (s : str) (count : nat) : str := List.concat (replicate count s).

(** ** Errors *)

Inductive error : Type :=
| io_EOF
| ErrNoValue
| ErrUnknown
| ParseError (Line Column : Z) (Err : error)
| IOFailure (code : nat).

Definition is_EOF (e : option error) : bool :=
  match e with Some io_EOF => true | _ => false end.

Definition is_nil {A} (e : option A) : bool :=
  match e with None => true | Some _ => false end.

(** ** The Reader *)

Record Reader : Type := mkReader {
  Comment : rune;
  line : Z;
  inputline : Z;
  column : Z;
  field : str;
  src : list rune;
  srcerr : error
}.

Definition set_line (v : Z) (r : Reader) : Reader :=
  mkReader (Comment r) v (inputline r) (column r) (field r) (src r) (srcerr r).
Definition set_inputline (v : Z) (r : Reader) : Reader :=
  mkReader (Comment r) (line r) v (column r) (field r) (src r) (srcerr r).
Definition set_column (v : Z) (r : Reader) : Reader :=
  mkReader (Comment r) (line r) (inputline r) v (field r) (src r) (srcerr r).
Definition set_field (v : str) (r : Reader) : Reader :=
  mkReader (Comment r) (line r) (inputline r) (column r) v (src r) (srcerr r).
Definition set_src (v : list rune) (r : Reader) : Reader :=
  mkReader (Comment r) (line r) (inputline r) (column r) (field r) v (srcerr r).

(** [NewReader] over a stream that delivers [input] and then fails with
    [e]. *)
Definition NewReaderErr (input : list rune) (e : error) : Reader :=
  mkReader HASH 0 0 0 [] input e.

Definition NewReader (input : list rune) : Reader := NewReaderErr input io_EOF.

(** [r.error]. *)
Definition Reader_error (r : Reader) (err : error) : error :=
  ParseError (line r) (column r) err.

(** [bufio.Reader.ReadRune] on [r.r]: the rune is 0 when there is an
    error. *)
Definition ReadRune (r : Reader) : rune * option error * Reader :=
  match src r with
  | [] => (0, Some (srcerr r), r)
  | c :: s => (c, None, set_src s r)
  end.

(** [readRune].  [UnreadRune] after a successful [ReadRune] gives back the
    reader as it was before that [ReadRune]. *)
Definition readRune (r : Reader) : rune * option error * Reader :=
  let '(r1, err, ra) := ReadRune r in
  let '(r1, err, rb) :=
    if r1 =? CR then
      let '(r2, err2, rb) := ReadRune ra in
      if is_nil err2 then
        if negb (r2 =? LF) then (CR, err2, ra) else (r2, err2, rb)
      else (r2, err2, rb)
    else if r1 =? LF then (r1, err, set_inputline (inputline ra + 1) ra)
    else (r1, err, ra) in
  (r1, err, set_column (column rb + 1) rb).

(** [skip].  One unit of fuel per rune read. *)
Fixpoint skip_loop (n : nat) (r : Reader) (delim : rune)
  : option (option error * Reader) :=
  match n with
  | O => None
  | S n' =>
    let '(r1, err, r') := readRune r in
    if negb (is_nil err) then Some (err, r')
    else if r1 =? delim then Some (None, r')
    else skip_loop n' r' delim
  end.

Definition skip (r : Reader) (delim : rune) : option (option error * Reader) :=
  skip_loop (S (length (src r))) r delim.

(** ** What io.go takes from the rest of the package

    The constants, the object-type table and the UUID generator are
    declared in files of package [nagioscfg] other than io.go.  They are
    parameters of the development. *)

Class Nagioscfg : Type := {
  (** [CfgType], the enumeration of object types, with its member
      [T_INVALID]. *)
  CfgType : Type;
  CfgType_eq_dec :: EqDecision CfgType;
  T_INVALID : CfgType;
  (** [CfgName(s).Type()]: the type a name stands for, [T_INVALID] when it
      stands for none. *)
  CfgName_Type : str -> CfgType;
  (** [CfgType.String()]. *)
  CfgType_String : CfgType -> str;
  (** The constants [DEF_ALIGN] and [DEF_INDENT]. *)
  DEF_ALIGN : Z;
  DEF_INDENT : Z;
  (** What [CfgObj.generateComment] derives from the type and the
      properties of an object; [None] when it fails. *)
  deriveComment : CfgType -> gmap str str -> option str;
  (** [UUID], its zero value, and the generator behind
      [NewCfgObjWithUUID]: a state and a function that draws the next
      UUID from it. *)
  UUID : Type;
  UUID_eq_dec :: EqDecision UUID;
  UUID_countable :: Countable UUID;
  UUID_zero : UUID;
  UUIDSource : Type;
  NewUUID : UUIDSource -> UUID * UUIDSource
}.

(** [IoState]: what a line is, for the object builder. *)
Inductive IoState : Type := IO_OBJ_OUT | IO_OBJ_BEGIN | IO_OBJ_IN | IO_OBJ_END.

Section Scanner.
Context `{Nagioscfg}.

(** The first loop of [parseFields]: skip the white space that is not a
    newline. *)
Fixpoint parseFields_skip (n : nat) (r1 : rune) (err : option error) (r : Reader)
  : option (rune * option error * Reader) :=
  if is_nil err && negb (r1 =? LF) && IsSpace r1 then
    match n with
    | O => None
    | S n' => let '(r1', err', r') := readRune r in parseFields_skip n' r1' err' r'
    end
  else Some (r1, err, r).

(** [r.field.WriteRune]. *)
Definition WriteRune (c : rune) (r : Reader) : Reader := set_field (field r ++ [c]) r.

(** The loop of the [default] case of [parseFields], entered with the rune
    [r1] in hand; it returns the rune and the error it was left with. *)
Fixpoint parseFields_accum (n : nat) (r1 : rune) (r : Reader)
  : option (rune * option error * Reader) :=
  match n with
  | O => None
  | S n' =>
    let r := if negb (IsSpace r1) then WriteRune r1 r else r in
    let '(r1, err, r) := readRune r in
    if negb (is_nil err) then Some (r1, err, r)
    else if r1 =? LBRACE then
      if column r >? DEF_ALIGN then parseFields_accum n' r1 r
      else Some (r1, err, r)
    else if IsSpace r1 then Some (r1, err, r)
    else parseFields_accum n' r1 r
  end.

(** [parseFields]: (haveField, delim, err) and the reader afterwards. *)
Definition parseFields (r : Reader)
  : option (bool * rune * option error * Reader) :=
  let fuel := S (length (src r)) in
  let r := set_field [] r in
  let '(r1, err, r) := readRune r in
  match parseFields_skip fuel r1 err r with
  | None => None
  | Some (r1, err, r) =>
    if is_EOF err && negb (column r =? 0) then Some (true, 0, err, r)
    else if negb (is_nil err) then Some (false, 0, err, r)
    else if r1 =? LF then Some (false, r1, None, r)
    else if r1 =? TAB then Some (false, r1, None, r)
    else if r1 =? SPACE then Some (false, r1, None, r)
    else if r1 =? LBRACE then Some (false, r1, None, r)
    else if r1 =? RBRACE then Some (true, r1, None, r)
    else
      match parseFields_accum fuel r1 r with
      | None => None
      | Some (r1, err, r) =>
        if negb (is_nil err) then
          if is_EOF err then Some (true, 0, err, r) else Some (false, 0, err, r)
        else Some (true, r1, None, r)
      end
  end.

(** The loop of [parseLine]. *)
Fixpoint parseLine_loop (n : nat) (r : Reader) (fields : list str)
  : option (list str * IoState * option error * Reader) :=
  match n with
  | O => None
  | S n' =>
    match parseFields r with
    | None => None
    | Some (haveField, delim, err, r) =>
      let fields := if haveField then fields ++ [field r] else fields in
      if delim =? LBRACE then Some (fields, IO_OBJ_BEGIN, err, r)
      else if delim =? RBRACE then Some (fields, IO_OBJ_END, err, r)
      else if delim =? LF then Some (fields, IO_OBJ_IN, err, r)
      else if is_EOF err then Some (fields, IO_OBJ_OUT, err, r)
      else if negb (is_nil err) then Some ([], IO_OBJ_OUT, err, r)
      else parseLine_loop n' r fields
    end
  end.

(** [parseLine].  The slice [fields] is nil exactly when the list is
    empty: it is allocated by the first [append]. *)
Definition parseLine (r : Reader)
  : option (list str * IoState * option error * Reader) :=
  let r := set_column (-1) (set_line (line r + 1) r) in
  let '(r1, err, ra) := ReadRune r in
  if negb (is_nil err) then Some ([], IO_OBJ_OUT, err, ra)
  else if negb (Comment r =? 0) && (r1 =? Comment r) then
    match skip ra LF with
    | None => None
    | Some (err, rb) => Some ([], IO_OBJ_OUT, err, rb)
    end
  else parseLine_loop (S (length (src r))) r [].

End Scanner.

(** ** Configuration objects *)

Section Objects.
Context `{Nagioscfg}.

(** [CfgObj], with the fields io.go reads and writes. *)
Record CfgObj : Type := mkCfgObj {
  co_Type : CfgType;
  co_UUID : UUID;
  co_FileID : str;
  co_Props : gmap str str;
  co_Indent : Z;
  co_Align : Z;
  co_Comment : str
}.

Definition set_UUID (v : UUID) (co : CfgObj) : CfgObj :=
  mkCfgObj (co_Type co) v (co_FileID co) (co_Props co) (co_Indent co) (co_Align co)
    (co_Comment co).
Definition set_FileID (v : str) (co : CfgObj) : CfgObj :=
  mkCfgObj (co_Type co) (co_UUID co) v (co_Props co) (co_Indent co) (co_Align co)
    (co_Comment co).
Definition set_Props (v : gmap str str) (co : CfgObj) : CfgObj :=
  mkCfgObj (co_Type co) (co_UUID co) (co_FileID co) v (co_Indent co) (co_Align co)
    (co_Comment co).
Definition set_Comment (v : str) (co : CfgObj) : CfgObj :=
  mkCfgObj (co_Type co) (co_UUID co) (co_FileID co) (co_Props co) (co_Indent co)
    (co_Align co) v.

(** Modelled from the spec: [NewCfgObj] is not in io.go.  A new object has
    the type it is created for, no property, no identity, no origin file
    and the default presentation widths (section 3, ConfigObject). *)
Definition NewCfgObj (ct : CfgType) : CfgObj :=
  mkCfgObj ct UUID_zero [] ∅ DEF_INDENT DEF_ALIGN [].

(** Modelled from the spec: [NewCfgObjWithUUID] is not in io.go.  It is
    [NewCfgObj] with an identity assigned at creation (section 3,
    identity), drawn from the generator. *)
Definition NewCfgObjWithUUID (ct : CfgType) (g : UUIDSource) : CfgObj * UUIDSource :=
  let '(u, g') := NewUUID g in (set_UUID u (NewCfgObj ct), g').

(** Modelled from the spec: [CfgObj.Add] is not in io.go.  Property keys
    are unique within an object (section 3), and by [TestAdd] adding a key
    that is there already is refused and reported with [false]. *)
Definition CfgObj_Add (key val : str) (co : CfgObj) : CfgObj * bool :=
  match co_Props co !! key with
  | Some _ => (co, false)
  | None => (set_Props (<[key := val]> (co_Props co)) co, true)
  end.

(** The state outside the reader: the package variable [uuidorder] and the
    UUID generator. *)
Record World : Type := mkWorld {
  uuidorder : list UUID;
  uuidsrc : UUIDSource
}.

(** A Go call either returns or panics. *)
Inductive Go (A : Type) : Type :=
| Return (a : A)
| Panic.
Global Arguments Return {A} a.
Global Arguments Panic {A}.

Definition IoState_eqb (a b : IoState) : bool :=
  match a, b with
  | IO_OBJ_OUT, IO_OBJ_OUT | IO_OBJ_BEGIN, IO_OBJ_BEGIN
  | IO_OBJ_IN, IO_OBJ_IN | IO_OBJ_END, IO_OBJ_END => true
  | _, _ => false
  end.

(** The allocation of the object in [Read], once the type is known
    (lines 317 to 325): with or without UUID, the UUID appended to
    [uuidorder], and the origin file. *)
Definition Read_alloc (setUUID : bool) (fileID : str) (ct : CfgType) (w : World)
  : CfgObj * World :=
  let '(o, w) :=
    if setUUID then
      let '(o, g) := NewCfgObjWithUUID ct (uuidsrc w) in
      (o, mkWorld (uuidorder w ++ [co_UUID o]) g)
    else (NewCfgObj ct, w) in
  let o := if negb (bool_decide (fileID = [])) then set_FileID fileID o else o in
  (o, w).

(** The loop of [Read], with its variables [co] and [prevState].  A Go
    [continue] is the recursive call; the end of the loop body is the
    test of [err] and then the recursive call. *)
Fixpoint Read_loop (n : nat) (setUUID : bool) (fileID : str) (w : World)
    (r : Reader) (co : option CfgObj) (prevState : IoState)
  : option (Go (option CfgObj * option error) * World * Reader) :=
  match n with
  | O => None
  | S n' =>
    match parseLine r with
    | None => None
    | Some (fields, state, err, r) =>
      let next w co prevState :=
        if negb (is_nil err) then Some (Return (None, err), w, r)
        else Read_loop n' setUUID fileID w r co prevState in
      match fields with
      | [] => next w co prevState
      | _ :: _ =>
        match state with
        | IO_OBJ_BEGIN =>
          if negb (IoState_eqb prevState IO_OBJ_OUT) then
            Read_loop n' setUUID fileID w r co prevState
          else
            match fields !! 1%nat with
            | None => Some (Panic, w, r)
            | Some name =>
              let ct := CfgName_Type name in
              if decide (ct = T_INVALID) then
                Some (Return (None, Some (Reader_error r ErrUnknown)), w, r)
              else
                let '(o, w) := Read_alloc setUUID fileID ct w in
                next w (Some o) IO_OBJ_BEGIN
            end
        | IO_OBJ_IN =>
          match co with
          | Some o =>
            if (length fields <? 2)%nat then
              Read_loop n' setUUID fileID w r co prevState
            else
              next w (Some (CfgObj_Add (hd [] fields) (Join (tl fields) [SPACE]) o).1)
                prevState
          | None => Read_loop n' setUUID fileID w r co prevState
          end
        | IO_OBJ_END => Some (Return (co, None), w, r)
        | IO_OBJ_OUT => Some (Return (None, Some (Reader_error r ErrUnknown)), w, r)
        end
      end
    end
  end.

(** [Read]. *)
Definition Read (setUUID : bool) (fileID : str) (w : World) (r : Reader)
  : option (Go (option CfgObj * option error) * World * Reader) :=
  Read_loop (S (length (src r))) setUUID fileID w r None IO_OBJ_OUT.

(** ** The producer of [ReadChan]

    The goroutine of [ReadChan], as the sequence of what it does: each
    call of [Read] with what it returned, each object sent on the channel,
    each error logged, and the closing of the channel.  It may run for
    ever; [n] bounds the number of calls of [Read] that are followed. *)
Inductive Event : Type :=
| EvRead (res : Go (option CfgObj * option error))
| EvSend (obj : CfgObj)
| EvLog (err : error)
| EvClose.

Inductive Producer : Type :=
| Running   (* the loop is at its head, about to call Read again *)
| Finished  (* the loop was left and the channel closed *)
| Crashed.  (* Read panicked *)

Fixpoint ReadChan_loop (n : nat) (setUUID : bool) (fileID : str) (w : World)
    (r : Reader) : option (list Event * Producer * World * Reader) :=
  match n with
  | O => Some ([], Running, w, r)
  | S n' =>
    match Read setUUID fileID w r with
    | None => None
    | Some (Panic, w, r) => Some ([EvRead Panic], Crashed, w, r)
    | Some (Return (obj, err), w, r) =>
      let sent :=
        match obj with
        | Some o => if is_nil err then [EvSend o] else []
        | None => []
        end in
      match err with
      | Some e =>
        if negb (is_EOF err) then
          match ReadChan_loop n' setUUID fileID w r with
          | None => None
          | Some (t, p, w, r) =>
            Some (EvRead (Return (obj, err)) :: sent ++ EvLog e :: t, p, w, r)
          end
        else Some (EvRead (Return (obj, err)) :: sent ++ [EvClose], Finished, w, r)
      | None =>
        match ReadChan_loop n' setUUID fileID w r with
        | None => None
        | Some (t, p, w, r) => Some (EvRead (Return (obj, err)) :: sent ++ t, p, w, r)
        end
      end
    end
  end.

(** ** [ReadAllMap] *)

Fixpoint ReadAllMap_loop (n : nat) (fileID : str) (w : World) (r : Reader)
    (m : gmap UUID CfgObj)
  : option (Go (gmap UUID CfgObj * option error) * World * Reader) :=
  match n with
  | O => None
  | S n' =>
    match Read true fileID w r with
    | None => None
    | Some (Panic, w, r) => Some (Panic, w, r)
    | Some (Return (obj, err), w, r) =>
      let m :=
        match obj with
        | Some o => if is_nil err then <[co_UUID o := o]> m else m
        | None => m
        end in
      if negb (is_nil err) then
        if negb (is_EOF err) then Some (Return (m, err), w, r)
        else Some (Return (m, None), w, r)
      else ReadAllMap_loop n' fileID w r m
    end
  end.

Definition ReadAllMap (fileID : str) (w : World) (r : Reader)
  : option (Go (gmap UUID CfgObj * option error) * World * Reader) :=
  ReadAllMap_loop (S (length (src r))) fileID w r ∅.

End Objects.

(** ** [CfgObj.Print] *)

Section Printer.
Context `{Nagioscfg}.

(** [generateComment] sets [co.Comment] when it succeeds. *)
Definition generateComment (co : CfgObj) : CfgObj * bool :=
  match deriveComment (co_Type co) (co_Props co) with
  | Some c => (set_Comment c co, true)
  | None => (co, false)
  end.

(** The verb [%-Ns] of package fmt, for a width it accepts: the string,
    then spaces up to [width] runes. *)
Definition padRight (s : str) (width : nat) : str :=
  s ++ replicate (width - length s)%nat SPACE.

(** [fmt.Fprintf(w, fstr, k, v)] for the format [fstr] that [Print]
    builds: [prefix], ["%-"], the width, ["s%s\n"]. *)
Definition Fprintf_prop (prefix : str) (width : nat) (k v : str) : str :=
  prefix ++ padRight k width ++ v ++ [LF].

(** [PrintProps].  The order in which [range co.Props] visits the map is
    chosen by the Go runtime: it is the argument [order]. *)
Definition PrintProps (order : list (str * str)) (prefix : str) (width : nat) : str :=
  List.concat (map (fun kv => Fprintf_prop prefix width kv.1 kv.2) order).

(** [Print] with [sorted = false]: the text written and the object, whose
    comment may have been regenerated.  [strings.Repeat] panics on a
    negative count, and package fmt takes a width of this shape up to
    10^6: the model is [None] outside of these bounds. *)
Definition Print (co : CfgObj) (order : list (str * str)) : option (str * CfgObj) :=
  if (0 <=? co_Indent co) && (0 <=? co_Align co) && (co_Align co <=? 1000000) then
    let prefix := Repeat [SPACE] (Z.to_nat (co_Indent co)) in
    let co := (generateComment co).1 in
    Some (co_Comment co ++ [LF]
          ++ runes "define " ++ CfgType_String (co_Type co) ++ [LBRACE; LF]
          ++ PrintProps order prefix (Z.to_nat (co_Align co))
          ++ prefix ++ [RBRACE; LF],
          co)
  else None.

End Printer.

(** ** The input format

    The text of one define block (section 6, input file format), as the
    lines it is made of.  A line ends with LF or with CR LF; inside a line
    the white space is any space rune but CR and LF. *)

Inductive Eol : Type := EolLF | EolCRLF.

Definition eol (e : Eol) : str :=
  match e with EolLF => [LF] | EolCRLF => [CR; LF] end.

Definition hspace (c : rune) : bool :=
  IsSpace c && negb (c =? LF) && negb (c =? CR).

Definition blanks (s : str) : bool := forallb hspace s.

(** A field: not empty, without white space, and not starting with a
    brace. *)
Definition wordb (w : str) : bool :=
  match w with
  | [] => false
  | c :: _ => negb (c =? LBRACE) && negb (c =? RBRACE)
  end && forallb (fun c => negb (IsSpace c)) w.

(** A line without its end and without the comment marker in front. *)
Definition no_LF (s : str) : bool := forallb (fun c => negb (c =? LF)) s.

(** A blank line or a comment line. *)
Inductive Filler : Type :=
| BlankLine (ws : str) (e : Eol)
| CommentLine (body : str) (e : Eol).

Definition Filler_text (f : Filler) : str :=
  match f with
  | BlankLine ws e => ws ++ eol e
  | CommentLine body e => HASH :: body ++ eol e
  end.

Definition Filler_wf (f : Filler) : bool :=
  match f with
  | BlankLine ws _ => blanks ws
  | CommentLine body _ => no_LF body
  end.

(** A property line: indentation, the key, then the fields of the value,
    each after its separator, trailing white space and the line end. *)
Record PropLine : Type := mkPropLine {
  pl_indent : str;
  pl_key : str;
  pl_vals : list (str * str);
  pl_trail : str;
  pl_eol : Eol
}.

Definition sep_fields (vals : list (str * str)) : str :=
  List.concat (map (fun sw => sw.1 ++ sw.2) vals).

Definition PropLine_text (l : PropLine) : str :=
  pl_indent l ++ pl_key l ++ sep_fields (pl_vals l) ++ pl_trail l ++ eol (pl_eol l).

Definition PropLine_key (l : PropLine) : str := pl_key l.

Definition PropLine_value (l : PropLine) : str := Join (map snd (pl_vals l)) [SPACE].

Section Format.
Context `{Nagioscfg}.

(** The block-open rune is part of a field only beyond column
    [DEF_ALIGN]; [col] is the column of the first rune of [s]. *)
Fixpoint brace_ok (col : Z) (s : str) : bool :=
  match s with
  | [] => true
  | c :: s' => (negb (c =? LBRACE) || (DEF_ALIGN <? col)) && brace_ok (col + 1) s'
  end.

Definition sepfield_wf (sw : str * str) : bool :=
  negb (is_nil (head sw.1)) && blanks sw.1 && wordb sw.2.

Definition PropLine_wf (l : PropLine) : bool :=
  blanks (pl_indent l) && wordb (pl_key l)
  && negb (bool_decide (head (pl_indent l ++ pl_key l) = Some HASH))
  && negb (is_nil (head (pl_vals l))) && forallb sepfield_wf (pl_vals l)
  && blanks (pl_trail l)
  && brace_ok 0 (pl_indent l ++ pl_key l ++ sep_fields (pl_vals l)).

(** The header: ["define"], the name of the type and the block-open rune,
    which follows the name at once or after white space. *)
Record Header : Type := mkHeader {
  h_indent : str;
  h_sep : str;
  h_type : str;
  h_gap : str
}.

Definition Header_text (h : Header) : str :=
  h_indent h ++ runes "define" ++ h_sep h ++ h_type h ++ h_gap h ++ [LBRACE].

Definition Header_wf (h : Header) : bool :=
  blanks (h_indent h) && negb (is_nil (head (h_sep h))) && blanks (h_sep h)
  && wordb (h_type h) && forallb (fun c => negb (c =? LBRACE)) (h_type h)
  && blanks (h_gap h)
  && (negb (is_nil (head (h_gap h)))
      || (Z.of_nat (length (h_indent h ++ runes "define" ++ h_sep h ++ h_type h))
          <=? DEF_ALIGN)).

Inductive BodyLine : Type :=
| Fill (f : Filler)
| Prop_ (l : PropLine).

Definition BodyLine_text (b : BodyLine) : str :=
  match b with Fill f => Filler_text f | Prop_ l => PropLine_text l end.

Definition BodyLine_wf (b : BodyLine) : bool :=
  match b with Fill f => Filler_wf f | Prop_ l => PropLine_wf l end.

(** One block, with the blank and comment lines around it.  The text
    after the block-open rune is the first line of the body, and the text
    after the block-close rune the first line of [b_after]. *)
Record Block : Type := mkBlock {
  b_before : list Filler;
  b_header : Header;
  b_body : list BodyLine;
  b_close : str;
  b_after : list Filler
}.

Definition Block_text (b : Block) : str :=
  List.concat (map Filler_text (b_before b))
  ++ Header_text (b_header b)
  ++ List.concat (map BodyLine_text (b_body b))
  ++ b_close b ++ [RBRACE]
  ++ List.concat (map Filler_text (b_after b)).

(** The key/value pairs of the property lines, in the order of the text. *)
Fixpoint Body_props (body : list BodyLine) : list (str * str) :=
  match body with
  | [] => []
  | Fill _ :: body' => Body_props body'
  | Prop_ l :: body' => (PropLine_key l, PropLine_value l) :: Body_props body'
  end.

Definition Block_wf (b : Block) : bool :=
  forallb Filler_wf (b_before b) && Header_wf (b_header b)
  && negb (bool_decide (CfgName_Type (h_type (b_header b)) = T_INVALID))
  && forallb BodyLine_wf (b_body b)
  && bool_decide (NoDup (Body_props (b_body b)).*1)
  && blanks (b_close b)
  && forallb Filler_wf (b_after b).

End Format.

(** ** A reference instance of the parameters

    The values the examples run with: the object types that the tests of
    the package name, the column threshold 32 and the indentation 4, and
    UUIDs numbered from 1. *)

Module Reference.

Inductive RefType : Type := T_COMMAND | T_HOST | T_SERVICE | T_NONE.

#[global] Instance RefType_eq_dec : EqDecision RefType.
Proof. solve_decision. Defined.

Definition RefType_of_name (s : str) : RefType :=
  if decide (s = runes "command") then T_COMMAND
  else if decide (s = runes "host") then T_HOST
  else if decide (s = runes "service") then T_SERVICE
  else T_NONE.

Definition RefType_String (t : RefType) : str :=
  match t with
  | T_COMMAND => runes "command"
  | T_HOST => runes "host"
  | T_SERVICE => runes "service"
  | T_NONE => runes "invalid"
  end.

Definition RefType_namekey (t : RefType) : str :=
  match t with
  | T_COMMAND => runes "command_name"
  | T_HOST => runes "host_name"
  | T_SERVICE => runes "service_description"
  | T_NONE => []
  end.

(** A comment of the shape that [TestGenerateComment] expects. *)
Definition RefComment (t : RefType) (props : gmap str str) : option str :=
  match props !! RefType_namekey t with
  | Some name => Some (runes "# " ++ RefType_String t ++ runes " '" ++ name ++ runes "'")
  | None => None
  end.

#[global] Instance ref : Nagioscfg := {|
  CfgType := RefType;
  T_INVALID := T_NONE;
  CfgName_Type := RefType_of_name;
  CfgType_String := RefType_String;
  DEF_ALIGN := 32;
  DEF_INDENT := 4;
  deriveComment := RefComment;
  UUID := nat;
  UUID_zero := O;
  UUIDSource := nat;
  NewUUID := fun n => (S n, S n)
|}.

Definition world0 : World := mkWorld [] O.

End Reference.

Definition ex1 := runes "# c
define service{
 host_name h1
}
".

(** * Notions used in the statements *)

(** The reader [r'] comes from [r] by reading: same comment marker, same
    line number, same underlying error, and no more input left than
    before. *)
Definition reads (r r' : Reader) : Prop :=
  Comment r' = Comment r /\ line r' = line r /\ srcerr r' = srcerr r
  /\ (length (src r') <= length (src r))%nat.

(** Two readers that differ in their line counters only. *)
Definition scan_eq (r r' : Reader) : Prop :=
  Comment r = Comment r' /\ column r = column r' /\ field r = field r'
  /\ src r = src r' /\ srcerr r = srcerr r'.

(** Two readers over the same input: they may differ in their counters
    and in the field buffer. *)
Definition same_stream (r r' : Reader) : Prop :=
  Comment r = Comment r' /\ src r = src r' /\ srcerr r = srcerr r'.

(** Two results of a scanning function: the same values, and readers
    related by [R]. *)
Definition same_scan {A} (R : Reader -> Reader -> Prop) (x y : option (A * Reader)) : Prop :=
  match x, y with
  | Some (a, r), Some (a', r') => a = a' /\ R r r'
  | None, None => True
  | _, _ => False
  end.

(** An error without its position. *)
Definition unpositioned (e : error) : error :=
  match e with
  | ParseError _ _ e' => e'
  | _ => e
  end.

(** A value is one field or more, joined by single spaces. *)
Definition valueb_of (ws : list str) (v : str) : Prop :=
  ws <> [] /\ forallb wordb ws = true /\ v = Join ws [SPACE].

Section Notions.
Context `{Nagioscfg}.

(** What holds of a result of [Read] and of its loop, started in the
    world [w] with the reader [r]: the marker and the underlying error of
    the reader are left alone, input is consumed whenever the result has no
    error, an object never comes with an error, and the ledger is extended
    at its end only. *)
Definition Read_post (w : World) (r : Reader)
    (out : Go (option CfgObj * option error) * World * Reader) : Prop :=
  Comment out.2 = Comment r /\ srcerr out.2 = srcerr r
  /\ (length (src out.2) <= length (src r))%nat
  /\ (exists news, uuidorder out.1.2 = uuidorder w ++ news)
  /\ (forall x, out.1.1 = Return (x, None) -> (length (src out.2) < length (src r))%nat)
  /\ (forall x e, out.1.1 = Return (x, Some e) -> x = None).

(** The reader [r] stands in front of [rest], in line [l]. *)
Definition stands (C l : Z) (e : error) (rest : str) (r : Reader) : Prop :=
  Comment r = C /\ line r = l /\ srcerr r = e /\ src r = rest.

(** The properties of a list of key/value pairs, added in order. *)
Definition add_props (kvs : list (str * str)) (o : CfgObj) : CfgObj :=
  foldl (fun o kv => (CfgObj_Add kv.1 kv.2 o).1) o kvs.

(** What holds of every object that [Read] returns: its keys are fields,
    its values are fields joined by single spaces, and its presentation
    is the one it was created with. *)
Definition produced (o : CfgObj) : Prop :=
  (forall k v, co_Props o !! k = Some v -> wordb k = true /\ exists ws, valueb_of ws v)
  /\ co_Indent o = DEF_INDENT /\ co_Align o = DEF_ALIGN /\ co_Comment o = [].

(** A key that [Print] can write so that it is read back: it leaves room
    for white space before the value, and it has no block-open rune. *)
Definition key_printable (width : nat) (k : str) : bool :=
  (length k <? width)%nat && forallb (fun c => negb (c =? LBRACE)) k.

(** A comment that [Print] can write: nothing, or one line that starts
    with the comment marker. *)
Definition comment_printable (c : str) : bool :=
  match c with
  | [] => true
  | h :: body => (h =? HASH) && no_LF body
  end.

(** A result of [Read] without positions: the object, the error without
    its position, the world and the input that is left. *)
Definition outcome (out : Go (option CfgObj * option error) * World * Reader)
  : Go (option CfgObj * option error) * World * str :=
  (match out.1.1 with
   | Return (x, e) => Return (x, unpositioned <$> e)
   | Panic => Panic
   end, out.1.2, src out.2).

End Notions.

(** An object that [Print] writes so that [Read] reads it back: the
    indentation is at least one column, the value column is beyond the
    brace threshold, the header fits before that threshold and names a
    type, the derived comment is a comment line, and the keys are
    printable within the alignment width. *)
Definition Print_readable `{Nagioscfg} (co : CfgObj) : bool :=
  (1 <=? co_Indent co) && (0 <=? co_Align co) && (co_Align co <=? 1000000)
  && (DEF_ALIGN <=? co_Indent co + co_Align co)
  && wordb (CfgType_String (co_Type co))
  && forallb (fun c => negb (c =? LBRACE)) (CfgType_String (co_Type co))
  && (7 + Z.of_nat (length (CfgType_String (co_Type co))) <=? DEF_ALIGN)
  && negb (bool_decide (CfgName_Type (CfgType_String (co_Type co)) = T_INVALID))
  && match deriveComment (co_Type co) (co_Props co) with
     | Some c => comment_printable c
     | None => true
     end
  && forallb (fun kv => key_printable (Z.to_nat (co_Align co)) kv.1)
       (map_to_list (co_Props co)).

(** The sequences of events of the producer, with the state it ends in. *)
Inductive producer_trace `{Nagioscfg} : list Event -> Producer -> Prop :=
| pt_running : producer_trace [] Running
| pt_panic : producer_trace [EvRead Panic] Crashed
| pt_object o t p :
    producer_trace t p ->
    producer_trace (EvRead (Return (Some o, None)) :: EvSend o :: t) p
| pt_nothing t p :
    producer_trace t p -> producer_trace (EvRead (Return (None, None)) :: t) p
| pt_error x e t p :
    e <> io_EOF -> producer_trace t p ->
    producer_trace (EvRead (Return (x, Some e)) :: EvLog e :: t) p
| pt_eof x : producer_trace [EvRead (Return (x, Some io_EOF)); EvClose] Finished.

(** The number of calls of [Read] in a sequence of events. *)
Fixpoint Read_calls `{Nagioscfg} (t : list Event) : nat :=
  match t with
  | [] => O
  | EvRead _ :: t' => S (Read_calls t')
  | _ :: t' => Read_calls t'
  end.

(** The runs of the producer from the world [w] and the reader [r]: every
    turn of the loop calls [Read] on the world and the reader that the
    turn before left, sends the object when there is one and no error,
    logs an error that is not [io.EOF] and goes on, and leaves the loop
    and closes the channel on [io.EOF].  A run may be observed up to the
    head of the loop only ([run_head]). *)
Inductive producer_run `{Nagioscfg} (setUUID : bool) (fileID : str)
  : World -> Reader -> list Event -> Producer -> World -> Reader -> Prop :=
| run_head w r : producer_run setUUID fileID w r [] Running w r
| run_panic w r w1 r1 :
    Read setUUID fileID w r = Some (Panic, w1, r1) ->
    producer_run setUUID fileID w r [EvRead Panic] Crashed w1 r1
| run_object w r o w1 r1 t p w' r' :
    Read setUUID fileID w r = Some (Return (Some o, None), w1, r1) ->
    producer_run setUUID fileID w1 r1 t p w' r' ->
    producer_run setUUID fileID w r (EvRead (Return (Some o, None)) :: EvSend o :: t) p w' r'
| run_nothing w r w1 r1 t p w' r' :
    Read setUUID fileID w r = Some (Return (None, None), w1, r1) ->
    producer_run setUUID fileID w1 r1 t p w' r' ->
    producer_run setUUID fileID w r (EvRead (Return (None, None)) :: t) p w' r'
| run_error w r x e w1 r1 t p w' r' :
    Read setUUID fileID w r = Some (Return (x, Some e), w1, r1) -> e <> io_EOF ->
    producer_run setUUID fileID w1 r1 t p w' r' ->
    producer_run setUUID fileID w r (EvRead (Return (x, Some e)) :: EvLog e :: t) p w' r'
| run_eof w r x w1 r1 :
    Read setUUID fileID w r = Some (Return (x, Some io_EOF), w1, r1) ->
    producer_run setUUID fileID w r [EvRead (Return (x, Some io_EOF)); EvClose] Finished w1 r1.

(** ** Examples *)

Module Examples.
Import Reference.

(** The object of a result of [Read], and its properties as a list. *)
Definition Read_object (x : option (Go (option CfgObj * option error) * World * Reader))
  : option CfgObj :=
  match x with
  | Some (Return (Some o, None), _, _) => Some o
  | _ => None
  end.

Definition Read_props (input : str) : option (list (str * str)) :=
  match Read_object (Read false [] world0 (NewReader input)) with
  | Some o => Some (map_to_list (co_Props o))
  | None => None
  end.

(** Read an object, print it in the order of [map_to_list], read the text
    back: the properties of the first object and those of the second. *)
Definition roundtrip (input : str) : option (list (str * str) * list (str * str)) :=
  match Read_object (Read false [] world0 (NewReader input)) with
  | Some o =>
    match Print o (map_to_list (co_Props o)) with
    | Some (text, _) =>
      match Read_props text with
      | Some props => Some (map_to_list (co_Props o), props)
      | None => None
      end
    | None => None
    end
  | None => None
  end.

(** The example of section 8 of the specification, as a block. *)
Definition ex1_block : Block :=
  mkBlock [CommentLine (runes " c") EolLF]
    (mkHeader [] (runes " ") (runes "service") [])
    [Fill (BlankLine [] EolLF);
     Prop_ (mkPropLine (runes " ") (runes "host_name") [(runes " ", runes "h1")] [] EolLF)]
    []
    [BlankLine [] EolLF].

(** The object of [TestPrintPropsSorted]. *)
Definition pig : str := runes "#comment
define service{
	service_description PigInABlanket
	host_name pighost04
	contacts odd
	}".

Definition pig_object : CfgObj :=
  mkCfgObj T_SERVICE O []
    (<[runes "service_description" := runes "PigInABlanket"]>
       (<[runes "host_name" := runes "pighost04"]>
          (<[runes "contacts" := runes "odd"]> ∅)))
    4 32 [].

(** A block whose only property has a key of 32 runes. *)
Definition longkey : str := runes "define service{
 _a_custom_variable_of_32_runes__ v
}
".

(** A block whose only property has a key with a block-open rune, which
    the scanner takes into the field because it stands beyond column
    [DEF_ALIGN]. *)
Definition bracekey : str := runes "define service{
                                   _arg{1} v
}
".

(** A block with a value of several fields. *)
Definition ex2_block : Block :=
  mkBlock [CommentLine (runes " c") EolLF]
    (mkHeader [] (runes " ") (runes "service") [])
    [Fill (BlankLine [] EolLF);
     Prop_ (mkPropLine (runes " ") (runes "host_name") [(runes " ", runes "h1")] [] EolLF);
     Prop_ (mkPropLine (runes " ") (runes "check_command")
              [(runes "   ", runes "check_ping"); (runes " ", runes "100");
               (runes " ", runes "20%")] [] EolLF)]
    []
    [BlankLine [] EolLF].

Definition ex2 : str := runes "# c
define service{
 host_name h1
 check_command   check_ping 100 20%
}
".

(** A block with a value that has a block-open rune before column
    [DEF_ALIGN]. *)
Definition brace_value : str := runes "define command{
    command_name check_x
    command_line check_x -a '{foo}'
}
".

(** A block whose header is indented so far that its block-open rune
    stands beyond column [DEF_ALIGN]. *)
Definition indented_header : str := runes "                         define service{
 host_name h1
}
".

(** A block followed by a space that no newline ends. *)
Definition no_final_newline : str := runes "define service{
 host_name h1
}
 ".

(** An input with a header of an unknown type, then a block. *)
Definition bogus_then_host : str := runes "define bogus{
}
define host{
}
".

(** A block with an indented comment. *)
Definition indented_comment : str := runes "define service{
    # c d
}
".

Definition without_comment : str := runes "define service{
}
".

End Examples.

Import Reference Examples.

(** * Further operations of io.go *)

(** ** The stream that [readRune] delivers *)

(** The runes that successive calls of [readRune] return, up to the first
    call that fails; [n] bounds the number of calls. *)
Fixpoint readRunes (n : nat) (r : Reader) : list rune :=
  match n with
  | O => []
  | S n' =>
    let '(c, err, r') := readRune r in
    if is_nil err then c :: readRunes n' r' else []
  end.

(** The comment of [readRune] calls it dos2unix: CR LF becomes LF, and
    any other CR stays, but for one that ends the stream. *)
Fixpoint dos2unix (s : str) : str :=
  match s with
  | [] => []
  | c :: s' =>
    if c =? CR then
      match s' with
      | [] => []
      | d :: _ => if d =? LF then dos2unix s' else CR :: dos2unix s'
      end
    else c :: dos2unix s'
  end.

(** A string without white space. *)
Definition nospace (f : str) : bool := forallb (fun c => negb (IsSpace c)) f.

(** ** [ReadAllList] *)

Section Collectors.
Context `{Nagioscfg}.

(** The loop of [ReadAllList]; [l.PushBack] appends at the end. *)
Fixpoint ReadAllList_loop (n : nat) (setUUID : bool) (fileID : str) (w : World)
    (r : Reader) (l : list CfgObj)
  : option (Go (list CfgObj * option error) * World * Reader) :=
  match n with
  | O => None
  | S n' =>
    match Read setUUID fileID w r with
    | None => None
    | Some (Panic, w, r) => Some (Panic, w, r)
    | Some (Return (obj, err), w, r) =>
      let l :=
        match obj with
        | Some o => if is_nil err then l ++ [o] else l
        | None => l
        end in
      if negb (is_nil err) then
        if negb (is_EOF err) then Some (Return (l, err), w, r)
        else Some (Return (l, None), w, r)
      else ReadAllList_loop n' setUUID fileID w r l
    end
  end.

Definition ReadAllList (setUUID : bool) (fileID : str) (w : World) (r : Reader)
  : option (Go (list CfgObj * option error) * World * Reader) :=
  ReadAllList_loop (S (length (src r))) setUUID fileID w r [].

(** The map that [ReadAllMap] builds from the objects in the order in
    which they are read: [m[obj.UUID] = obj] for each. *)
Definition CfgMap_of (l : list CfgObj) : gmap UUID CfgObj :=
  foldl (fun m o => <[co_UUID o := o]> m) ∅ l.

(** The objects that the producer of [ReadChan] has sent on the channel. *)
Fixpoint sent (t : list Event) : list CfgObj :=
  match t with
  | [] => []
  | EvSend o :: t' => o :: sent t'
  | _ :: t' => sent t'
  end.

End Collectors.

(** What a block gives: its type, its properties, and the origin file
    when one is given. *)
Definition Block_object `{Nagioscfg} (fileID : str) (b : Block) (o : CfgObj) : Prop :=
  co_Type o = CfgName_Type (h_type (b_header b))
  /\ co_Props o = list_to_map (Body_props (b_body b))
  /\ (fileID <> [] -> co_FileID o = fileID).

(** What an object looks like after it was printed and read back: the
    same properties, and the type that the name of its type stands for. *)
Definition reread `{Nagioscfg} (c : CfgObj * list (str * str)) (o : CfgObj) : Prop :=
  co_Props o = co_Props c.1
  /\ co_Type o = CfgName_Type (CfgType_String (co_Type c.1)).



(** A header line with any word in the place of ["define"]. *)
Definition Keyword_header_text (kw : str) (h : Header) : str :=
  h_indent h ++ kw ++ h_sep h ++ h_type h ++ h_gap h ++ [LBRACE].

Definition Keyword_header_wf `{Nagioscfg} (kw : str) (h : Header) : bool :=
  blanks (h_indent h) && wordb kw && forallb (fun c => negb (c =? LBRACE)) kw
  && negb (bool_decide (head (h_indent h ++ kw) = Some HASH))
  && negb (is_nil (head (h_sep h))) && blanks (h_sep h)
  && wordb (h_type h) && forallb (fun c => negb (c =? LBRACE)) (h_type h)
  && blanks (h_gap h)
  && (negb (is_nil (head (h_gap h)))
      || (Z.of_nat (length (h_indent h ++ kw ++ h_sep h ++ h_type h)) <=? DEF_ALIGN)).

(** ** [PrintPropsSorted] and [Print] with [sorted] *)

Section SortedPrinter.
Context `{Nagioscfg}.

(** [CfgKeySortOrder], the table of the package that gives a key its rank
    in the objects of a type.  It is declared outside io.go; an index that
    the Go maps do not have reads as 0. *)
Variable CfgKeySortOrder : str -> CfgType -> Z.

(** The map [keypri] after the first loop of [PrintPropsSorted], which
    visits the properties in the order [order]: a key that comes later
    replaces one of the same rank. *)
Definition keypri (ty : CfgType) (order : list (str * str)) : gmap Z str :=
  foldl (fun m kv => <[CfgKeySortOrder kv.1 ty := kv.1]> m) ∅ order.

(** [PrintPropsSorted].  [keys] holds the ranks of [keypri], each once, and
    [sort.Ints] puts them in increasing order. *)
Definition PrintPropsSorted (co : CfgObj) (order : list (str * str))
    (prefix : str) (width : nat) : str :=
  let kp := keypri (co_Type co) order in
  let keys := merge_sort Z.le (map_to_list kp).*1 in
  List.concat
    (map (fun k => let key := default [] (kp !! k) in
                   Fprintf_prop prefix width key (default [] (co_Props co !! key)))
         keys).

(** [Print], with its parameter [sorted]. *)
Definition Print_with (sorted : bool) (co : CfgObj) (order : list (str * str))
  : option (str * CfgObj) :=
  if (0 <=? co_Indent co) && (0 <=? co_Align co) && (co_Align co <=? 1000000) then
    let prefix := Repeat [SPACE] (Z.to_nat (co_Indent co)) in
    let co := (generateComment co).1 in
    Some (co_Comment co ++ [LF]
          ++ runes "define " ++ CfgType_String (co_Type co) ++ [LBRACE; LF]
          ++ (if sorted then PrintPropsSorted co order prefix (Z.to_nat (co_Align co))
              else PrintProps order prefix (Z.to_nat (co_Align co)))
          ++ prefix ++ [RBRACE; LF],
          co)
  else None.

(** [CfgObjs.Print]: every object, each followed by an empty line.  Each
    object comes with the order in which its properties are visited; the
    objects are returned with their comments regenerated. *)
Fixpoint CfgObjs_Print (sorted : bool) (cos : list (CfgObj * list (str * str)))
  : option (str * list CfgObj) :=
  match cos with
  | [] => Some ([], [])
  | (co, order) :: cos' =>
    match Print_with sorted co order with
    | None => None
    | Some (text, co') =>
      match CfgObjs_Print sorted cos' with
      | None => None
      | Some (text', cos'') => Some (text ++ [LF] ++ text', co' :: cos'')
      end
    end
  end.

End SortedPrinter.

(** * Properties *)

(** ** Runes *)

Lemma IsSpace_neq (c d : Z) : IsSpace c = true -> IsSpace d = false -> c <> d.
Proof. intros Hc Hd ->. congruence. Qed.

Lemma hspace_IsSpace c : hspace c = true -> IsSpace c = true.
Proof. unfold hspace. intros Hc. repeat (apply andb_prop in Hc as [Hc _]). exact Hc. Qed.

Lemma hspace_not_LF c : hspace c = true -> (c =? LF) = false.
Proof.
  unfold hspace. intros Hc. apply andb_prop in Hc as [Hc _].
  apply andb_prop in Hc as [_ Hc]. by apply negb_true_iff in Hc.
Qed.

Lemma hspace_not_CR c : hspace c = true -> (c =? CR) = false.
Proof. unfold hspace. intros Hc. apply andb_prop in Hc as [_ Hc]. by apply negb_true_iff in Hc. Qed.

Lemma space_not (c d : Z) : IsSpace c = true -> IsSpace d = false -> (c =? d) = false.
Proof. intros Hc Hd. apply Z.eqb_neq. by eapply IsSpace_neq. Qed.

Lemma nonspace_not (c d : Z) : IsSpace c = false -> IsSpace d = true -> (c =? d) = false.
Proof. intros Hc Hd. apply Z.eqb_neq. intros ->. congruence. Qed.

Lemma blanks_cons c s : blanks (c :: s) = true -> hspace c = true /\ blanks s = true.
Proof. unfold blanks. simpl. intros Hb. by apply andb_prop in Hb. Qed.

Lemma blanks_app s t : blanks (s ++ t) = blanks s && blanks t.
Proof. unfold blanks. apply forallb_app. Qed.

(** ** The rune reader *)

Section ReaderFacts.
Context `{Nagioscfg}.

Lemma readRune_plain C l il col f c s e :
  (c =? CR) = false -> (c =? LF) = false ->
  readRune (mkReader C l il col f (c :: s) e)
  = (c, None, mkReader C l il (col + 1) f s e).
Proof. intros Hcr Hlf. unfold readRune, ReadRune. simpl. by rewrite Hcr, Hlf. Qed.

Lemma readRune_nonspace C l il col f c s e :
  IsSpace c = false ->
  readRune (mkReader C l il col f (c :: s) e)
  = (c, None, mkReader C l il (col + 1) f s e).
Proof. intros Hc. apply readRune_plain; by apply nonspace_not. Qed.

Lemma readRune_hspace C l il col f c s e :
  hspace c = true ->
  readRune (mkReader C l il col f (c :: s) e)
  = (c, None, mkReader C l il (col + 1) f s e).
Proof. intros Hc. apply readRune_plain; [by apply hspace_not_CR | by apply hspace_not_LF]. Qed.

Lemma readRune_LF C l il col f s e :
  readRune (mkReader C l il col f (LF :: s) e)
  = (LF, None, mkReader C l (il + 1) (col + 1) f s e).
Proof. reflexivity. Qed.

Lemma readRune_CRLF C l il col f s e :
  readRune (mkReader C l il col f (CR :: LF :: s) e)
  = (LF, None, mkReader C l il (col + 1) f s e).
Proof. reflexivity. Qed.

Lemma readRune_CR C l il col f c s e :
  (c =? LF) = false ->
  readRune (mkReader C l il col f (CR :: c :: s) e)
  = (CR, None, mkReader C l il (col + 1) f (c :: s) e).
Proof. intros Hc. unfold readRune, ReadRune. simpl. by rewrite Hc. Qed.

Lemma readRune_eol C l il col f ending s e :
  exists il', readRune (mkReader C l il col f (eol ending ++ s) e)
              = (LF, None, mkReader C l il' (col + 1) f s e).
Proof. destruct ending; eexists; reflexivity. Qed.

Lemma readRune_end C l il col f e :
  readRune (mkReader C l il col f [] e) = (0, Some e, mkReader C l il (col + 1) f [] e).
Proof. reflexivity. Qed.

(** What [readRune] never touches, and that it consumes input whenever it
    succeeds. *)
Lemma readRune_frame r c err r' :
  readRune r = (c, err, r') ->
  Comment r' = Comment r /\ line r' = line r /\ field r' = field r
  /\ srcerr r' = srcerr r /\ column r' = column r + 1
  /\ (length (src r') <= length (src r))%nat
  /\ (err = None -> (length (src r') < length (src r))%nat)
  /\ (forall e, err = Some e -> e = srcerr r).
Proof.
  destruct r as [C l il col f s e]. unfold readRune, ReadRune. simpl.
  destruct s as [|c0 s]; simpl.
  - intros [= <- <- <-]. simpl. repeat split; try lia; try done. congruence.
  - destruct (c0 =? CR) eqn:Hcr.
    + destruct s as [|c1 s]; simpl.
      * intros [= <- <- <-]. simpl. repeat split; try lia; try done. congruence.
      * destruct (c1 =? LF); simpl; intros [= <- <- <-]; simpl;
          repeat split; try lia; done.
    + destruct (c0 =? LF); intros [= <- <- <-]; simpl; repeat split; try lia; done.
Qed.

Lemma readRune_shorter r c r' :
  readRune r = (c, None, r') -> (length (src r') < length (src r))%nat.
Proof. intros Hr. by apply (readRune_frame _ _ _ _ Hr). Qed.

End ReaderFacts.

(** ** Termination and frame of the scanner *)

(** Closes the conjunctions that describe a result of the scanner. *)
Ltac scan_done :=
  repeat match goal with |- _ /\ _ => split end;
  try done; intros; simplify_eq; try done; try lia; eauto 6.

Lemma reads_refl r : reads r r.
Proof. by repeat split. Qed.

Lemma reads_trans r1 r2 r3 : reads r1 r2 -> reads r2 r3 -> reads r1 r3.
Proof.
  intros (?&?&?&?) (?&?&?&?). repeat split; try congruence. lia.
Qed.

Lemma readRune_reads r c err r' : readRune r = (c, err, r') -> reads r r'.
Proof. intros Hr. destruct (readRune_frame _ _ _ _ Hr) as (?&?&?&?&?&?&?). by repeat split. Qed.

Lemma set_field_reads v r : reads r (set_field v r).
Proof. by repeat split. Qed.

Section ScannerFacts.
Context `{Nagioscfg}.

Lemma skip_loop_total n r delim :
  (length (src r) < n)%nat ->
  exists err r', skip_loop n r delim = Some (err, r') /\ reads r r'
    /\ (forall e, err = Some e -> e = srcerr r).
Proof.
  revert r. induction n as [|n IH]; intros r Hn; [lia|]. simpl.
  destruct (readRune r) as [[c e] r1] eqn:Hr.
  pose proof (readRune_reads _ _ _ _ Hr) as Hrd.
  destruct (readRune_frame _ _ _ _ Hr) as (_&_&_&Hse&_&_&Hlt&Herr).
  destruct e as [e|]; simpl.
  - exists (Some e), r1. repeat split; try apply Hrd. intros e' [= <-]. by apply Herr.
  - destruct (c =? delim).
    + exists None, r1. repeat split; try apply Hrd. done.
    + specialize (Hlt eq_refl). destruct (IH r1) as (err & r' & -> & Hrd' & He); [lia|].
      exists err, r'. split; [done|]. split; [by eapply reads_trans|].
      intros e' He'. rewrite (He _ He'). done.
Qed.

Lemma skip_total r delim :
  exists err r', skip r delim = Some (err, r') /\ reads r r'
    /\ (forall e, err = Some e -> e = srcerr r).
Proof. apply skip_loop_total. lia. Qed.

End ScannerFacts.

Section ScannerTotal.
Context `{Nagioscfg}.

Lemma parseFields_skip_err n c e r :
  parseFields_skip n c (Some e) r = Some (c, Some e, r).
Proof. by destruct n. Qed.

Lemma parseFields_skip_total n c err r :
  (length (src r) < n)%nat \/ err <> None ->
  exists c' err' r', parseFields_skip n c err r = Some (c', err', r') /\ reads r r'
    /\ (err' = None -> err = None)
    /\ (err' = None -> c' = LF \/ IsSpace c' = false)
    /\ (err' = None -> field r' = field r)
    /\ (forall e, err' = Some e -> err = Some e \/ e = srcerr r).
Proof.
  revert c err r. induction n as [|n IH]; intros c err r Hn.
  - destruct err as [e|]; [|destruct Hn as [Hn|Hn]; [lia|done]].
    exists c, (Some e), r. rewrite parseFields_skip_err.
    split; [done|]. split; [apply reads_refl|]. scan_done.
  - destruct err as [e|].
    { exists c, (Some e), r. rewrite parseFields_skip_err.
      split; [done|]. split; [apply reads_refl|]. scan_done. }
    destruct Hn as [Hn|Hn]; [|done]. simpl.
    destruct (negb (c =? LF) && IsSpace c) eqn:Hc.
    + destruct (readRune r) as [[c1 e1] r1] eqn:Hr.
      pose proof (readRune_reads _ _ _ _ Hr) as Hrd.
      destruct (readRune_frame _ _ _ _ Hr) as (_&_&Hf&Hse&_&_&Hlt&Herr).
      destruct e1 as [e1|].
      * exists c1, (Some e1), r1. rewrite parseFields_skip_err.
        split; [done|]. split; [done|]. scan_done.
      * specialize (Hlt eq_refl).
        destruct (IH c1 None r1) as (c' & err' & r' & -> & Hrd' & Hn1 & Hn2 & Hn3 & Hn4);
          [left; lia|].
        exists c', err', r'. split; [done|]. split; [by eapply reads_trans|].
        split; [done|]. split; [done|]. split.
        -- intros He'. rewrite (Hn3 He'). done.
        -- intros e He'. right. destruct (Hn4 _ He') as [?| ->]; [done|]. done.
    + exists c, None, r. split; [done|]. split; [apply reads_refl|].
      split; [done|]. split; [|done].
      intros _. destruct (c =? LF) eqn:Hlf; simpl in Hc.
      * left. by apply Z.eqb_eq.
      * by right.
Qed.

Lemma parseFields_accum_total n c r :
  (length (src r) < n)%nat -> IsSpace c = false ->
  exists d err r', parseFields_accum n c r = Some (d, err, r') /\ reads r r'
    /\ (exists more, field r' = field r ++ c :: more
                     /\ forallb (fun c => negb (IsSpace c)) more = true)
    /\ (err = None -> (d = LBRACE \/ IsSpace d = true)
                      /\ (length (src r') < length (src r))%nat)
    /\ (forall e, err = Some e -> e = srcerr r).
Proof.
  revert c r. induction n as [|n IH]; intros c r Hn Hc; [lia|]. simpl.
  rewrite Hc. simpl.
  destruct (readRune (WriteRune c r)) as [[d e] r1] eqn:Hr.
  pose proof (readRune_reads _ _ _ _ Hr) as Hrd.
  destruct (readRune_frame _ _ _ _ Hr) as (_&_&Hf&Hse&_&_&Hlt&Herr).
  assert (reads r r1) as Hrd1 by (eapply reads_trans; [apply set_field_reads|exact Hrd]).
  assert (field r1 = field r ++ [c]) as Hfld by (rewrite Hf; by destruct r).
  assert (src (WriteRune c r) = src r) as Hsrc by by destruct r.
  assert (srcerr (WriteRune c r) = srcerr r) as Hsrce by by destruct r.
  rewrite Hsrc in Hlt. rewrite Hsrce in Herr.
  destruct e as [e|]; simpl.
  { exists d, (Some e), r1. split; [done|]. split; [done|]. split.
    - exists []. by rewrite Hfld.
    - scan_done. }
  specialize (Hlt eq_refl).
  assert (forall d', IsSpace d' = false ->
    exists d0 err r', parseFields_accum n d' r1 = Some (d0, err, r') /\ reads r r'
    /\ (exists more, field r' = field r ++ c :: more
                     /\ forallb (fun c => negb (IsSpace c)) more = true)
    /\ (err = None -> (d0 = LBRACE \/ IsSpace d0 = true)
                      /\ (length (src r') < length (src r))%nat)
    /\ (forall e, err = Some e -> e = srcerr r)) as Hrec.
  { intros d' Hd'. destruct (IH d' r1) as (d0 & err & r' & Heq & Hrd' & (more & Hm & Hall) & Hn1 & Hn2);
      [lia|done|].
    exists d0, err, r'. split; [done|]. split; [by eapply reads_trans|]. split.
    - exists (d' :: more). rewrite Hm, Hfld, <- app_assoc. split; [done|].
      simpl. by rewrite Hd', Hall.
    - split.
      + intros He. destruct (Hn1 He) as [? ?]. split; [done|lia].
      + intros e He. rewrite (Hn2 _ He). done. }
  destruct (d =? LBRACE) eqn:Hb.
  - apply Z.eqb_eq in Hb. subst d. destruct (column r1 >? DEF_ALIGN).
    + by apply Hrec.
    + exists LBRACE, None, r1. split; [done|]. split; [done|]. split.
      * exists []. by rewrite Hfld.
      * split; [|done]. intros _. split; [by left|lia].
  - destruct (IsSpace d) eqn:Hd.
    + exists d, None, r1. split; [done|]. split; [done|]. split.
      * exists []. by rewrite Hfld.
      * split; [|done]. intros _. split; [by right|lia].
    + by apply Hrec.
Qed.

(** What [parseFields] returns, on any input: it terminates, it consumes
    input unless it fails, and a field that ends at white space is a
    field in the sense of [wordb]. *)
Lemma parseFields_total r :
  exists hf d err r', parseFields r = Some (hf, d, err, r') /\ reads r r'
    /\ (err = None -> (length (src r') < length (src r))%nat)
    /\ (forall e, err = Some e -> e = srcerr r /\ d = 0)
    /\ (err = None -> hf = true -> d <> RBRACE -> wordb (field r') = true)
    /\ (err = None -> d = RBRACE -> hf = true /\ field r' = [])
    /\ (err = None -> d = LF \/ d = LBRACE \/ d = RBRACE \/ IsSpace d = true).
Proof.
  unfold parseFields.
  destruct (readRune (set_field [] r)) as [[c0 e0] r0] eqn:Hr0.
  pose proof (readRune_reads _ _ _ _ Hr0) as Hrd0.
  destruct (readRune_frame _ _ _ _ Hr0) as (_&_&Hf0&Hse0&_&Hle0&Hlt0&Herr0).
  assert (src (set_field [] r) = src r) as Hsrc by by destruct r.
  assert (srcerr (set_field [] r) = srcerr r) as Hsrce by by destruct r.
  assert (field (set_field [] r) = []) as Hfld by by destruct r.
  rewrite Hsrc in Hle0, Hlt0. rewrite Hsrce in Herr0. rewrite Hfld in Hf0.
  assert (reads r r0) as Hrd0' by (eapply reads_trans; [apply set_field_reads|exact Hrd0]).
  destruct (parseFields_skip_total (S (length (src r))) c0 e0 r0)
    as (c1 & e1 & r1 & -> & Hrd1 & Hs1 & Hs2 & Hs3 & Hs4); [left; lia|].
  assert (reads r r1) as Hrd by by eapply reads_trans.
  assert (forall e, e1 = Some e -> e = srcerr r) as Hprov.
  { intros e He. destruct (Hs4 _ He) as [->| ->]; [by apply Herr0|].
    by destruct Hrd0' as (_&_&?&_). }
  assert (e1 = None -> (length (src r1) < length (src r))%nat) as Hprog.
  { intros He. specialize (Hlt0 (Hs1 He)). destruct Hrd1 as (_&_&_&?). lia. }
  destruct (is_EOF e1 && negb (column r1 =? 0)) eqn:Heof.
  { apply andb_prop in Heof as [Heof _].
    exists true, 0, e1, r1. split; [done|]. split; [done|].
    destruct e1 as [e1|]; [|done]. scan_done. }
  destruct e1 as [e1|]; cbn [is_nil negb].
  { exists false, 0, (Some e1), r1. split; [done|]. split; [done|]. scan_done. }
  specialize (Hprog eq_refl). specialize (Hs3 eq_refl). rewrite Hf0 in Hs3.
  destruct (c1 =? LF) eqn:H1.
  { apply Z.eqb_eq in H1. exists false, c1, None, r1. scan_done. }
  destruct (c1 =? TAB) eqn:H2.
  { apply Z.eqb_eq in H2. exists false, c1, None, r1. subst c1.
    split; [done|]. split; [done|]. split; [done|]. split; [done|].
    split; [done|]. split; [done|]. intros _. by right; right; right. }
  destruct (c1 =? SPACE) eqn:H3.
  { apply Z.eqb_eq in H3. exists false, c1, None, r1. subst c1.
    split; [done|]. split; [done|]. split; [done|]. split; [done|].
    split; [done|]. split; [done|]. intros _. by right; right; right. }
  destruct (c1 =? LBRACE) eqn:H4.
  { apply Z.eqb_eq in H4. exists false, c1, None, r1. scan_done. }
  destruct (c1 =? RBRACE) eqn:H5.
  { apply Z.eqb_eq in H5. exists true, c1, None, r1. scan_done. }
  assert (IsSpace c1 = false) as Hc1.
  { destruct (Hs2 eq_refl) as [->|?]; [done|done]. }
  destruct (parseFields_accum_total (S (length (src r))) c1 r1)
    as (d & e2 & r2 & -> & Hrd2 & (more & Hm & Hall) & Ha1 & Ha2); [lia|done|].
  assert (reads r r2) as Hrd' by by eapply reads_trans.
  assert (srcerr r1 = srcerr r) as Hse1 by by destruct Hrd as (_&_&?&_).
  destruct e2 as [e2|]; cbn [is_nil negb].
  { rewrite (Ha2 _ eq_refl), Hse1.
    destruct (is_EOF (Some (srcerr r))).
    - exists true, 0, (Some (srcerr r)), r2. scan_done.
    - exists false, 0, (Some (srcerr r)), r2. scan_done. }
  destruct (Ha1 eq_refl) as [Hd Hlt2].
  exists true, d, None, r2. split; [done|]. split; [done|].
  split; [intros _; lia|]. split; [done|]. split.
  { intros _ _ _. rewrite Hm, Hs3. unfold wordb. cbn [app forallb]. rewrite H4, H5, Hc1. exact Hall. }
  split.
  { intros _ ->. destruct Hd as [Hd|Hd]; done. }
  intros _. destruct Hd as [->|Hd]; [by right; left|by right; right; right].
Qed.

Lemma forallb_snoc {A} (f : A -> bool) l x :
  forallb f (l ++ [x]) = forallb f l && f x.
Proof. rewrite forallb_app. simpl. by rewrite andb_true_r. Qed.

Lemma parseLine_loop_total n r fields :
  (length (src r) < n)%nat -> forallb wordb fields = true ->
  exists fields' st err r',
    parseLine_loop n r fields = Some (fields', st, err, r') /\ reads r r'
    /\ (err = None -> (length (src r') < length (src r))%nat)
    /\ (forall e, err = Some e -> e = srcerr r)
    /\ (st <> IO_OBJ_OUT <-> err = None)
    /\ (st = IO_OBJ_IN -> forallb wordb fields' = true)
    /\ (st = IO_OBJ_END -> fields' <> []).
Proof.
  revert r fields. induction n as [|n IH]; intros r fields Hn Hw; [lia|]. simpl.
  destruct (parseFields_total r)
    as (hf & d & err & r1 & -> & Hrd & Hlt & Herr & Hword & Hclose & Hd).
  set (fields1 := if hf then fields ++ [field r1] else fields).
  assert (d <> 0 -> err = None) as Hnz.
  { intros Hd0. destruct err as [e|]; [|done]. by destruct (Herr e eq_refl). }
  assert (forall e, err = Some e -> e = srcerr r) as Hprov.
  { intros e He. by destruct (Herr e He). }
  destruct (d =? LBRACE) eqn:H1.
  { apply Z.eqb_eq in H1. exists fields1, IO_OBJ_BEGIN, err, r1.
    rewrite Hnz by (by subst d). scan_done. }
  destruct (d =? RBRACE) eqn:H2.
  { apply Z.eqb_eq in H2. exists fields1, IO_OBJ_END, err, r1.
    rewrite Hnz by (by subst d).
    split; [done|]. split; [done|]. split; [by intros; apply Hlt, Hnz; subst d|].
    split; [done|]. split; [done|]. split; [done|].
    intros _. unfold fields1. destruct (Hclose (Hnz ltac:(by subst d)) H2) as [-> _].
    intros Hnil. by apply app_eq_nil in Hnil as [_ ?]. }
  assert (hf = true -> err = None -> forallb wordb fields1 = true) as Hw1.
  { intros -> He. unfold fields1. rewrite forallb_snoc, Hw. simpl.
    apply Hword; [done|done|]. by apply Z.eqb_neq. }
  assert (hf = false -> forallb wordb fields1 = true) as Hw0 by by intros ->.
  destruct (d =? LF) eqn:H3.
  { apply Z.eqb_eq in H3. exists fields1, IO_OBJ_IN, err, r1.
    rewrite Hnz by (by subst d).
    split; [done|]. split; [done|]. split; [by intros; apply Hlt, Hnz; subst d|].
    split; [done|]. split; [done|]. split; [|done].
    intros _. destruct hf; [apply Hw1; [done|]|by apply Hw0]. apply Hnz. by subst d. }
  destruct (is_EOF err) eqn:H4.
  { exists fields1, IO_OBJ_OUT, err, r1. destruct err; [|done]. scan_done. }
  destruct err as [e|]; cbn [is_nil negb].
  { exists [], IO_OBJ_OUT, (Some e), r1. scan_done. }
  specialize (Hlt eq_refl).
  destruct (IH r1 fields1) as (f' & st & err & r' & -> & Hrd' & Hlt' & Herr' & Hst & Hin & Hend);
    [lia|destruct hf; [by apply Hw1|by apply Hw0]|].
  exists f', st, err, r'. split; [done|]. split; [by eapply reads_trans|].
  split; [intros He; specialize (Hlt' He); lia|].
  split; [|done]. intros e He. rewrite (Herr' _ He). by destruct Hrd as (_&_&?&_).
Qed.

Lemma parseLine_total r :
  exists fields st err r',
    parseLine r = Some (fields, st, err, r')
    /\ reads (set_column (-1) (set_line (line r + 1) r)) r'
    /\ (err = None -> (length (src r') < length (src r))%nat)
    /\ (forall e, err = Some e -> e = srcerr r)
    /\ (st <> IO_OBJ_OUT -> err = None)
    /\ (st = IO_OBJ_IN -> forallb wordb fields = true)
    /\ (st = IO_OBJ_END -> fields <> []).
Proof.
  unfold parseLine. set (r0 := set_column (-1) (set_line (line r + 1) r)).
  assert (src r0 = src r) as Hsrc by by destruct r.
  assert (srcerr r0 = srcerr r) as Hse by by destruct r.
  unfold ReadRune. rewrite Hsrc. destruct (src r) as [|c s] eqn:Hs.
  { cbn [is_nil negb]. exists [], IO_OBJ_OUT, (Some (srcerr r0)), r0.
    split; [done|]. split; [apply reads_refl|]. rewrite Hse. scan_done. }
  cbn [is_nil negb].
  destruct (negb (Comment r0 =? 0) && (c =? Comment r0)).
  - destruct (skip_total (set_src s r0) LF) as (err & r' & -> & Hrd & Herr).
    assert (reads r0 (set_src s r0)) as Hrd0.
    { repeat split; try done. destruct r; simpl in *. rewrite Hs. simpl. lia. }
    exists [], IO_OBJ_OUT, err, r'. split; [done|]. split; [by eapply reads_trans|].
    split.
    { intros _. destruct Hrd as (_&_&_&Hle). destruct r; simpl in *. subst. simpl. lia. }
    split; [|done]. intros e He. rewrite (Herr _ He). by destruct r.
  - destruct (parseLine_loop_total (S (length (c :: s))) r0 [])
      as (f' & st & err & r' & -> & Hrd & Hlt & Herr & Hst & Hin & Hend);
      [rewrite Hsrc; simpl; lia|done|].
    exists f', st, err, r'. split; [done|]. split; [done|].
    rewrite Hsrc in Hlt. rewrite Hse in Herr.
    split; [done|]. split; [done|]. split; [apply Hst|]. done.
Qed.

End ScannerTotal.

(** ** The object builder: termination and invariants *)

Section ReadFacts.
Context `{Nagioscfg}.

(** One turn of the loop of [Read]. *)
Lemma Read_loop_S n setUUID fileID w r co prevState :
  Read_loop (S n) setUUID fileID w r co prevState =
  match parseLine r with
  | None => None
  | Some (fields, state, err, r) =>
    let next w co prevState :=
      if negb (is_nil err) then Some (Return (None, err), w, r)
      else Read_loop n setUUID fileID w r co prevState in
    match fields with
    | [] => next w co prevState
    | _ :: _ =>
      match state with
      | IO_OBJ_BEGIN =>
        if negb (IoState_eqb prevState IO_OBJ_OUT) then
          Read_loop n setUUID fileID w r co prevState
        else
          match fields !! 1%nat with
          | None => Some (Panic, w, r)
          | Some name =>
            let ct := CfgName_Type name in
            if decide (ct = T_INVALID) then
              Some (Return (None, Some (Reader_error r ErrUnknown)), w, r)
            else
              let '(o, w) := Read_alloc setUUID fileID ct w in
              next w (Some o) IO_OBJ_BEGIN
          end
      | IO_OBJ_IN =>
        match co with
        | Some o =>
          if (length fields <? 2)%nat then
            Read_loop n setUUID fileID w r co prevState
          else
            next w (Some (CfgObj_Add (hd [] fields) (Join (tl fields) [SPACE]) o).1)
              prevState
        | None => Read_loop n setUUID fileID w r co prevState
        end
      | IO_OBJ_END => Some (Return (co, None), w, r)
      | IO_OBJ_OUT => Some (Return (None, Some (Reader_error r ErrUnknown)), w, r)
      end
    end
  end.
Proof. reflexivity. Qed.

(** The ledger only grows, by the UUID of the object allocated. *)
Lemma Read_alloc_ledger setUUID fileID ct w o w' :
  Read_alloc setUUID fileID ct w = (o, w') ->
  uuidorder w' = uuidorder w ++ (if setUUID then [co_UUID o] else [])
  /\ co_Type o = ct /\ co_Props o = ∅
  /\ co_Indent o = DEF_INDENT /\ co_Align o = DEF_ALIGN.
Proof.
  unfold Read_alloc, NewCfgObjWithUUID. destruct setUUID.
  - destruct (NewUUID (uuidsrc w)) as [u g]. simpl.
    destruct (negb (bool_decide (fileID = []))); intros [= <- <-]; by simpl.
  - destruct (negb (bool_decide (fileID = []))); intros [= <- <-]; simpl;
      by rewrite app_nil_r.
Qed.

Lemma Read_post_step w r w1 r1 out :
  Read_post w1 r1 out ->
  (exists news, uuidorder w1 = uuidorder w ++ news) ->
  Comment r1 = Comment r -> srcerr r1 = srcerr r ->
  (length (src r1) <= length (src r))%nat ->
  Read_post w r out.
Proof.
  intros (HC & Hse & Hle & [news Hnews] & Hp & Hx) [news1 Hnews1] HC1 Hse1 Hle1.
  split; [congruence|]. split; [congruence|]. split; [lia|]. split.
  - exists (news1 ++ news). by rewrite Hnews, Hnews1, app_assoc.
  - split; [|done]. intros x Hres. specialize (Hp x Hres). lia.
Qed.

Lemma Read_loop_total n setUUID fileID w r co prevState :
  (length (src r) < n)%nat ->
  exists out,
    Read_loop n setUUID fileID w r co prevState = Some out /\ Read_post w r out.
Proof.
  revert w r co prevState. induction n as [|n IH]; intros w r co prev Hn; [lia|].
  rewrite Read_loop_S.
  destruct (parseLine_total r) as (fields & st & err & r1 & -> & Hrd & Hlt & Herr & Hst & _).
  destruct Hrd as (HC & _ & Hse & Hle).
  assert (Comment r1 = Comment r) as HC' by (rewrite HC; by destruct r).
  assert (srcerr r1 = srcerr r) as Hse' by (rewrite Hse; by destruct r).
  assert (length (src r1) <= length (src r))%nat as Hle' by (by destruct r).
  clear HC Hse Hle.
  assert (forall w1 co1 prev1, (exists news, uuidorder w1 = uuidorder w ++ news) ->
    err = None ->
    exists out, Read_loop n setUUID fileID w1 r1 co1 prev1 = Some out
                /\ Read_post w r out) as Hrec.
  { intros w1 co1 prev1 Hw1 He. specialize (Hlt He).
    destruct (IH w1 r1 co1 prev1) as (out & -> & Hpost); [lia|].
    exists out. split; [done|]. by eapply Read_post_step. }
  assert (exists news, uuidorder w = uuidorder w ++ news) as Hw0
    by (exists []; by rewrite app_nil_r).
  assert (forall w1 co1 prev1, (exists news, uuidorder w1 = uuidorder w ++ news) ->
    exists out,
    (if negb (is_nil err) then Some (Return (None, err), w1, r1)
     else Read_loop n setUUID fileID w1 r1 co1 prev1) = Some out
    /\ Read_post w r out) as Hnext.
  { intros w1 co1 prev1 Hw1. destruct err as [e|]; cbn [is_nil negb].
    - eexists. split; [done|]. repeat split; try done. simpl. congruence.
    - by apply Hrec. }
  assert (forall x e, (e = None -> err = None) -> (e <> None -> x = None) ->
    exists out,
    Some (Return (x, e), w, r1) = Some out /\ Read_post w r out) as Hret.
  { intros x e He Hx. eexists. split; [done|].
    split; [done|]. split; [done|]. split; [done|]. split; [done|]. simpl. split.
    - intros x' [= -> ->]. by apply Hlt, He.
    - intros x' e' [= -> ->]. by apply Hx. }
  destruct fields as [|f0 fields]; [by apply Hnext|]. cbv zeta.
  destruct st.
  - by apply Hret.
  - specialize (Hst ltac:(done)).
    destruct (negb (IoState_eqb prev IO_OBJ_OUT)); [by apply Hrec|].
    destruct ((f0 :: fields) !! 1%nat) as [name|].
    + destruct (decide (CfgName_Type name = T_INVALID)); [by apply Hret|].
      destruct (Read_alloc setUUID fileID (CfgName_Type name) w) as [o w1] eqn:Ha.
      apply Hnext. destruct (Read_alloc_ledger _ _ _ _ _ _ Ha) as [-> _]. by eexists.
    + eexists. split; [done|]. repeat split; try done.
  - specialize (Hst ltac:(done)). destruct co as [o|]; [|by apply Hrec].
    destruct (length (f0 :: fields) <? 2)%nat; [by apply Hrec|by apply Hnext].
  - specialize (Hst ltac:(done)). by apply Hret.
Qed.

Lemma Read_total setUUID fileID w r :
  exists out, Read setUUID fileID w r = Some out /\ Read_post w r out.
Proof. apply Read_loop_total. lia. Qed.

(** An invariant of the loop of [Read]: a property of the world, of the
    object under construction and of [prevState] that the allocation
    establishes and that adding a property line keeps holds of whatever
    [Read] returns without an error. *)
Section Invariant.
Variables (setUUID : bool) (fileID : str).
Variable I : World -> option CfgObj -> IoState -> Prop.
Hypothesis I_alloc : forall w co ct o w',
  I w co IO_OBJ_OUT -> ct <> T_INVALID ->
  Read_alloc setUUID fileID ct w = (o, w') -> I w' (Some o) IO_OBJ_BEGIN.
Hypothesis I_add : forall w o prev fields,
  I w (Some o) prev -> forallb wordb fields = true -> (2 <= length fields)%nat ->
  I w (Some (CfgObj_Add (hd [] fields) (Join (tl fields) [SPACE]) o).1) prev.

Lemma Read_loop_inv n w r co prev x w' r' :
  I w co prev ->
  Read_loop n setUUID fileID w r co prev = Some (Return (x, None), w', r') ->
  exists prev', I w' x prev'.
Proof.
  revert w r co prev. induction n as [|n IH]; intros w r co prev HI; [done|].
  rewrite Read_loop_S.
  destruct (parseLine_total r) as (fields & st & err & r1 & -> & _ & _ & _ & Hst & Hin & _).
  assert (forall w1 co1 prev1, I w1 co1 prev1 ->
    (if negb (is_nil err) then Some (Return (None, err), w1, r1)
     else Read_loop n setUUID fileID w1 r1 co1 prev1)
    = Some (Return (x, None), w', r') -> exists prev', I w' x prev') as Hnext.
  { intros w1 co1 prev1 HI1. destruct err; cbn [is_nil negb]; [done|]. by apply IH. }
  destruct fields as [|f0 fields]; [by apply Hnext|]. cbv zeta.
  destruct st.
  - done.
  - destruct (IoState_eqb prev IO_OBJ_OUT) eqn:Hp; cbn [negb]; [|by apply IH].
    assert (prev = IO_OBJ_OUT) as -> by (by destruct prev).
    destruct ((f0 :: fields) !! 1%nat) as [name|]; [|done].
    destruct (decide (CfgName_Type name = T_INVALID)); [done|].
    destruct (Read_alloc setUUID fileID (CfgName_Type name) w) as [o w1] eqn:Ha.
    apply Hnext. by eapply I_alloc.
  - destruct co as [o|]; [|by apply IH].
    destruct (length (f0 :: fields) <? 2)%nat eqn:Hlen; [by apply IH|].
    apply Hnext. apply I_add; [done|by apply Hin|]. apply Nat.ltb_ge in Hlen. done.
  - intros [= <- <- <-]. by exists prev.
Qed.

End Invariant.

End ReadFacts.

(** ** The scanner on well-formed text *)

Section ScannerOnText.
Context `{Nagioscfg}.

Lemma hspace_nonbrace c : hspace c = true -> (c =? LBRACE) = false /\ (c =? RBRACE) = false.
Proof. intros Hc. apply hspace_IsSpace in Hc. split; by apply space_not. Qed.

Lemma brace_ok_app col s t :
  brace_ok col (s ++ t) = brace_ok col s && brace_ok (col + Z.of_nat (length s)) t.
Proof.
  revert col. induction s as [|c s IH]; intros col; simpl.
  - by rewrite Z.add_0_r.
  - rewrite IH, <- andb_assoc. do 3 f_equal. lia.
Qed.

Lemma brace_ok_blanks col s : blanks s = true -> brace_ok col s = true.
Proof.
  revert col. induction s as [|c s IH]; intros col Hb; [done|].
  apply blanks_cons in Hb as [Hc Hb]. simpl.
  destruct (hspace_nonbrace _ Hc) as [-> _]. simpl. by apply IH.
Qed.

Lemma brace_ok_nobrace col s :
  forallb (fun c => negb (c =? LBRACE)) s = true -> brace_ok col s = true.
Proof.
  revert col. induction s as [|c s IH]; intros col Hb; [done|]. simpl in *.
  apply andb_prop in Hb as [-> Hb]. simpl. by apply IH.
Qed.

(** The white space in front of a field is skipped. *)
Lemma parseFields_skip_blanks ws : forall n c C l il col f tail e d err r',
  (length ws < n)%nat -> hspace c = true -> blanks ws = true ->
  readRune (mkReader C l il (col + Z.of_nat (length ws)) f tail e) = (d, err, r') ->
  err <> None \/ d = LF \/ IsSpace d = false ->
  parseFields_skip n c None (mkReader C l il col f (ws ++ tail) e) = Some (d, err, r').
Proof.
  induction ws as [|c' ws IH]; intros n c C l il col f tail e d err r' Hn Hc Hws Hr Hd.
  - destruct n as [|n]; [simpl in Hn; lia|]. simpl.
    rewrite (hspace_IsSpace _ Hc), (hspace_not_LF _ Hc). simpl.
    rewrite Z.add_0_r in Hr. rewrite Hr.
    destruct err as [e'|]; [by rewrite parseFields_skip_err|].
    destruct n; simpl.
    + destruct Hd as [?|[->|Hd]]; [done|done|].
      rewrite Hd. by rewrite andb_false_r.
    + destruct Hd as [?|[->|Hd]]; [done|done|].
      rewrite Hd. by rewrite andb_false_r.
  - destruct n as [|n]; [simpl in Hn; lia|].
    apply blanks_cons in Hws as [Hc' Hws]. simpl.
    rewrite (hspace_IsSpace _ Hc), (hspace_not_LF _ Hc). simpl.
    rewrite readRune_hspace by done.
    apply IH; try done.
    + simpl in Hn. lia.
    + rewrite <- Hr. do 2 f_equal. simpl length. lia.
Qed.

(** The first rune after the white space, as [parseFields] gets to it. *)
Lemma parseFields_front ws n C l il col f tail e d err r' :
  (length ws < n)%nat -> blanks ws = true ->
  readRune (mkReader C l il (col + Z.of_nat (length ws)) [] tail e) = (d, err, r') ->
  err <> None \/ d = LF \/ IsSpace d = false ->
  (let '(c0, e0, r0) := readRune (set_field [] (mkReader C l il col f (ws ++ tail) e)) in
   parseFields_skip n c0 e0 r0) = Some (d, err, r').
Proof.
  intros Hn Hws Hr Hd. destruct ws as [|c ws].
  - simpl. unfold set_field. simpl. rewrite Z.add_0_r in Hr. rewrite Hr.
    destruct err as [e'|]; [by rewrite parseFields_skip_err|].
    destruct n; [simpl in Hn; lia|]. simpl.
    destruct Hd as [?|[->|Hd]]; [done|done|]. rewrite Hd. by rewrite andb_false_r.
  - apply blanks_cons in Hws as [Hc Hws]. unfold set_field. simpl.
    rewrite readRune_hspace by done.
    apply parseFields_skip_blanks; try done.
    + simpl in Hn. lia.
    + rewrite <- Hr. do 2 f_equal. simpl length. lia.
Qed.

Lemma parseFields_unfold r0 :
  parseFields r0 =
  match (let '(c0, e0, ra) := readRune (set_field [] r0) in
         parseFields_skip (S (length (src r0))) c0 e0 ra) with
  | None => None
  | Some (r1, err, r) =>
    if is_EOF err && negb (column r =? 0) then Some (true, 0, err, r)
    else if negb (is_nil err) then Some (false, 0, err, r)
    else if r1 =? LF then Some (false, r1, None, r)
    else if r1 =? TAB then Some (false, r1, None, r)
    else if r1 =? SPACE then Some (false, r1, None, r)
    else if r1 =? LBRACE then Some (false, r1, None, r)
    else if r1 =? RBRACE then Some (true, r1, None, r)
    else
      match parseFields_accum (S (length (src r0))) r1 r with
      | None => None
      | Some (r1, err, r) =>
        if negb (is_nil err) then
          if is_EOF err then Some (true, 0, err, r) else Some (false, 0, err, r)
        else Some (true, r1, None, r)
      end
  end.
Proof.
  unfold parseFields. destruct r0 as [C l il col f s e]. unfold set_field. simpl src.
  by destruct (readRune _) as [[? ?] ?].
Qed.

(** The runes of a field are accumulated up to the rune that ends it. *)
Lemma parseFields_accum_word w : forall n c C l il col f tail e d err r',
  (length w < n)%nat -> IsSpace c = false ->
  forallb (fun c => negb (IsSpace c)) w = true -> brace_ok (col + 1) w = true ->
  readRune (mkReader C l il (col + Z.of_nat (length w)) (f ++ c :: w) tail e)
  = (d, err, r') ->
  err <> None \/ IsSpace d = true \/ (d = LBRACE /\ column r' <= DEF_ALIGN) ->
  parseFields_accum n c (mkReader C l il col f (w ++ tail) e) = Some (d, err, r').
Proof.
  induction w as [|c' w IH]; intros n c C l il col f tail e d err r' Hn Hc Hw Hb Hr Hd;
    (destruct n as [|n]; [simpl in Hn; lia|]); simpl; rewrite Hc; simpl;
    unfold WriteRune, set_field; simpl.
  - rewrite Z.add_0_r in Hr. rewrite Hr.
    destruct err as [e'|]; [done|]. simpl.
    destruct Hd as [?|[Hd|[-> Hd]]]; [done| |].
    + rewrite (space_not d LBRACE) by done. by rewrite Hd.
    + simpl. destruct (column r' >? DEF_ALIGN) eqn:Hgt; [lia|done].
  - simpl in Hw. apply andb_prop in Hw as [Hc' Hw]. apply negb_true_iff in Hc'.
    simpl in Hb. apply andb_prop in Hb as [Hb1 Hb].
    rewrite readRune_nonspace by done. simpl.
    assert (parseFields_accum n c' (mkReader C l il (col + 1) (f ++ [c]) (w ++ tail) e)
            = Some (d, err, r')) as Hrec.
    { apply IH; try done.
      - simpl in Hn. lia.
      - rewrite <- Hr. rewrite <- app_assoc. do 2 f_equal. simpl length. lia. }
    destruct (c' =? LBRACE) eqn:Hbr.
    + simpl in Hb1. destruct (col + 1 >? DEF_ALIGN) eqn:Hgt; [done|lia].
    + by rewrite Hc'.
Qed.

(** [parseFields] on a field: the white space in front, the field, and the
    rune that ends it, which is white space or a block-open rune within
    the first [DEF_ALIGN] columns. *)
Lemma parseFields_word ws w C l il col f tail e d r' :
  blanks ws = true -> wordb w = true ->
  brace_ok (col + 1 + Z.of_nat (length ws)) w = true ->
  readRune (mkReader C l il (col + Z.of_nat (length ws) + Z.of_nat (length w)) w tail e)
  = (d, None, r') ->
  IsSpace d = true \/ (d = LBRACE /\ column r' <= DEF_ALIGN) ->
  parseFields (mkReader C l il col f (ws ++ w ++ tail) e) = Some (true, d, None, r').
Proof.
  intros Hws Hw Hb Hr Hd. rewrite parseFields_unfold.
  destruct w as [|c w]; [done|]. unfold wordb in Hw.
  apply andb_prop in Hw as [Hc Hw]. apply andb_prop in Hc as [Hc1 Hc2].
  apply negb_true_iff in Hc1, Hc2. simpl in Hw.
  apply andb_prop in Hw as [Hc Hw]. apply negb_true_iff in Hc.
  simpl in Hb. apply andb_prop in Hb as [_ Hb].
  rewrite (parseFields_front ws _ C l il col f ((c :: w) ++ tail) e c None
             (mkReader C l il (col + Z.of_nat (length ws) + 1) [] (w ++ tail) e)).
  - cbn [is_EOF andb is_nil negb].
    rewrite (nonspace_not c LF), (nonspace_not c TAB), (nonspace_not c SPACE), Hc1, Hc2
      by done.
    rewrite (parseFields_accum_word w _ c C l il _ [] tail e d None r'); try done.
    + simpl. rewrite !length_app. simpl. rewrite length_app. lia.
    + rewrite <- Hb. f_equal. lia.
    + rewrite <- Hr. do 2 f_equal. simpl length. lia.
    + right. done.
  - simpl. rewrite !length_app. simpl. lia.
  - done.
  - simpl. by rewrite readRune_nonspace.
  - by right; right.
Qed.

(** [parseFields] on a newline or a brace after white space. *)
Lemma parseFields_delim ws C l il col f tail e d r' :
  blanks ws = true ->
  readRune (mkReader C l il (col + Z.of_nat (length ws)) [] tail e) = (d, None, r') ->
  d = LF \/ d = LBRACE \/ d = RBRACE ->
  parseFields (mkReader C l il col f (ws ++ tail) e) = Some (d =? RBRACE, d, None, r').
Proof.
  intros Hws Hr Hd. rewrite parseFields_unfold.
  rewrite (parseFields_front ws _ C l il col f tail e d None r'); try done.
  - cbn [is_EOF andb is_nil negb]. by destruct Hd as [->|[->| ->]].
  - simpl. rewrite length_app. lia.
  - right. destruct Hd as [->|[->| ->]]; [by left|by right|by right].
Qed.

(** ** The line assembler on well-formed lines *)

Lemma parseLine_start C l il col f c s e :
  negb (C =? 0) && (c =? C) = false ->
  parseLine (mkReader C l il col f (c :: s) e)
  = parseLine_loop (S (length (c :: s))) (mkReader C (l + 1) il (-1) f (c :: s) e) [].
Proof. intros Hc. unfold parseLine, ReadRune. simpl. by rewrite Hc. Qed.

Lemma parseLine_comment C l il col f s e :
  negb (C =? 0) = true ->
  parseLine (mkReader C l il col f (C :: s) e)
  = match skip (mkReader C (l + 1) il (-1) f s e) LF with
    | None => None
    | Some (err, rb) => Some ([], IO_OBJ_OUT, err, rb)
    end.
Proof. intros Hc. unfold parseLine, ReadRune. simpl. by rewrite Hc, Z.eqb_refl. Qed.

Lemma parseLine_loop_S n r fields :
  parseLine_loop (S n) r fields =
  match parseFields r with
  | None => None
  | Some (haveField, delim, err, r) =>
    let fields := if haveField then fields ++ [field r] else fields in
    if delim =? LBRACE then Some (fields, IO_OBJ_BEGIN, err, r)
    else if delim =? RBRACE then Some (fields, IO_OBJ_END, err, r)
    else if delim =? LF then Some (fields, IO_OBJ_IN, err, r)
    else if is_EOF err then Some (fields, IO_OBJ_OUT, err, r)
    else if negb (is_nil err) then Some ([], IO_OBJ_OUT, err, r)
    else parseLine_loop n r fields
  end.
Proof. reflexivity. Qed.

(** The end of a line, after the last field and its white space. *)
Lemma parseLine_loop_eol n ws C l il col f ending rest e fields :
  blanks ws = true ->
  exists r',
    parseLine_loop (S n) (mkReader C l il col f (ws ++ eol ending ++ rest) e) fields
    = Some (fields, IO_OBJ_IN, None, r') /\ stands C l e rest r'.
Proof.
  intros Hws.
  destruct (readRune_eol C l il (col + Z.of_nat (length ws)) [] ending rest e) as [il' Hr].
  eexists. rewrite parseLine_loop_S.
  by rewrite (parseFields_delim ws C l il col f _ e LF _ Hws Hr) by by left.
Qed.

(** The fields of a line, from some field on. *)
Lemma parseLine_loop_fields more : forall w ws fields n C l il col f trail ending rest e,
  blanks ws = true -> wordb w = true -> forallb sepfield_wf more = true ->
  blanks trail = true ->
  brace_ok (col + 1 + Z.of_nat (length ws)) (w ++ sep_fields more) = true ->
  (length more + 1 < n)%nat ->
  exists r',
    parseLine_loop n
      (mkReader C l il col f
         (ws ++ w ++ sep_fields more ++ trail ++ eol ending ++ rest) e) fields
    = Some (fields ++ w :: map snd more, IO_OBJ_IN, None, r')
    /\ stands C l e rest r'.
Proof.
  induction more as [|[s w'] more IH];
    intros w ws fields n C l il col f trail ending rest e Hws Hw Hmore Htrail Hb Hn.
  - destruct n as [|n]; [simpl in Hn; lia|]. rewrite app_nil_r in Hb.
    unfold sep_fields. cbn [map List.concat app].
    destruct trail as [|d trail].
    + cbn [app].
      destruct (readRune_eol C l il
                  (col + Z.of_nat (length ws) + Z.of_nat (length w)) w ending rest e)
        as [il' Hr].
      eexists. rewrite parseLine_loop_S.
      rewrite (parseFields_word ws w C l il col f _ e LF _ Hws Hw Hb Hr) by by left.
      done.
    + apply blanks_cons in Htrail as [Hd Htrail].
      destruct (hspace_nonbrace _ Hd) as [Hd1 Hd2].
      rewrite parseLine_loop_S. cbn [app].
      rewrite (parseFields_word ws w C l il col f _ e d _ Hws Hw Hb
                 (readRune_hspace _ _ _ _ _ _ _ _ Hd))
        by (left; by apply hspace_IsSpace).
      cbv zeta. rewrite Hd1, Hd2, (hspace_not_LF _ Hd). cbn [is_EOF is_nil negb field].
      destruct n as [|n]; [simpl in Hn; lia|].
      by apply parseLine_loop_eol.
  - simpl in Hmore. apply andb_prop in Hmore as [Hsw Hmore].
    unfold sepfield_wf in Hsw. simpl in Hsw.
    apply andb_prop in Hsw as [Hsw Hw']. apply andb_prop in Hsw as [Hs1 Hs].
    destruct s as [|d s]; [done|]. apply blanks_cons in Hs as [Hd Hs].
    destruct (hspace_nonbrace _ Hd) as [Hd1 Hd2].
    destruct n as [|n]; [simpl in Hn; lia|].
    unfold sep_fields in *. cbn [map List.concat app fst snd] in *.
    rewrite <- !app_assoc. cbn [app].
    rewrite brace_ok_app in Hb. apply andb_prop in Hb as [Hbw Hb].
    simpl in Hb. apply andb_prop in Hb as [_ Hb].
    rewrite <- app_assoc in Hb. rewrite brace_ok_app in Hb. apply andb_prop in Hb as [_ Hb].
    rewrite parseLine_loop_S.
    rewrite (parseFields_word ws w C l il col f _ e d _ Hws Hw Hbw
               (readRune_hspace _ _ _ _ _ _ _ _ Hd))
      by (left; by apply hspace_IsSpace).
    cbv zeta. rewrite Hd1, Hd2, (hspace_not_LF _ Hd). cbn [is_EOF is_nil negb field].
    destruct (IH w' s (fields ++ [w]) n C l il
                (col + Z.of_nat (length ws) + Z.of_nat (length w) + 1) w
                trail ending rest e) as (r' & Hr' & Hst); try done.
    + rewrite <- Hb. f_equal. lia.
    + simpl in Hn. lia.
    + exists r'. split; [|done]. rewrite Hr'. by rewrite <- app_assoc.
Qed.

Lemma sep_fields_length more :
  forallb sepfield_wf more = true -> (length more <= length (sep_fields more))%nat.
Proof.
  induction more as [|[s w] more IH]; intros Hm; [done|].
  simpl in Hm. apply andb_prop in Hm as [Hsw Hm]. unfold sepfield_wf in Hsw.
  apply andb_prop in Hsw as [Hsw _]. apply andb_prop in Hsw as [Hs _]. simpl in Hs.
  unfold sep_fields in *. simpl. rewrite !length_app. specialize (IH Hm).
  destruct s; [done|]. simpl. lia.
Qed.

Lemma not_comment_hspace c : hspace c = true -> negb (HASH =? 0) && (c =? HASH) = false.
Proof. intros Hc. apply hspace_IsSpace in Hc. by rewrite (space_not c HASH). Qed.

Lemma not_comment_eol ending rest :
  exists c s, eol ending ++ rest = c :: s /\ negb (HASH =? 0) && (c =? HASH) = false.
Proof. destruct ending; by eexists _, _. Qed.

(** A property line gives its fields. *)
Lemma parseLine_PropLine pl l il col f rest e :
  PropLine_wf pl = true ->
  exists r',
    parseLine (mkReader HASH l il col f (PropLine_text pl ++ rest) e)
    = Some (pl_key pl :: map snd (pl_vals pl), IO_OBJ_IN, None, r')
    /\ stands HASH (l + 1) e rest r'.
Proof.
  unfold PropLine_wf, PropLine_text. destruct pl as [ind key vals trail ending]. simpl.
  intros Hwf. apply andb_prop in Hwf as [Hwf Hbr]. apply andb_prop in Hwf as [Hwf Htrail].
  apply andb_prop in Hwf as [Hwf Hvals]. apply andb_prop in Hwf as [Hwf Hne].
  apply andb_prop in Hwf as [Hwf Hhash]. apply andb_prop in Hwf as [Hind Hkey].
  rewrite <- !app_assoc.
  remember (ind ++ key ++ sep_fields vals ++ trail ++ eol ending ++ rest) as txt eqn:Htxt.
  assert (exists c s, txt = c :: s /\ negb (HASH =? 0) && (c =? HASH) = false)
    as (c & s & Hcs & Hc).
  { destruct ind as [|c ind].
    - destruct key as [|c key]; [done|].
      exists c, (key ++ sep_fields vals ++ trail ++ eol ending ++ rest).
      split; [by subst txt|]. simpl in *.
      destruct (c =? HASH) eqn:Hh; [|done]. apply Z.eqb_eq in Hh. subst c.
      by rewrite bool_decide_eq_true_2 in Hhash.
    - exists c, (ind ++ key ++ sep_fields vals ++ trail ++ eol ending ++ rest).
      split; [by subst txt|]. apply not_comment_hspace.
      by apply blanks_cons in Hind as [? _]. }
  rewrite Hcs, parseLine_start by done. rewrite <- Hcs.
  assert (length vals + 1 < S (length txt))%nat as Hn.
  { subst txt. rewrite !length_app.
    assert (length vals <= length (sep_fields vals))%nat by by apply sep_fields_length.
    destruct key; [done|]. destruct ending; simpl; lia. }
  subst txt.
  destruct (parseLine_loop_fields vals key ind [] (S (length
              (ind ++ key ++ sep_fields vals ++ trail ++ eol ending ++ rest)))
              HASH (l + 1) il (-1) f trail ending rest e) as (r' & Hr' & Hst); try done.
  - rewrite brace_ok_app in Hbr. apply andb_prop in Hbr as [_ Hbr].
    rewrite <- Hbr; f_equal; lia.
  - by exists r'.
Qed.

(** A blank line gives no field. *)
Lemma parseLine_blank ws ending l il col f rest e :
  blanks ws = true ->
  exists r',
    parseLine (mkReader HASH l il col f ((ws ++ eol ending) ++ rest) e)
    = Some ([], IO_OBJ_IN, None, r')
    /\ stands HASH (l + 1) e rest r'.
Proof.
  intros Hws. rewrite <- app_assoc.
  assert (exists c s, ws ++ eol ending ++ rest = c :: s
                      /\ negb (HASH =? 0) && (c =? HASH) = false) as (c & s & Hcs & Hc).
  { destruct ws as [|c ws]; [apply not_comment_eol|].
    eexists _, _. split; [done|]. apply not_comment_hspace.
    by apply blanks_cons in Hws as [? _]. }
  rewrite Hcs, parseLine_start by done. rewrite <- Hcs.
  by apply parseLine_loop_eol.
Qed.

Lemma skip_loop_S n r delim :
  skip_loop (S n) r delim =
  let '(r1, err, r') := readRune r in
  if negb (is_nil err) then Some (err, r')
  else if r1 =? delim then Some (None, r')
  else skip_loop n r' delim.
Proof. reflexivity. Qed.

(** [skip] on the rest of a comment line. *)
Lemma skip_loop_comment body : forall n C l il col f ending rest e,
  no_LF body = true -> (length body < n)%nat ->
  exists r',
    skip_loop n (mkReader C l il col f (body ++ eol ending ++ rest) e) LF = Some (None, r')
    /\ stands C l e rest r'.
Proof.
  induction body as [|c body IH]; intros n C l il col f ending rest e Hb Hn;
    (destruct n as [|n]; [simpl in Hn; lia|]).
  - destruct (readRune_eol C l il col f ending rest e) as [il' Hr].
    eexists. rewrite skip_loop_S. cbn [app]. rewrite Hr. cbn [is_nil negb]. done.
  - simpl in Hb. apply andb_prop in Hb as [Hc Hb]. apply negb_true_iff in Hc.
    assert (length body < n)%nat as Hn' by (simpl in Hn; lia).
    destruct (c =? CR) eqn:Hcr.
    + apply Z.eqb_eq in Hcr. subst c. destruct body as [|c' body].
      * destruct ending.
        -- eexists. simpl. done.
        -- rewrite skip_loop_S. cbn [app eol]. rewrite readRune_CR by done.
           cbn [is_nil negb]. change (CR =? LF) with false. cbv iota.
           apply (IH n C l il (col + 1) f EolCRLF rest e); done.
      * simpl in Hb. apply andb_prop in Hb as [Hc' Hb']. apply negb_true_iff in Hc'.
        rewrite skip_loop_S. cbn [app]. rewrite readRune_CR by done.
        cbn [is_nil negb]. change (CR =? LF) with false. cbv iota.
        apply (IH n C l il (col + 1) f ending rest e); [|done].
        simpl. by rewrite Hc', Hb'.
    + rewrite skip_loop_S. cbn [app]. rewrite readRune_plain by done.
      cbn [is_nil negb]. rewrite Hc. by apply IH.
Qed.

(** A comment line gives no field and no error. *)
Lemma parseLine_commentline body ending l il col f rest e :
  no_LF body = true ->
  exists r',
    parseLine (mkReader HASH l il col f ((HASH :: body ++ eol ending) ++ rest) e)
    = Some ([], IO_OBJ_OUT, None, r')
    /\ stands HASH (l + 1) e rest r'.
Proof.
  intros Hb. cbn [app]. rewrite <- app_assoc. rewrite parseLine_comment by done.
  unfold skip.
  destruct (skip_loop_comment body (S (length (body ++ eol ending ++ rest)))
              HASH (l + 1) il (-1) f ending rest e) as (r' & Hr' & Hst); [done| |].
  - rewrite length_app. lia.
  - exists r'. simpl src. by rewrite Hr'.
Qed.

(** A filler line is passed without a field and without an error. *)
Lemma parseLine_Filler fl l il col f rest e :
  Filler_wf fl = true ->
  exists st r',
    parseLine (mkReader HASH l il col f (Filler_text fl ++ rest) e)
    = Some ([], st, None, r')
    /\ stands HASH (l + 1) e rest r'.
Proof.
  destruct fl as [ws ending|body ending]; simpl; intros Hwf.
  - destruct (parseLine_blank ws ending l il col f rest e Hwf) as (r' & ? & ?). by eexists _, r'.
  - destruct (parseLine_commentline body ending l il col f rest e Hwf) as (r' & ? & ?).
    by eexists _, r'.
Qed.

(** The line that closes a block. *)
Lemma parseLine_close ws l il col f rest e :
  blanks ws = true ->
  exists r',
    parseLine (mkReader HASH l il col f (ws ++ RBRACE :: rest) e)
    = Some ([[]], IO_OBJ_END, None, r')
    /\ stands HASH (l + 1) e rest r'.
Proof.
  intros Hws.
  assert (exists c s, ws ++ RBRACE :: rest = c :: s
                      /\ negb (HASH =? 0) && (c =? HASH) = false) as (c & s & Hcs & Hc).
  { destruct ws as [|c ws]; [by eexists _, _|].
    eexists _, _. split; [done|]. apply not_comment_hspace.
    by apply blanks_cons in Hws as [? _]. }
  rewrite Hcs, parseLine_start by done. rewrite <- Hcs.
  eexists. rewrite parseLine_loop_S.
  rewrite (parseFields_delim ws HASH (l + 1) il (-1) f (RBRACE :: rest) e RBRACE _ Hws)
    by (try apply readRune_nonspace; auto).
  done.
Qed.

(** The header of a block: the fields are ["define"] and the name of the
    type, and the reader stops on the block-open rune. *)
Lemma parseLine_Header h l il col f rest e :
  Header_wf h = true ->
  exists r',
    parseLine (mkReader HASH l il col f (Header_text h ++ rest) e)
    = Some ([runes "define"; h_type h], IO_OBJ_BEGIN, None, r')
    /\ stands HASH (l + 1) e rest r'
    /\ column r' = Z.of_nat (length (Header_text h)) - 1.
Proof.
  unfold Header_wf, Header_text. destruct h as [ind sep ty gap].
  cbn [h_indent h_sep h_type h_gap].
  intros Hwf. apply andb_prop in Hwf as [Hwf Hcol]. apply andb_prop in Hwf as [Hwf Hgap].
  apply andb_prop in Hwf as [Hwf Hnb]. apply andb_prop in Hwf as [Hwf Hty].
  apply andb_prop in Hwf as [Hwf Hsep]. apply andb_prop in Hwf as [Hind Hsep1].
  destruct sep as [|d sep]; [done|]. apply blanks_cons in Hsep as [Hd Hsep].
  destruct (hspace_nonbrace _ Hd) as [Hd1 Hd2].
  set (def := runes "define") in *.
  assert (length def = 6%nat) as Hdef by reflexivity.
  rewrite <- !app_assoc. cbn [app].
  remember (ind ++ def ++ d :: sep ++ ty ++ gap ++ LBRACE :: rest) as txt eqn:Htxt.
  assert (exists c s, txt = c :: s /\ negb (HASH =? 0) && (c =? HASH) = false)
    as (c & s & Hcs & Hc).
  { destruct ind as [|c ind].
    - eexists _, _. by subst txt.
    - eexists _, _. split; [by subst txt|]. apply not_comment_hspace.
      by apply blanks_cons in Hind as [? _]. }
  rewrite Hcs, parseLine_start by done. rewrite <- Hcs.
  assert (3 <= length txt)%nat as Hlen.
  { subst txt. rewrite !length_app. simpl. rewrite !length_app. simpl. lia. }
  destruct (length txt) as [|[|[|n]]] eqn:Hn; [lia|lia|lia|]. subst txt.
  rewrite parseLine_loop_S.
  rewrite (parseFields_word ind def HASH (l + 1) il (-1) f _ e d _ Hind eq_refl
             (brace_ok_nobrace _ def eq_refl) (readRune_hspace _ _ _ _ _ _ _ _ Hd))
    by (left; by apply hspace_IsSpace).
  cbv zeta. rewrite Hd1, Hd2, (hspace_not_LF _ Hd). cbn [is_EOF is_nil negb field app].
  rewrite parseLine_loop_S.
  destruct gap as [|g gap].
  - cbn [app].
    rewrite (parseFields_word sep ty HASH (l + 1) il _ def (LBRACE :: rest) e LBRACE _ Hsep Hty
               (brace_ok_nobrace _ ty Hnb) (readRune_nonspace _ _ _ _ _ LBRACE _ _ eq_refl)).
    + cbv zeta. cbn [field]. eexists. split; [done|]. split; [done|]. cbn [column].
      repeat (rewrite ?length_app; cbn [length]). rewrite ?Hdef. lia.
    + right. split; [done|]. cbn [column]. simpl in Hcol.
      apply Z.leb_le in Hcol. repeat (rewrite ?length_app in Hcol; cbn [length] in Hcol).
      rewrite ?Hdef in Hcol. lia.
  - apply blanks_cons in Hgap as [Hg Hgap]. destruct (hspace_nonbrace _ Hg) as [Hg1 Hg2].
    cbn [app].
    rewrite (parseFields_word sep ty HASH (l + 1) il _ def _ e g _ Hsep Hty
               (brace_ok_nobrace _ ty Hnb) (readRune_hspace _ _ _ _ _ _ _ _ Hg))
      by (left; by apply hspace_IsSpace).
    cbv zeta. rewrite Hg1, Hg2, (hspace_not_LF _ Hg). cbn [is_EOF is_nil negb field].
    rewrite parseLine_loop_S.
    rewrite (parseFields_delim gap HASH (l + 1) il _ ty (LBRACE :: rest) e LBRACE _ Hgap
               (readRune_nonspace _ _ _ _ _ LBRACE _ _ eq_refl)) by auto.
    cbv zeta. eexists. split; [done|]. split; [done|]. cbn [column].
    repeat (rewrite ?length_app; cbn [length]). rewrite ?Hdef. lia.
Qed.

(** The end of the input. *)
Lemma parseLine_end C l il col f e :
  parseLine (mkReader C l il col f [] e)
  = Some ([], IO_OBJ_OUT, Some e, mkReader C (l + 1) il (-1) f [] e).
Proof. reflexivity. Qed.

End ScannerOnText.

(** ** The object builder on well-formed text *)

Section ReadOnText.
Context `{Nagioscfg}.

Lemma Reader_eta r C s :
  Comment r = C -> src r = s ->
  r = mkReader C (line r) (inputline r) (column r) (field r) s (srcerr r).
Proof. destruct r. simpl. by intros -> ->. Qed.

(** More fuel does not change a result. *)
Lemma Read_loop_mono n : forall m setUUID fileID w r co prev out,
  (n <= m)%nat ->
  Read_loop n setUUID fileID w r co prev = Some out ->
  Read_loop m setUUID fileID w r co prev = Some out.
Proof.
  induction n as [|n IH]; intros m setUUID fileID w r co prev out Hm; [done|].
  destruct m as [|m]; [lia|]. rewrite !Read_loop_S.
  destruct (parseLine r) as [[[[fields st] err] r1]|]; [|done].
  assert (n <= m)%nat as Hnm by lia.
  assert (forall w1 co1 prev1,
    (if negb (is_nil err) then Some (Return (None, err), w1, r1)
     else Read_loop n setUUID fileID w1 r1 co1 prev1) = Some out ->
    (if negb (is_nil err) then Some (Return (None, err), w1, r1)
     else Read_loop m setUUID fileID w1 r1 co1 prev1) = Some out) as Hnext.
  { intros w1 co1 prev1. destruct err; cbn [is_nil negb]; [done|]. by apply IH. }
  destruct fields as [|f0 fields]; [by apply Hnext|]. cbv zeta.
  destruct st; [done| | |done].
  - destruct (negb (IoState_eqb prev IO_OBJ_OUT)); [by apply IH|].
    destruct ((f0 :: fields) !! 1%nat) as [name|]; [|done].
    destruct (decide (CfgName_Type name = T_INVALID)); [done|].
    destruct (Read_alloc setUUID fileID (CfgName_Type name) w) as [o w1].
    by apply Hnext.
  - destruct co as [o|]; [|by apply IH].
    destruct (length (f0 :: fields) <? 2)%nat; [by apply IH|by apply Hnext].
Qed.

Lemma Read_loop_Read n setUUID fileID w r out :
  Read_loop n setUUID fileID w r None IO_OBJ_OUT = Some out ->
  Read setUUID fileID w r = Some out.
Proof.
  intros Hn. destruct (Read_total setUUID fileID w r) as (out' & Hout' & _).
  unfold Read in *. destruct (Nat.le_ge_cases n (S (length (src r)))) as [Hle|Hle].
  - by apply (Read_loop_mono n).
  - rewrite (Read_loop_mono _ n _ _ _ _ _ _ _ Hle Hout') in Hn. congruence.
Qed.

(** A blank line or a comment line changes nothing. *)
Lemma Read_loop_Filler fl n setUUID fileID w r co prev rest :
  Filler_wf fl = true -> Comment r = HASH -> src r = Filler_text fl ++ rest ->
  exists r',
    Read_loop (S n) setUUID fileID w r co prev = Read_loop n setUUID fileID w r' co prev
    /\ stands HASH (line r + 1) (srcerr r) rest r'.
Proof.
  intros Hwf HC Hs. rewrite (Reader_eta r _ _ HC Hs), Read_loop_S.
  destruct (parseLine_Filler fl (line r) (inputline r) (column r) (field r) rest (srcerr r) Hwf)
    as (st & r' & -> & Hst).
  by exists r'.
Qed.

Lemma Read_loop_Fillers fls : forall n setUUID fileID w r co prev rest,
  forallb Filler_wf fls = true -> Comment r = HASH ->
  src r = List.concat (map Filler_text fls) ++ rest ->
  exists r',
    Read_loop (length fls + n) setUUID fileID w r co prev
    = Read_loop n setUUID fileID w r' co prev
    /\ stands HASH (line r + Z.of_nat (length fls)) (srcerr r) rest r'.
Proof.
  induction fls as [|fl fls IH]; intros n setUUID fileID w r co prev rest Hwf HC Hs.
  - exists r. split; [done|]. simpl. rewrite Z.add_0_r. done.
  - simpl in Hwf. apply andb_prop in Hwf as [Hfl Hwf]. simpl in Hs.
    rewrite <- app_assoc in Hs.
    destruct (Read_loop_Filler fl (length fls + n) setUUID fileID w r co prev _ Hfl HC Hs)
      as (r1 & Hr1 & HC1 & Hl1 & He1 & Hs1).
    destruct (IH n setUUID fileID w r1 co prev rest Hwf HC1 Hs1) as (r' & Hr' & Hst).
    exists r'. split.
    + simpl length. rewrite <- Hr'. exact Hr1.
    + rewrite Hl1, He1 in Hst. replace (line r + Z.of_nat (length (fl :: fls)))
        with (line r + 1 + Z.of_nat (length fls)) by (simpl length; lia). done.
Qed.

(** A property line adds its property to the object under construction. *)
Lemma Read_loop_PropLine pl n setUUID fileID w r o prev rest :
  PropLine_wf pl = true -> Comment r = HASH -> src r = PropLine_text pl ++ rest ->
  exists r',
    Read_loop (S n) setUUID fileID w r (Some o) prev
    = Read_loop n setUUID fileID w r'
        (Some (CfgObj_Add (PropLine_key pl) (PropLine_value pl) o).1) prev
    /\ stands HASH (line r + 1) (srcerr r) rest r'.
Proof.
  intros Hwf HC Hs. rewrite (Reader_eta r _ _ HC Hs), Read_loop_S.
  destruct (parseLine_PropLine pl (line r) (inputline r) (column r) (field r) rest (srcerr r) Hwf)
    as (r' & -> & Hst).
  exists r'. split; [|done].
  unfold PropLine_wf in Hwf. do 3 (apply andb_prop in Hwf as [Hwf _]).
  apply andb_prop in Hwf as [_ Hne]. destruct (pl_vals pl) as [|sw vals] eqn:Hv; [done|].
  unfold PropLine_key, PropLine_value. rewrite Hv. done.
Qed.

Lemma Read_loop_Body body : forall n setUUID fileID w r o prev rest,
  forallb BodyLine_wf body = true -> Comment r = HASH ->
  src r = List.concat (map BodyLine_text body) ++ rest ->
  exists r',
    Read_loop (length body + n) setUUID fileID w r (Some o) prev
    = Read_loop n setUUID fileID w r' (Some (add_props (Body_props body) o)) prev
    /\ stands HASH (line r + Z.of_nat (length body)) (srcerr r) rest r'.
Proof.
  induction body as [|bl body IH]; intros n setUUID fileID w r o prev rest Hwf HC Hs.
  - exists r. split; [done|]. simpl. rewrite Z.add_0_r. done.
  - simpl in Hwf. apply andb_prop in Hwf as [Hbl Hwf]. simpl in Hs.
    rewrite <- app_assoc in Hs.
    replace (line r + Z.of_nat (length (bl :: body)))
      with (line r + 1 + Z.of_nat (length body)) by (simpl length; lia).
    destruct bl as [fl|pl]; simpl in Hbl, Hs.
    + destruct (Read_loop_Filler fl (length body + n) setUUID fileID w r (Some o) prev _
                  Hbl HC Hs) as (r1 & Hr1 & HC1 & Hl1 & He1 & Hs1).
      destruct (IH n setUUID fileID w r1 o prev rest Hwf HC1 Hs1) as (r' & Hr' & Hst).
      exists r'. split.
      * simpl length. simpl Body_props. rewrite <- Hr'. exact Hr1.
      * by rewrite Hl1, He1 in Hst.
    + destruct (Read_loop_PropLine pl (length body + n) setUUID fileID w r o prev _
                  Hbl HC Hs) as (r1 & Hr1 & HC1 & Hl1 & He1 & Hs1).
      destruct (IH n setUUID fileID w r1
                  (CfgObj_Add (PropLine_key pl) (PropLine_value pl) o).1
                  prev rest Hwf HC1 Hs1) as (r' & Hr' & Hst).
      exists r'. split.
      * simpl length. simpl Body_props. unfold add_props in *. simpl foldl.
        rewrite <- Hr'. exact Hr1.
      * by rewrite Hl1, He1 in Hst.
Qed.

(** The header of a block with a valid type allocates the object. *)
Lemma Read_loop_Header h n setUUID fileID w r co rest :
  Header_wf h = true -> CfgName_Type (h_type h) <> T_INVALID ->
  Comment r = HASH -> src r = Header_text h ++ rest ->
  exists r',
    Read_loop (S n) setUUID fileID w r co IO_OBJ_OUT
    = Read_loop n setUUID fileID (Read_alloc setUUID fileID (CfgName_Type (h_type h)) w).2 r'
        (Some (Read_alloc setUUID fileID (CfgName_Type (h_type h)) w).1) IO_OBJ_BEGIN
    /\ stands HASH (line r + 1) (srcerr r) rest r'.
Proof.
  intros Hwf Hty HC Hs. rewrite (Reader_eta r _ _ HC Hs), Read_loop_S.
  destruct (parseLine_Header h (line r) (inputline r) (column r) (field r) rest (srcerr r) Hwf)
    as (r' & -> & Hst & _).
  exists r'. split; [|done]. cbn [lookup list_lookup IoState_eqb negb is_nil].
  simpl. destruct (decide _) as [|_]; [done|].
  by destruct (Read_alloc _ _ _ _).
Qed.

(** The header of a block with an invalid type is an error at the position
    of the block-open rune. *)
Lemma Read_loop_Header_invalid h n setUUID fileID w r co rest :
  Header_wf h = true -> CfgName_Type (h_type h) = T_INVALID ->
  Comment r = HASH -> src r = Header_text h ++ rest ->
  exists r',
    Read_loop (S n) setUUID fileID w r co IO_OBJ_OUT
    = Some (Return (None, Some (ParseError (line r + 1)
                                  (Z.of_nat (length (Header_text h)) - 1) ErrUnknown)),
            w, r')
    /\ stands HASH (line r + 1) (srcerr r) rest r'.
Proof.
  intros Hwf Hty HC Hs. rewrite (Reader_eta r _ _ HC Hs), Read_loop_S.
  destruct (parseLine_Header h (line r) (inputline r) (column r) (field r) rest (srcerr r) Hwf)
    as (r' & -> & Hst & Hcol).
  exists r'. split; [|done]. simpl.
  destruct (decide _) as [_|]; [|done].
  unfold Reader_error. rewrite Hcol. by destruct Hst as (_ & -> & _).
Qed.

(** The line that closes the block returns the object. *)
Lemma Read_loop_close ws n setUUID fileID w r co prev rest :
  blanks ws = true -> Comment r = HASH -> src r = ws ++ RBRACE :: rest ->
  exists r',
    Read_loop (S n) setUUID fileID w r co prev = Some (Return (co, None), w, r')
    /\ stands HASH (line r + 1) (srcerr r) rest r'.
Proof.
  intros Hwf HC Hs. rewrite (Reader_eta r _ _ HC Hs), Read_loop_S.
  destruct (parseLine_close ws (line r) (inputline r) (column r) (field r) rest (srcerr r) Hwf)
    as (r' & -> & Hst).
  by exists r'.
Qed.

(** At the end of the input [Read] returns the error of the stream. *)
Lemma Read_loop_end n setUUID fileID w r co prev :
  src r = [] ->
  exists r',
    Read_loop (S n) setUUID fileID w r co prev = Some (Return (None, Some (srcerr r)), w, r').
Proof.
  intros Hs. rewrite (Reader_eta r _ _ eq_refl Hs), Read_loop_S, parseLine_end.
  by eexists.
Qed.

Lemma CfgObj_Add_Type k v o : co_Type (CfgObj_Add k v o).1 = co_Type o.
Proof. unfold CfgObj_Add. by destruct (co_Props o !! k). Qed.

Lemma CfgObj_Add_Props k v o :
  co_Props (CfgObj_Add k v o).1 = co_Props o ∪ {[k := v]}.
Proof.
  unfold CfgObj_Add. destruct (co_Props o !! k) as [v'|] eqn:Hk; simpl.
  - apply map_eq. intros k'. rewrite lookup_union.
    destruct (decide (k = k')) as [<-|Hne].
    + by rewrite Hk, lookup_singleton_eq.
    + rewrite lookup_singleton_ne by done. by destruct (co_Props o !! k').
  - rewrite insert_union_singleton_r by done. done.
Qed.

Lemma add_props_Type kvs o : co_Type (add_props kvs o) = co_Type o.
Proof.
  revert o. induction kvs as [|kv kvs IH]; intros o; [done|].
  unfold add_props in *. simpl. by rewrite IH, CfgObj_Add_Type.
Qed.

(** Adding in order keeps the first value of a key: the properties are
    those that were there, then the pairs added, the earlier ones first. *)
Lemma add_props_Props kvs o :
  co_Props (add_props kvs o) = co_Props o ∪ list_to_map kvs.
Proof.
  revert o. induction kvs as [|[k v] kvs IH]; intros o.
  - simpl. by rewrite (right_id_L ∅ (∪)).
  - unfold add_props in *. simpl. rewrite IH, CfgObj_Add_Props.
    rewrite <- (assoc_L (∪)). f_equal. by rewrite insert_union_singleton_l.
Qed.

Lemma Body_props_elem l body :
  Prop_ l ∈ body -> (PropLine_key l, PropLine_value l) ∈ Body_props body.
Proof.
  induction body as [|bl body IH]; intros Hl; [by apply elem_of_nil in Hl|].
  apply elem_of_cons in Hl as [<-|Hl].
  - simpl. apply elem_of_cons. by left.
  - destruct bl; simpl; [by apply IH|]. apply elem_of_cons. right. by apply IH.
Qed.

End ReadOnText.

(** C1, amended.  For every input that consists of exactly one define
    block in the sense of [Block_wf], with blank lines and comment lines
    around and inside it: the type is valid and the keys are distinct,
    every line after the block is ended by a newline, no field starts with
    a brace, a block-open rune inside a field stands beyond column
    [DEF_ALIGN], and the block-open rune of the header follows white space
    or stands at a column up to [DEF_ALIGN].  Then [Read] returns one
    object whose type is the declared type of the block and whose
    properties send the first field of each property line to the
    remaining fields joined by single spaces; the next call of [Read]
    returns [io.EOF]. *)
Theorem Read_one_block `{Nagioscfg} (b : Block) (setUUID : bool) (fileID : str)
    (w : World) :
  Block_wf b = true ->
  exists o w1 r1 w2 r2,
    Read setUUID fileID w (NewReader (Block_text b)) = Some (Return (Some o, None), w1, r1)
    /\ co_Type o = CfgName_Type (h_type (b_header b))
    /\ co_Type o <> T_INVALID
    /\ co_Props o = list_to_map (Body_props (b_body b))
    /\ (forall l, Prop_ l ∈ b_body b ->
          co_Props o !! PropLine_key l = Some (PropLine_value l))
    /\ Read setUUID fileID w1 r1 = Some (Return (None, Some io_EOF), w2, r2).
Proof.
  intros Hwf. unfold Block_wf in Hwf.
  apply andb_prop in Hwf as [Hwf Hafter]. apply andb_prop in Hwf as [Hwf Hclose].
  apply andb_prop in Hwf as [Hwf Hnodup]. apply andb_prop in Hwf as [Hwf Hbody].
  apply andb_prop in Hwf as [Hwf Hty]. apply andb_prop in Hwf as [Hbefore Hhdr].
  apply negb_true_iff, bool_decide_eq_false in Hty.
  apply bool_decide_eq_true in Hnodup.
  destruct b as [before h body close after]. simpl in *. unfold Block_text. simpl.
  set (ct := CfgName_Type (h_type h)) in *.
  set (o0 := (Read_alloc setUUID fileID ct w).1).
  set (w1 := (Read_alloc setUUID fileID ct w).2).
  destruct (Read_loop_Fillers before (S (length body + 1)) setUUID fileID w
              (NewReader (List.concat (map Filler_text before) ++ Header_text h
                 ++ List.concat (map BodyLine_text body) ++ close ++ [RBRACE]
                 ++ List.concat (map Filler_text after)))
              None IO_OBJ_OUT _ Hbefore eq_refl eq_refl)
    as (ra & Ha & HCa & _ & Hea & Hsa).
  destruct (Read_loop_Header h (length body + 1) setUUID fileID w ra None _ Hhdr Hty HCa Hsa)
    as (rb & Hb & HCb & _ & Heb & Hsb).
  fold ct in Hb. fold o0 in Hb. fold w1 in Hb.
  destruct (Read_loop_Body body 1 setUUID fileID w1 rb o0 IO_OBJ_BEGIN _ Hbody HCb Hsb)
    as (rc & Hc & HCc & _ & Hec & Hsc).
  destruct (Read_loop_close close 0 setUUID fileID w1 rc
              (Some (add_props (Body_props body) o0)) IO_OBJ_BEGIN _ Hclose HCc Hsc)
    as (rd & Hd & HCd & _ & Hed & Hsd).
  rewrite Hc, Hd in Hb. rewrite Hb in Ha. apply Read_loop_Read in Ha.
  destruct (Read_loop_Fillers after 1 setUUID fileID w1 rd None IO_OBJ_OUT []
              Hafter HCd) as (re & He & _ & _ & Hee & Hse).
  { by rewrite app_nil_r. }
  destruct (Read_loop_end 0 setUUID fileID w1 re None IO_OBJ_OUT Hse) as (rf & Hf).
  rewrite Hf in He. apply Read_loop_Read in He.
  assert (srcerr re = io_EOF) as Heof.
  { rewrite Hee, Hed, Hec, Heb, Hea. done. }
  rewrite Heof in He.
  destruct (Read_alloc_ledger _ _ _ _ _ _ (surjective_pairing (Read_alloc setUUID fileID ct w)))
    as (_ & Hty0 & Hpr0 & _).
  fold o0 in Hty0, Hpr0.
  assert (co_Props (add_props (Body_props body) o0) = list_to_map (Body_props body)) as Hprops.
  { rewrite add_props_Props, Hpr0. by rewrite (left_id_L ∅ (∪)). }
  exists (add_props (Body_props body) o0), w1, rd, w1, rf.
  split; [exact Ha|]. rewrite add_props_Type, Hty0.
  split; [done|]. split; [done|]. split; [done|]. split; [|done].
  intros l Hl. rewrite Hprops. apply elem_of_list_to_map_1; [done|].
  by apply Body_props_elem.
Qed.

Section AccumulateFacts.
Context `{Nagioscfg}.


End AccumulateFacts.


(** C6. On CR LF [readRune] returns one newline, but it does not count it:
    the line counter, which is to match the line number of the input, is
    where it was.  A CR that is the last rune of the input is not returned
    either: the end of the input is. *)
Theorem readRune_CRLF_not_counted :
  readRune (NewReader [CR; LF]) = (LF, None, mkReader HASH 0 0 1 [] [] io_EOF)
  /\ inputline (readRune (NewReader [CR; LF])).2 = 0
  /\ inputline (readRune (NewReader [LF])).2 = 1
  /\ readRune (NewReader [CR]) = (0, Some io_EOF, mkReader HASH 0 0 1 [] [] io_EOF).
Proof. repeat split; reflexivity. Qed.

(** C3. A header line with one field only makes [Read] panic: [fields[1]]
    is out of range.  This holds whatever the constants and the types
    are. *)
Theorem Read_panics_on_short_header `{Nagioscfg} (setUUID : bool) (fileID : str)
    (w : World) :
  Read setUUID fileID w (NewReader (runes "define {
}
"))
  = Some (Panic, w, mkReader HASH 1 0 7 [] (runes "
}
") io_EOF).
Proof. vm_compute. reflexivity. Qed.

(** C7. The input ["define bogus{\n}\n"], where [bogus] is not the name of
    a type, makes [Read] return no object and an error positioned at line
    1 (and column 12, the block-open rune). *)
Theorem Read_bogus_type `{Nagioscfg} (setUUID : bool) (fileID : str) (w : World) :
  12 <= DEF_ALIGN -> CfgName_Type (runes "bogus") = T_INVALID ->
  exists r',
    Read setUUID fileID w (NewReader (runes "define bogus{
}
"))
    = Some (Return (None, Some (ParseError 1 12 ErrUnknown)), w, r').
Proof.
  intros Halign Hty.
  assert (Header_wf (mkHeader [] (runes " ") (runes "bogus") []) = true) as Hwf.
  { unfold Header_wf. cbn -[Z.leb DEF_ALIGN]. by apply Z.leb_le. }
  destruct (Read_loop_Header_invalid (mkHeader [] (runes " ") (runes "bogus") [])
              0 setUUID fileID w
              (NewReader (runes "define bogus{
}
")) None (runes "
}
") Hwf Hty eq_refl) as (r' & Hr' & _).
  - vm_compute. reflexivity.
  - exists r'. apply Read_loop_Read in Hr'. exact Hr'.
Qed.

(** C2. Every call of [Read] terminates and, unless it panics, returns a
    non-nil object with a nil error, or a nil object with an error, or a
    nil object with a nil error; it never returns an object together with
    an error.  On a line classified ObjectEnd the loop returns the object
    under construction, which is nil when no object is open. *)
Theorem Read_outcomes `{Nagioscfg} (setUUID : bool) (fileID : str) (w : World)
    (r : Reader) :
  (exists res w' r',
     Read setUUID fileID w r = Some (res, w', r')
     /\ (res = Panic
         \/ (exists o, res = Return (Some o, None))
         \/ res = Return (None, None)
         \/ (exists e, res = Return (None, Some e))))
  /\ (forall n co prevState fields err r1,
        parseLine r = Some (fields, IO_OBJ_END, err, r1) ->
        Read_loop (S n) setUUID fileID w r co prevState = Some (Return (co, None), w, r1)).
Proof.
  split.
  - destruct (Read_total setUUID fileID w r) as ([[res w'] r'] & Hout & Hpost).
    exists res, w', r'. split; [done|].
    destruct Hpost as (_ & _ & _ & _ & _ & Hx). simpl in Hx.
    destruct res as [[[o|] [e|]]|]; eauto.
    by specialize (Hx _ _ eq_refl).
  - intros n co prev fields err r1 Hpl. rewrite Read_loop_S, Hpl.
    destruct (parseLine_total r) as (f' & st & e' & r' & Hpl' & _ & _ & _ & _ & _ & Hend).
    rewrite Hpl in Hpl'. injection Hpl' as <- <- <- <-.
    specialize (Hend eq_refl). by destruct fields.
Qed.

(** ** The producer of [ReadChan] *)

Section ProducerFacts.
Context `{Nagioscfg}.

Lemma is_EOF_false e : is_EOF (Some e) = false <-> e <> io_EOF.
Proof. destruct e; simpl; split; try done; try congruence. Qed.

Lemma ReadChan_loop_trace n : forall setUUID fileID w r,
  exists t p w' r',
    ReadChan_loop n setUUID fileID w r = Some (t, p, w', r') /\ producer_trace t p.
Proof.
  induction n as [|n IH]; intros setUUID fileID w r.
  - eexists _, _, _, _. split; [done|]. constructor.
  - simpl. destruct (Read_total setUUID fileID w r) as ([[res w1] r1] & -> & _).
    destruct res as [[obj err]|]; [|eexists _, _, _, _; split; [done|constructor]].
    destruct (IH setUUID fileID w1 r1) as (t & p & w' & r' & Ht & Hpt).
    destruct err as [e|].
    + destruct (is_EOF (Some e)) eqn:Heof; cbn [negb].
      * destruct e; try done. destruct obj; eexists _, _, _, _; (split; [done|constructor]).
      * rewrite Ht. apply is_EOF_false in Heof.
        destruct obj; eexists _, _, _, _; (split; [done|]); by constructor.
    + rewrite Ht. destruct obj; eexists _, _, _, _; (split; [done|]); by constructor.
Qed.

(** The channel is closed at the very end, right after [Read] returned
    [io.EOF], and nowhere else. *)
Lemma producer_trace_close t p t1 t2 :
  producer_trace t p -> t = t1 ++ EvClose :: t2 ->
  t2 = [] /\ p = Finished /\ exists t0 x, t1 = t0 ++ [EvRead (Return (x, Some io_EOF))].
Proof.
  intros Hpt. revert t1. induction Hpt as [| |o t p Hpt IH|t p Hpt IH|x e t p He Hpt IH|x];
    intros t1 Ht.
  - by destruct t1.
  - destruct t1 as [|? [|? ?]]; done.
  - destruct t1 as [|? [|? t1]]; try done. injection Ht as <- <- Ht.
    destruct (IH _ Ht) as (? & ? & t0 & x & ->). split; [done|]. split; [done|].
    by exists (EvRead (Return (Some o, None)) :: EvSend o :: t0), x.
  - destruct t1 as [|? t1]; try done. injection Ht as <- Ht.
    destruct (IH _ Ht) as (? & ? & t0 & x & ->). split; [done|]. split; [done|].
    by exists (EvRead (Return (None, None)) :: t0), x.
  - destruct t1 as [|? [|? t1]]; try done. injection Ht as <- <- Ht.
    destruct (IH _ Ht) as (? & ? & t0 & x' & ->). split; [done|]. split; [done|].
    by exists (EvRead (Return (x, Some e)) :: EvLog e :: t0), x'.
  - destruct t1 as [|? [|? [|? ?]]]; try done. injection Ht as <- <-.
    split; [done|]. split; [done|]. by exists [], x.
Qed.

(** Every return of [Read] with an error is followed by what the loop does
    with it: [io.EOF] by the closing of the channel, any other error by
    its log entry and then by the next call of [Read], unless the
    observation ends there. *)
Lemma producer_trace_error t p t1 t2 x e :
  producer_trace t p -> t = t1 ++ EvRead (Return (x, Some e)) :: t2 ->
  (e = io_EOF -> t2 = [EvClose] /\ p = Finished)
  /\ (e <> io_EOF ->
      exists t3, t2 = EvLog e :: t3
                 /\ ((t3 = [] /\ p = Running) \/ exists res t4, t3 = EvRead res :: t4)).
Proof.
  intros Hpt. revert t1. induction Hpt as [| |o t p Hpt IH|t p Hpt IH|x' e' t p He Hpt IH|x'];
    intros t1 Ht.
  - by destruct t1.
  - destruct t1 as [|? [|? ?]]; done.
  - destruct t1 as [|? [|? t1]]; try done. injection Ht as <- <- Ht. by apply (IH t1).
  - destruct t1 as [|? t1]; try done. injection Ht as <- Ht. by apply (IH t1).
  - destruct t1 as [|? [|? t1]]; try done.
    + injection Ht as <- <- <-. split; [done|]. intros _. exists t. split; [done|].
      inversion Hpt; subst; eauto.
    + injection Ht as <- <- Ht. by apply (IH t1).
  - destruct t1 as [|? [|? [|? ?]]]; try done. injection Ht as <- <- <-.
    split; [done|]. done.
Qed.

Lemma producer_trace_finished t p : producer_trace t p -> p = Finished -> EvClose ∈ t.
Proof.
  induction 1 as [| |o t p Hpt IH|t p Hpt IH|x e t p He Hpt IH|x]; intros Hp; try done.
  - do 2 (apply elem_of_cons; right). by apply IH.
  - apply elem_of_cons; right. by apply IH.
  - do 2 (apply elem_of_cons; right). by apply IH.
  - apply elem_of_cons; right. apply elem_of_cons. by left.
Qed.

End ProducerFacts.

Section ProducerRuns.
Context `{Nagioscfg}.

Lemma Read_calls_app t1 t2 : Read_calls (t1 ++ t2) = (Read_calls t1 + Read_calls t2)%nat.
Proof.
  induction t1 as [|ev t1 IH]; [done|]. destruct ev; simpl; by rewrite ?IH.
Qed.

(** What [ReadChan_loop] computes is a run of the producer, with one call
    of [Read] for each unit of [n] unless the loop was left before. *)
Lemma ReadChan_loop_run n : forall setUUID fileID w r,
  exists t p w' r',
    ReadChan_loop n setUUID fileID w r = Some (t, p, w', r')
    /\ producer_run setUUID fileID w r t p w' r'
    /\ (Read_calls t <= n)%nat /\ (1 <= n -> 1 <= Read_calls t)%nat
    /\ (p = Running -> Read_calls t = n).
Proof.
  induction n as [|n IH]; intros setUUID fileID w r.
  - eexists _, _, _, _. split; [done|]. split; [constructor|]. simpl. split; [lia|].
    split; [lia|done].
  - simpl. destruct (Read_total setUUID fileID w r) as ([[res w1] r1] & Hr & _). rewrite Hr.
    destruct res as [[obj err]|].
    2:{ eexists _, _, _, _. split; [done|]. split; [by constructor|]. simpl.
        split; [lia|]. split; [lia|done]. }
    destruct (IH setUUID fileID w1 r1) as (t & p & w' & r' & Ht & Hrun & Hle & _ & Hp).
    pose proof (Read_total setUUID fileID w r) as (out & Hout & (_ & _ & _ & _ & _ & Hx)).
    rewrite Hr in Hout. injection Hout as <-. simpl in Hx.
    destruct err as [e|].
    + pose proof (Hx _ _ eq_refl) as ->.
      destruct (is_EOF (Some e)) eqn:Heof; cbn [negb].
      * assert (e = io_EOF) as -> by (by destruct e).
        eexists _, _, _, _. split; [done|]. split; [by constructor|]. simpl.
        split; [lia|]. split; [lia|done].
      * rewrite Ht. apply is_EOF_false in Heof.
        eexists _, _, _, _. split; [done|]. split; [by econstructor|]. simpl.
        split; [lia|]. split; [lia|]. intros Hrun'. rewrite (Hp Hrun'). done.
    + rewrite Ht. destruct obj as [o|].
      * eexists _, _, _, _. split; [done|]. split; [by econstructor|]. simpl.
        split; [lia|]. split; [lia|]. intros Hrun'. rewrite (Hp Hrun'). done.
      * eexists _, _, _, _. split; [done|]. split; [by econstructor|]. simpl.
        split; [lia|]. split; [lia|]. intros Hrun'. rewrite (Hp Hrun'). done.
Qed.

(** A run forgets to a trace. *)
Lemma producer_run_trace setUUID fileID w r t p w' r' :
  producer_run setUUID fileID w r t p w' r' -> producer_trace t p.
Proof. induction 1; by constructor. Qed.

(** In a run, the events after a call of [Read] are a run from the world
    and the reader that this call left, and the call is the call of
    [Read] on the world and the reader of that point. *)
Lemma producer_run_split setUUID fileID w r t p w' r' t1 res t2 :
  producer_run setUUID fileID w r t p w' r' -> t = t1 ++ EvRead res :: t2 ->
  exists wa ra wb rb,
    producer_run setUUID fileID w r t1 Running wa ra
    /\ Read setUUID fileID wa ra = Some (res, wb, rb)
    /\ producer_run setUUID fileID wa ra (EvRead res :: t2) p w' r'.
Proof.
  intros Hrun. revert t1.
  induction Hrun as [w r|w r w1 r1 Hr|w r o w1 r1 t p w' r' Hr Hrun IH
                     |w r w1 r1 t p w' r' Hr Hrun IH|w r x e w1 r1 t p w' r' Hr He Hrun IH
                     |w r x w1 r1 Hr]; intros t1 Ht.
  - by destruct t1.
  - destruct t1 as [|? [|? ?]]; try done. injection Ht as <- <-.
    exists w, r, w1, r1. split; [constructor|]. split; [done|]. by constructor.
  - destruct t1 as [|ev1 t1].
    + injection Ht as <- <-. exists w, r, w1, r1. split; [constructor|]. split; [done|].
      by econstructor.
    + destruct t1 as [|ev2 t1]; [done|]. injection Ht as <- <- Ht.
      destruct (IH _ Ht) as (wa & ra & wb & rb & Hpre & Hread & Hpost).
      exists wa, ra, wb, rb. split; [by econstructor|]. done.
  - destruct t1 as [|ev1 t1].
    + injection Ht as <- <-. exists w, r, w1, r1. split; [constructor|]. split; [done|].
      by econstructor.
    + injection Ht as <- Ht.
      destruct (IH _ Ht) as (wa & ra & wb & rb & Hpre & Hread & Hpost).
      exists wa, ra, wb, rb. split; [by econstructor|]. done.
  - destruct t1 as [|ev1 t1].
    + injection Ht as <- <-. exists w, r, w1, r1. split; [constructor|]. split; [done|].
      by econstructor.
    + destruct t1 as [|ev2 t1]; [done|]. injection Ht as <- <- Ht.
      destruct (IH _ Ht) as (wa & ra & wb & rb & Hpre & Hread & Hpost).
      exists wa, ra, wb, rb. split; [by econstructor|]. done.
  - destruct t1 as [|? [|? [|? ?]]]; try done. injection Ht as <- <-.
    exists w, r, w1, r1. split; [constructor|]. split; [done|]. by constructor.
Qed.

End ProducerRuns.

(** C9. The producer of [ReadChan], followed for [n] calls of [Read]: what
    it does is a run in which every call of [Read] is made on the world
    and the reader that the call before left, and in which there are [n]
    such calls unless the loop was left before.  Every error of [Read]
    other than [io.EOF] is logged and followed by the next call of [Read];
    the channel is closed if and only if [Read] returned [io.EOF]: a
    close is the last event and comes right after such a return, and
    every such return is followed by the close. *)
Theorem ReadChan_producer `{Nagioscfg} (n : nat) (setUUID : bool) (fileID : str)
    (w : World) (r : Reader) :
  exists t p w' r',
    ReadChan_loop n setUUID fileID w r = Some (t, p, w', r')
    /\ producer_run setUUID fileID w r t p w' r'
    /\ (Read_calls t <= n)%nat /\ (p = Running -> Read_calls t = n)
    /\ (forall t1 t2 x e, t = t1 ++ EvRead (Return (x, Some e)) :: t2 -> e <> io_EOF ->
          exists wa ra wb rb t3,
            Read setUUID fileID wa ra = Some (Return (x, Some e), wb, rb)
            /\ t2 = EvLog e :: t3
            /\ ((t3 = [] /\ p = Running /\ Read_calls t = n)
                \/ exists res wc rc t4,
                     t3 = EvRead res :: t4
                     /\ Read setUUID fileID wb rb = Some (res, wc, rc)))
    /\ (forall t1 t2 x, t = t1 ++ EvRead (Return (x, Some io_EOF)) :: t2 ->
          t2 = [EvClose] /\ p = Finished)
    /\ (forall t1 t2, t = t1 ++ EvClose :: t2 ->
          t2 = [] /\ p = Finished
          /\ exists t0 x, t1 = t0 ++ [EvRead (Return (x, Some io_EOF))])
    /\ (EvClose ∈ t <-> p = Finished).
Proof.
  destruct (ReadChan_loop_run n setUUID fileID w r)
    as (t & p & w' & r' & Ht & Hrun & Hle & _ & Hn).
  pose proof (producer_run_trace _ _ _ _ _ _ _ _ Hrun) as Hpt.
  exists t, p, w', r'. split; [done|]. split; [done|]. split; [done|]. split; [done|].
  split; [|split; [|split]].
  - intros t1 t2 x e Hsplit He.
    destruct (producer_run_split _ _ _ _ _ _ _ _ _ _ _ Hrun Hsplit)
      as (wa & ra & wb & rb & _ & Hread & Hpost).
    inversion Hpost as [| | | |? ? ? ? w1 r1 t3 ? ? ? Hread' _ Hrest|]; subst; [|done].
    rewrite Hread in Hread'. injection Hread' as <- <-.
    exists wa, ra, wb, rb, t3. split; [done|]. split; [done|].
    inversion Hrest; subst.
    + left. split; [done|]. split; [done|]. by apply Hn.
    + right. by eexists _, _, _, _.
    + right. by eexists _, _, _, _.
    + right. by eexists _, _, _, _.
    + right. by eexists _, _, _, _.
    + right. by eexists _, _, _, _.
  - intros t1 t2 x Hsplit.
    by destruct (producer_trace_error _ _ _ _ _ _ Hpt Hsplit) as [? _]; auto.
  - intros t1 t2 Hsplit. by eapply producer_trace_close.
  - split.
    + intros Hin. apply list_elem_of_split in Hin as (t1 & t2 & Hsplit).
      by destruct (producer_trace_close _ _ _ _ Hpt Hsplit) as (_ & ? & _).
    + intros Hp. by eapply producer_trace_finished.
Qed.

(** ** [ReadAllMap] *)

Section ReadAllMapFacts.
Context `{Nagioscfg}.

Lemma CfgObj_Add_UUID k v o : co_UUID (CfgObj_Add k v o).1 = co_UUID o.
Proof. unfold CfgObj_Add. by destruct (co_Props o !! k). Qed.

Lemma Read_alloc_UUID fileID ct w o w' :
  Read_alloc true fileID ct w = (o, w') -> uuidorder w' = uuidorder w ++ [co_UUID o].
Proof. intros Ha. by destruct (Read_alloc_ledger _ _ _ _ _ _ Ha) as [-> _]. Qed.

(** With identities requested, the object that [Read] returns has its
    UUID among those that this call appended to the ledger. *)
Lemma Read_UUID_in_ledger fileID w r o w' r' :
  Read true fileID w r = Some (Return (Some o, None), w', r') ->
  exists news, uuidorder w' = uuidorder w ++ news /\ co_UUID o ∈ news.
Proof.
  intros Hr. unfold Read in Hr.
  destruct (Read_loop_inv true fileID
    (fun w1 co _ => exists news, uuidorder w1 = uuidorder w ++ news
                                 /\ forall o, co = Some o -> co_UUID o ∈ news)
    ) with (n := S (length (src r))) (w := w) (r := r) (co := @None CfgObj)
           (prev := IO_OBJ_OUT) (x := Some o) (w' := w') (r' := r')
    as (prev' & news & Hnews & Hin); try done.
  - intros w1 co ct o1 w2 (news & Hnews & _) _ Ha.
    exists (news ++ [co_UUID o1]). split.
    + by rewrite (Read_alloc_UUID _ _ _ _ _ Ha), Hnews, app_assoc.
    + intros ? [= <-]. apply elem_of_app. right. by apply list_elem_of_singleton.
  - intros w1 o1 prev fields (news & Hnews & Hin) _ _.
    exists news. split; [done|]. intros ? [= <-]. rewrite CfgObj_Add_UUID. by apply Hin.
  - exists []. split; [by rewrite app_nil_r|done].
  - exists news. split; [done|]. by apply Hin.
Qed.

Lemma ReadAllMap_loop_spec n : forall fileID w r m base,
  (length (src r) < n)%nat ->
  (exists news, uuidorder w = base ++ news
                /\ forall u o, m !! u = Some o -> co_UUID o = u /\ u ∈ news) ->
  exists res w' r',
    ReadAllMap_loop n fileID w r m = Some (res, w', r')
    /\ forall m' err, res = Return (m', err) ->
         exists news, uuidorder w' = base ++ news
                      /\ forall u o, m' !! u = Some o -> co_UUID o = u /\ u ∈ news.
Proof.
  induction n as [|n IH]; intros fileID w r m base Hn (news & Hnews & Hm); [lia|].
  simpl. destruct (Read_total true fileID w r) as ([[res w1] r1] & Hread & Hpost).
  rewrite Hread. destruct Hpost as (_ & _ & Hle & [news1 Hnews1] & Hprog & Hx).
  simpl in *.
  destruct res as [[obj err]|]; [|by eexists _, _, _].
  assert (exists news', uuidorder w1 = base ++ news'
            /\ forall u o, (match obj with
                            | Some o => if is_nil err then <[co_UUID o := o]> m else m
                            | None => m
                            end) !! u = Some o -> co_UUID o = u /\ u ∈ news') as Hinv.
  { exists (news ++ news1). split; [by rewrite Hnews1, Hnews, app_assoc|].
    assert (forall u o, m !! u = Some o -> co_UUID o = u /\ u ∈ news ++ news1) as Hm'.
    { intros u o Hu. destruct (Hm u o Hu). split; [done|]. apply elem_of_app. by left. }
    destruct obj as [o|]; [|done]. destruct err as [e|]; [done|]. simpl.
    destruct (Read_UUID_in_ledger _ _ _ _ _ _ Hread) as (news2 & Hnews2 & Hin).
    assert (news2 = news1) as -> by (rewrite Hnews1 in Hnews2; by apply app_inv_head in Hnews2).
    intros u o'. destruct (decide (co_UUID o = u)) as [<-|Hne].
    - rewrite lookup_insert_eq. intros [= <-]. split; [done|]. apply elem_of_app. by right.
    - rewrite lookup_insert_ne by done. apply Hm'. }
  destruct err as [e|]; cbn [is_nil negb].
  - destruct (is_EOF (Some e)); cbn [negb]; eexists _, _, _; (split; [done|]);
      intros m' err' [= <- <-]; exact Hinv.
  - specialize (Hprog _ eq_refl).
    apply IH; [lia|exact Hinv].
Qed.

End ReadAllMapFacts.

(** C10. [ReadAllMap] terminates, and every object in the map it returns
    is stored under its own UUID, which is one of the UUIDs that this call
    appended to the ledger [uuidorder]: [ReadAllMap] always calls [Read]
    with identity assignment, and it has no parameter to turn it off. *)
Theorem ReadAllMap_identity `{Nagioscfg} (fileID : str) (w : World) (r : Reader) :
  exists res w' r',
    ReadAllMap fileID w r = Some (res, w', r')
    /\ forall m err, res = Return (m, err) ->
         exists news, uuidorder w' = uuidorder w ++ news
                      /\ forall u o, m !! u = Some o -> co_UUID o = u /\ u ∈ news.
Proof.
  apply ReadAllMap_loop_spec; [lia|].
  exists []. split; [by rewrite app_nil_r|]. intros u o Hu. by rewrite lookup_empty in Hu.
Qed.

(** ** Objects that [Read] produces *)

Section Produced.
Context `{Nagioscfg}.

Lemma Read_alloc_produced setUUID fileID ct w o w' :
  Read_alloc setUUID fileID ct w = (o, w') -> produced o.
Proof.
  intros Ha. destruct (Read_alloc_ledger _ _ _ _ _ _ Ha) as (_ & _ & Hp & Hi & Hal).
  split; [|split; [done|split; [done|]]].
  - intros k v. by rewrite Hp, lookup_empty.
  - revert Ha. unfold Read_alloc, NewCfgObjWithUUID. destruct setUUID.
    + destruct (NewUUID (uuidsrc w)) as [u g]. simpl.
      by destruct (negb (bool_decide (fileID = []))); intros [= <- <-].
    + by destruct (negb (bool_decide (fileID = []))); intros [= <- <-].
Qed.

Lemma CfgObj_Add_produced fields o :
  produced o -> forallb wordb fields = true -> (2 <= length fields)%nat ->
  produced (CfgObj_Add (hd [] fields) (Join (tl fields) [SPACE]) o).1.
Proof.
  intros (Hp & Hi & Ha & Hc) Hw Hlen.
  destruct fields as [|k [|f1 fs]]; [simpl in Hlen; lia|simpl in Hlen; lia|].
  simpl hd. simpl tl. simpl in Hw. apply andb_prop in Hw as [Hk Hw].
  unfold CfgObj_Add. destruct (co_Props o !! k) eqn:Hlk; [done|].
  unfold produced, set_Props. cbn [fst co_Props co_Indent co_Align co_Comment].
  split; [|done]. intros k' v'. destruct (decide (k = k')) as [<-|Hne].
  - rewrite lookup_insert_eq. intros [= <-]. split; [done|].
    exists (f1 :: fs). by split.
  - rewrite lookup_insert_ne by done. apply Hp.
Qed.

Lemma Read_produced setUUID fileID w r o w' r' :
  Read setUUID fileID w r = Some (Return (Some o, None), w', r') -> produced o.
Proof.
  intros Hr. unfold Read in Hr.
  destruct (Read_loop_inv setUUID fileID (fun _ co _ => forall o, co = Some o -> produced o))
    with (n := S (length (src r))) (w := w) (r := r) (co := @None CfgObj)
         (prev := IO_OBJ_OUT) (x := Some o) (w' := w') (r' := r') as (prev' & Hprod);
    try done.
  - intros w1 co ct o1 w2 _ _ Ha ? [= <-]. by eapply Read_alloc_produced.
  - intros w1 o1 prev fields Hprod Hw Hlen ? [= <-]. apply CfgObj_Add_produced; auto.
  - by apply Hprod.
Qed.

End Produced.

(** ** Reading back what [Print] writes *)

Section RoundTrip.
Context `{Nagioscfg}.

Lemma Repeat_SPACE n : Repeat [SPACE] n = replicate n SPACE.
Proof. unfold Repeat. induction n as [|n IH]; [done|]. simpl. by rewrite IH. Qed.

Lemma blanks_replicate n : blanks (replicate n SPACE) = true.
Proof. induction n as [|n IH]; [done|]. simpl. exact IH. Qed.

Lemma brace_ok_beyond col s : DEF_ALIGN < col -> brace_ok col s = true.
Proof.
  revert col. induction s as [|c s IH]; intros col Hcol; [done|]. simpl.
  rewrite IH by lia. destruct (DEF_ALIGN <? col) eqn:Hlt; [|lia].
  by rewrite orb_true_r.
Qed.

Lemma Join_cons w ws :
  Join (w :: ws) [SPACE] = w ++ List.concat (map (fun w => [SPACE] ++ w) ws).
Proof.
  revert w. induction ws as [|w' ws IH]; intros w.
  - simpl. by rewrite app_nil_r.
  - change (Join (w :: w' :: ws) [SPACE]) with (w ++ [SPACE] ++ Join (w' :: ws) [SPACE]).
    rewrite IH. simpl. done.
Qed.

(** A line of [PrintProps] is a property line of the input format. *)
Lemma Fprintf_prop_PropLine ind width k ws v :
  (1 <= ind)%nat -> DEF_ALIGN <= Z.of_nat ind + Z.of_nat width ->
  wordb k = true -> key_printable width k = true -> valueb_of ws v ->
  exists pl, PropLine_wf pl = true
             /\ PropLine_text pl = Fprintf_prop (replicate ind SPACE) width k v
             /\ PropLine_key pl = k /\ PropLine_value pl = v.
Proof.
  intros Hind Hcol Hk Hkp (Hne & Hws & ->). destruct ws as [|w1 ws]; [done|].
  simpl in Hws. apply andb_prop in Hws as [Hw1 Hws].
  unfold key_printable in Hkp. apply andb_prop in Hkp as [Hlen Hnb].
  apply Nat.ltb_lt in Hlen.
  set (pad := replicate (width - length k) SPACE).
  exists (mkPropLine (replicate ind SPACE) k
            ((pad, w1) :: map (fun w => ([SPACE], w)) ws) [] EolLF).
  assert (map snd (map (fun w : str => ([SPACE], w)) ws) = ws) as Hsnd.
  { clear. induction ws as [|w ws IH]; [done|]. simpl. by rewrite IH. }
  assert (sep_fields ((pad, w1) :: map (fun w => ([SPACE], w)) ws)
          = pad ++ Join (w1 :: ws) [SPACE]) as Hsep.
  { unfold sep_fields. cbn [map List.concat fst snd].
    rewrite Join_cons, <- app_assoc. do 2 f_equal.
    clear. induction ws as [|w ws IH]; [done|]. simpl. by rewrite IH. }
  split; [|split; [|split]].
  - assert (head pad = Some SPACE) as Hpad
      by (unfold pad; destruct (width - length k)%nat eqn:?; [lia|done]).
    assert (blanks pad = true) as Hbp by apply blanks_replicate.
    assert (head (replicate ind SPACE ++ k) = Some SPACE) as Hhd
      by (destruct ind; [lia|done]).
    assert (forallb sepfield_wf (map (fun w => ([SPACE], w)) ws) = true) as Hrest.
    { clear -Hws. induction ws as [|w ws IH]; [done|]. simpl in *.
      apply andb_prop in Hws as [Hw Hws]. unfold sepfield_wf at 1. simpl.
      by rewrite Hw, IH. }
    assert (brace_ok 0 (replicate ind SPACE ++ k ++ pad ++ Join (w1 :: ws) [SPACE]) = true)
      as Hbr.
    { rewrite !brace_ok_app.
      rewrite (brace_ok_blanks _ _ (blanks_replicate ind)), (brace_ok_nobrace _ _ Hnb).
      rewrite (brace_ok_blanks _ pad Hbp). cbn [andb]. unfold pad.
      rewrite !length_replicate.
      rewrite Join_cons. destruct w1 as [|c w1]; [done|].
      unfold wordb in Hw1. apply andb_prop in Hw1 as [Hc _].
      apply andb_prop in Hc as [Hc _].
      cbn [app brace_ok]. rewrite Hc. cbn [orb andb].
      apply brace_ok_beyond. lia. }
    unfold PropLine_wf. cbn [pl_indent pl_key pl_vals pl_trail].
    rewrite Hsep, Hbr, blanks_replicate, Hk, Hhd.
    rewrite bool_decide_eq_false_2 by done.
    cbn [forallb head is_nil negb andb]. rewrite Hrest.
    unfold sepfield_wf. cbn [fst snd]. by rewrite Hpad, Hbp, Hw1.
  - unfold PropLine_text, Fprintf_prop, padRight.
    cbn [pl_indent pl_key pl_vals pl_trail pl_eol eol]. rewrite Hsep.
    fold pad. by rewrite <- !app_assoc.
  - done.
  - unfold PropLine_value. cbn [pl_vals map snd]. by rewrite Hsnd.
Qed.

(** The lines of [PrintProps] add their properties back, in the order in
    which they were written. *)
Lemma Read_loop_PrintProps ind width kvs : forall n setUUID fileID w r o prev rest,
  (1 <= ind)%nat -> DEF_ALIGN <= Z.of_nat ind + Z.of_nat width ->
  Forall (fun kv => wordb kv.1 = true /\ key_printable width kv.1 = true
                    /\ exists ws, valueb_of ws kv.2) kvs ->
  Comment r = HASH ->
  src r = PrintProps kvs (replicate ind SPACE) width ++ rest ->
  exists r',
    Read_loop (length kvs + n) setUUID fileID w r (Some o) prev
    = Read_loop n setUUID fileID w r' (Some (add_props kvs o)) prev
    /\ Comment r' = HASH /\ srcerr r' = srcerr r /\ src r' = rest.
Proof.
  induction kvs as [|[k v] kvs IH]; intros n setUUID fileID w r o prev rest Hind Hcol Hall HC Hs.
  - by exists r.
  - apply Forall_cons in Hall as [(Hk & Hkp & ws & Hv) Hall]. simpl in Hk, Hkp, Hv.
    destruct (Fprintf_prop_PropLine ind width k ws v Hind Hcol Hk Hkp Hv)
      as (pl & Hwf & Htxt & Hkey & Hval).
    unfold PrintProps in Hs. simpl in Hs. rewrite <- app_assoc, <- Htxt in Hs.
    destruct (Read_loop_PropLine pl (length kvs + n) setUUID fileID w r o prev _ Hwf HC Hs)
      as (r1 & Hr1 & HC1 & _ & He1 & Hs1).
    rewrite Hkey, Hval in Hr1.
    destruct (IH n setUUID fileID w r1 (CfgObj_Add k v o).1 prev rest Hind Hcol Hall HC1 Hs1)
      as (r' & Hr' & HC' & He' & Hs').
    exists r'. split; [|split; [done|split; [congruence|done]]].
    simpl length. unfold add_props in *. simpl foldl. rewrite <- Hr'. exact Hr1.
Qed.

End RoundTrip.

(** C8. An object that [Read] has produced and that is readable in the
    sense above is written by [Print], in whatever order the properties
    are visited, as a text from which [Read] produces an object with the
    same properties. *)
Theorem Print_Read_roundtrip `{Nagioscfg} (setUUID : bool) (fileID : str) (w : World)
    (r : Reader) (co : CfgObj) (w1 : World) (r1 : Reader) (order : list (str * str))
    (setUUID' : bool) (fileID' : str) (w2 : World) :
  Read setUUID fileID w r = Some (Return (Some co, None), w1, r1) ->
  order ≡ₚ map_to_list (co_Props co) ->
  Print_readable co = true ->
  exists text co' o' w3 r3,
    Print co order = Some (text, co')
    /\ Read setUUID' fileID' w2 (NewReader text) = Some (Return (Some o', None), w3, r3)
    /\ co_Props o' = co_Props co
    /\ co_Type o' = CfgName_Type (CfgType_String (co_Type co)).
Proof.
  intros Hread Hperm Hpr. unfold Print_readable in Hpr.
  apply andb_prop in Hpr as [Hpr Hkeys]. apply andb_prop in Hpr as [Hpr Hcmt].
  apply andb_prop in Hpr as [Hpr Htyv]. apply andb_prop in Hpr as [Hpr Htylen].
  apply andb_prop in Hpr as [Hpr Htynb]. apply andb_prop in Hpr as [Hpr Htyw].
  apply andb_prop in Hpr as [Hpr Hcol]. apply andb_prop in Hpr as [Hpr Hal2].
  apply andb_prop in Hpr as [Hind Hal1].
  apply Z.leb_le in Hind, Hal1, Hal2, Hcol, Htylen.
  apply negb_true_iff, bool_decide_eq_false in Htyv.
  rewrite forallb_forall in Hkeys.
  destruct (Read_produced _ _ _ _ _ _ _ Hread) as (Hprops & _ & _ & Hc0).
  set (ty := CfgType_String (co_Type co)) in *.
  set (ind := Z.to_nat (co_Indent co)).
  set (width := Z.to_nat (co_Align co)).
  set (cmt := co_Comment (generateComment co).1).
  assert (comment_printable cmt = true) as Hcmt'.
  { unfold cmt, generateComment.
    destruct (deriveComment (co_Type co) (co_Props co)) as [c|] eqn:Hd; simpl.
    - done.
    - by rewrite Hc0. }
  assert (co_Type (generateComment co).1 = co_Type co) as Hgt
    by (unfold generateComment; by destruct (deriveComment _ _)).
  assert (co_Align (generateComment co).1 = co_Align co) as Hga
    by (unfold generateComment; by destruct (deriveComment _ _)).
  assert (Print co order
          = Some (cmt ++ [LF] ++ runes "define " ++ ty ++ [LBRACE; LF]
                  ++ PrintProps order (replicate ind SPACE) width
                  ++ replicate ind SPACE ++ [RBRACE; LF], (generateComment co).1)) as HP.
  { unfold Print.
    destruct (0 <=? co_Indent co) eqn:H1; [|lia].
    destruct (0 <=? co_Align co) eqn:H2; [|lia].
    destruct (co_Align co <=? 1000000) eqn:H3; [|lia].
    cbn [andb]. rewrite Repeat_SPACE. fold cmt. rewrite Hgt, Hga. done. }
  eexists _, _. rewrite HP.
  (* the comment line *)
  assert (exists fl, Filler_wf fl = true /\ Filler_text fl = cmt ++ [LF]) as (fl & Hfl & Hflt).
  { destruct cmt as [|h body].
    - by exists (BlankLine [] EolLF).
    - simpl in Hcmt'. apply andb_prop in Hcmt' as [Hh Hb]. apply Z.eqb_eq in Hh. subst h.
      by exists (CommentLine body EolLF). }
  set (h := mkHeader [] [SPACE] ty []).
  assert (Header_wf h = true) as Hh.
  { unfold Header_wf, h. cbn [h_indent h_sep h_type h_gap head is_nil negb blanks forallb andb].
    rewrite Htyw, Htynb. cbn [andb app orb].
    change (hspace SPACE) with true. cbn [andb].
    apply Z.leb_le. repeat (rewrite ?length_app; cbn [length app]).
    change (length (runes "define")) with 6%nat. lia. }
  set (ct := CfgName_Type ty) in *.
  set (o0 := (Read_alloc setUUID' fileID' ct w2).1).
  set (w3 := (Read_alloc setUUID' fileID' ct w2).2).
  set (rest1 := Header_text h ++ [LF] ++ PrintProps order (replicate ind SPACE) width
                  ++ replicate ind SPACE ++ RBRACE :: [LF]).
  set (text := cmt ++ [LF] ++ runes "define " ++ ty ++ [LBRACE; LF]
                  ++ PrintProps order (replicate ind SPACE) width
                  ++ replicate ind SPACE ++ [RBRACE; LF]).
  assert (text = Filler_text fl ++ rest1) as Htext.
  { unfold text, rest1, h, Header_text. cbn [h_indent h_sep h_type h_gap].
    rewrite Hflt. rewrite <- !app_assoc. done. }
  destruct (Read_loop_Filler fl (S (S (length order + 1))) setUUID' fileID' w2
              (NewReader text) None IO_OBJ_OUT rest1 Hfl eq_refl Htext)
    as (ra & Ha & HCa & _ & Hea & Hsa).
  unfold rest1 in Hsa.
  destruct (Read_loop_Header h (S (length order + 1)) setUUID' fileID' w2 ra None _
              Hh Htyv HCa Hsa) as (rb & Hb & HCb & _ & Heb & Hsb).
  change (Read_loop (S (S (length order + 1))) setUUID' fileID' w2 ra None IO_OBJ_OUT
          = Read_loop (S (length order + 1)) setUUID' fileID' w3 rb (Some o0) IO_OBJ_BEGIN)
    in Hb.
  destruct (Read_loop_Filler (BlankLine [] EolLF) (length order + 1) setUUID' fileID' w3
              rb (Some o0) IO_OBJ_BEGIN _ eq_refl HCb Hsb)
    as (rc & Hc & HCc & _ & Hec & Hsc).
  assert (Forall (fun kv => wordb kv.1 = true /\ key_printable width kv.1 = true
                            /\ exists ws, valueb_of ws kv.2) order) as Hall.
  { apply Forall_forall. intros [k v] Hkv. rewrite Hperm in Hkv.
    specialize (Hkeys (k, v) (proj1 (list_elem_of_In _ _) Hkv)).
    apply elem_of_map_to_list in Hkv. destruct (Hprops k v Hkv) as [Hk Hv]. done. }
  destruct (Read_loop_PrintProps ind width order 1 setUUID' fileID' w3 rc o0 IO_OBJ_BEGIN
              (replicate ind SPACE ++ RBRACE :: [LF])) as (rd & Hd & HCd & Hed & Hsd);
    try done.
  { unfold ind. lia. }
  { unfold ind, width. lia. }
  destruct (Read_loop_close (replicate ind SPACE) 0 setUUID' fileID' w3 rd
              (Some (add_props order o0)) IO_OBJ_BEGIN [LF] (blanks_replicate ind) HCd Hsd)
    as (re & He & _).
  rewrite He in Hd. rewrite Hd in Hc. rewrite Hc in Hb. rewrite Hb in Ha.
  apply Read_loop_Read in Ha.
  destruct (Read_alloc_ledger _ _ _ _ _ _ (surjective_pairing (Read_alloc setUUID' fileID' ct w2)))
    as (_ & Hty0 & Hpr0 & _).
  fold o0 in Hty0, Hpr0.
  eexists _, _, _. split; [done|]. split; [exact Ha|]. split.
  - rewrite add_props_Props, Hpr0, (left_id_L ∅ (∪)).
    rewrite <- (list_to_map_to_list (co_Props co)).
    apply list_to_map_proper; [|done].
    rewrite Hperm. apply NoDup_fst_map_to_list.
  - by rewrite add_props_Type.
Qed.

(** ** Positions do not matter to what is read *)

Section Positions.
Context `{Nagioscfg}.

Lemma scan_eq_stream r r' : scan_eq r r' -> same_stream r r'.
Proof. intros (?&?&?&?&?). by repeat split. Qed.

Lemma readRune_scan_eq r r' :
  scan_eq r r' -> same_scan scan_eq (Some (readRune r)) (Some (readRune r')).
Proof.
  destruct r as [C l il col f s e], r' as [C' l' il' col' f' s' e'].
  intros (HC & Hcol & Hf & Hs & He). simpl in *. subst.
  unfold readRune, ReadRune. simpl. destruct s' as [|c s]; simpl; [by repeat split|].
  destruct (c =? CR).
  - destruct s as [|c' s]; simpl; [by repeat split|].
    destruct (c' =? LF); by repeat split.
  - destruct (c =? LF); by repeat split.
Qed.

Lemma readRune_same_stream r r' :
  same_stream r r' -> same_scan same_stream (Some (readRune r)) (Some (readRune r')).
Proof.
  destruct r as [C l il col f s e], r' as [C' l' il' col' f' s' e'].
  intros (HC & Hs & He). simpl in *. subst.
  unfold readRune, ReadRune. simpl. destruct s' as [|c s]; simpl; [by repeat split|].
  destruct (c =? CR).
  - destruct s as [|c' s]; simpl; [by repeat split|].
    destruct (c' =? LF); by repeat split.
  - destruct (c =? LF); by repeat split.
Qed.

Lemma skip_loop_same_stream n delim : forall r r',
  same_stream r r' -> same_scan same_stream (skip_loop n r delim) (skip_loop n r' delim).
Proof.
  induction n as [|n IH]; intros r r' Hr; [done|]. simpl.
  pose proof (readRune_same_stream r r' Hr) as Hrr.
  destruct (readRune r) as [[c e] r1], (readRune r') as [[c' e'] r1'].
  destruct Hrr as [[= <- <-] Hr1].
  destruct (negb (is_nil e)); [done|]. destruct (c =? delim); [done|]. by apply IH.
Qed.

Lemma parseFields_skip_scan_eq n : forall c err r r',
  scan_eq r r' ->
  same_scan scan_eq (parseFields_skip n c err r) (parseFields_skip n c err r').
Proof.
  induction n as [|n IH]; intros c err r r' Hr; simpl.
  - by destruct (is_nil err && negb (c =? LF) && IsSpace c).
  - destruct (is_nil err && negb (c =? LF) && IsSpace c); [|done].
    pose proof (readRune_scan_eq r r' Hr) as Hrr.
    destruct (readRune r) as [[c1 e1] r1], (readRune r') as [[c1' e1'] r1'].
    destruct Hrr as [[= <- <-] Hr1]. by apply IH.
Qed.

Lemma parseFields_accum_scan_eq n : forall c r r',
  scan_eq r r' ->
  same_scan scan_eq (parseFields_accum n c r) (parseFields_accum n c r').
Proof.
  induction n as [|n IH]; intros c r r' Hr; [done|]. simpl.
  assert (scan_eq (if negb (IsSpace c) then WriteRune c r else r)
                  (if negb (IsSpace c) then WriteRune c r' else r')) as Hw.
  { destruct (negb (IsSpace c)); [|done].
    destruct Hr as (?&?&Hf&?&?). unfold WriteRune, set_field. simpl.
    rewrite Hf. by repeat split. }
  pose proof (readRune_scan_eq _ _ Hw) as Hrr.
  destruct (readRune (if negb (IsSpace c) then WriteRune c r else r)) as [[c1 e1] r1],
           (readRune (if negb (IsSpace c) then WriteRune c r' else r')) as [[c1' e1'] r1'].
  destruct Hrr as [[= <- <-] Hr1].
  destruct (negb (is_nil e1)); [done|].
  assert (column r1 = column r1') as <- by by destruct Hr1 as (_&?&_).
  destruct (c1 =? LBRACE).
  - destruct (column r1 >? DEF_ALIGN); [by apply IH|done].
  - destruct (IsSpace c1); [done|by apply IH].
Qed.

(** [parseFields] resets the field buffer: it is enough that the readers
    agree on the column. *)
Lemma parseFields_scan_eq r r' :
  same_stream r r' -> column r = column r' ->
  same_scan scan_eq (parseFields r) (parseFields r').
Proof.
  intros (HC & Hs & He) Hcol. unfold parseFields. rewrite <- Hs.
  assert (scan_eq (set_field [] r) (set_field [] r')) as H0 by by repeat split.
  pose proof (readRune_scan_eq _ _ H0) as Hrr.
  destruct (readRune (set_field [] r)) as [[c e] r1],
           (readRune (set_field [] r')) as [[c' e'] r1'].
  destruct Hrr as [[= <- <-] Hr1].
  pose proof (parseFields_skip_scan_eq (S (length (src r))) c e _ _ Hr1) as Hsk.
  destruct (parseFields_skip _ c e r1) as [[[c1 e1] r2]|],
           (parseFields_skip _ c e r1') as [[[c1' e1'] r2']|]; try done.
  destruct Hsk as [[= <- <-] Hr2].
  assert (column r2 = column r2') as <- by by destruct Hr2 as (_&?&_).
  destruct (is_EOF e1 && negb (column r2 =? 0)); [done|].
  destruct (negb (is_nil e1)); [done|].
  repeat (match goal with |- context [if ?b then _ else _] => destruct b end; [done|]).
  pose proof (parseFields_accum_scan_eq (S (length (src r))) c1 _ _ Hr2) as Hacc.
  destruct (parseFields_accum _ c1 r2) as [[[c2 e2] r3]|],
           (parseFields_accum _ c1 r2') as [[[c2' e2'] r3']|]; try done.
  destruct Hacc as [[= <- <-] Hr3].
  destruct (negb (is_nil e2)); [|done]. by destruct (is_EOF e2).
Qed.

Lemma parseLine_loop_scan_eq n : forall r r' fields,
  same_stream r r' -> column r = column r' ->
  same_scan scan_eq (parseLine_loop n r fields) (parseLine_loop n r' fields).
Proof.
  induction n as [|n IH]; intros r r' fields Hr Hcol; [done|]. simpl.
  pose proof (parseFields_scan_eq r r' Hr Hcol) as Hpf.
  destruct (parseFields r) as [[[[hf d] e] r1]|],
           (parseFields r') as [[[[hf' d'] e'] r1']|]; try done.
  destruct Hpf as [[= <- <- <-] Hr1].
  assert (field r1 = field r1') as <- by by destruct Hr1 as (_&_&?&_).
  repeat (match goal with |- context [if ?b then _ else _ ] =>
            match b with
            | hf => fail 1
            | _ => destruct b; [done|]
            end
          end).
  apply IH; [by apply scan_eq_stream|by destruct Hr1 as (_&?&_)].
Qed.

(** The line assembler does not depend on the counters of the reader. *)
Lemma parseLine_same_stream r r' :
  same_stream r r' -> same_scan same_stream (parseLine r) (parseLine r').
Proof.
  destruct r as [C l il col f s e], r' as [C' l' il' col' f' s' e'].
  intros (HC & Hs & He). simpl in HC, Hs, He. subst C' s' e'.
  unfold parseLine, ReadRune, set_column, set_line. cbn [src Comment line srcerr inputline field].
  destruct s as [|c s]; cbn [is_nil negb].
  - by repeat split.
  - destruct (negb (C =? 0) && (c =? C)).
    + unfold skip, set_src. cbn [src Comment line srcerr inputline field column].
      pose proof (skip_loop_same_stream (S (length s)) LF
                    (mkReader C (l + 1) il (-1) f s e)
                    (mkReader C (l' + 1) il' (-1) f' s e)) as Hsk.
      destruct (skip_loop _ _ LF) as [[e1 r1]|], (skip_loop _ _ LF) as [[e1' r1']|];
        try (by apply Hsk); try (exfalso; by apply Hsk).
      destruct Hsk as [-> Hr1]; [by repeat split|]. done.
    + pose proof (parseLine_loop_scan_eq (S (length (c :: s)))
                    (mkReader C (l + 1) il (-1) f (c :: s) e)
                    (mkReader C (l' + 1) il' (-1) f' (c :: s) e) []) as Hlp.
      destruct (parseLine_loop _ _ []) as [[[[f1 st1] e1] r1]|],
               (parseLine_loop _ _ []) as [[[[f1' st1'] e1'] r1']|];
        try (by apply Hlp); try (exfalso; by apply Hlp).
      destruct Hlp as [[= <- <- <-] Hr1]; [by repeat split|done|].
      split; [done|by apply scan_eq_stream].
Qed.

(** The object builder does not depend on them either, but for the
    positions in its errors. *)
Lemma Read_loop_same_stream setUUID fileID n : forall w r r' co prev,
  same_stream r r' ->
  outcome <$> Read_loop n setUUID fileID w r co prev
  = outcome <$> Read_loop n setUUID fileID w r' co prev.
Proof.
  induction n as [|n IH]; intros w r r' co prev Hr; [done|].
  rewrite !Read_loop_S.
  pose proof (parseLine_same_stream r r' Hr) as Hpl.
  destruct (parseLine r) as [[[[fields st] err] r1]|],
           (parseLine r') as [[[[fields' st'] err'] r1']|]; try done.
  destruct Hpl as [[= <- <- <-] Hr1].
  assert (src r1 = src r1') as Hsrc by by destruct Hr1 as (_&?&_).
  assert (forall w1 co1 prev1,
    outcome <$> (if negb (is_nil err) then Some (Return (None, err), w1, r1)
                 else Read_loop n setUUID fileID w1 r1 co1 prev1)
    = outcome <$> (if negb (is_nil err) then Some (Return (None, err), w1, r1')
                   else Read_loop n setUUID fileID w1 r1' co1 prev1)) as Hnext.
  { intros w1 co1 prev1. destruct (negb (is_nil err)); [|by apply IH].
    simpl. unfold outcome. simpl. by rewrite Hsrc. }
  assert (forall (x : option CfgObj) (e e' : option error),
    unpositioned <$> e = unpositioned <$> e' ->
    outcome <$> Some (Return (x, e), w, r1) = outcome <$> Some (Return (x, e'), w, r1'))
    as Hret.
  { intros x e e' Hee. simpl. unfold outcome. simpl. by rewrite Hsrc, Hee. }
  destruct fields as [|f0 fields]; [by apply Hnext|]. cbv zeta.
  destruct st.
  - by apply Hret.
  - destruct (negb (IoState_eqb prev IO_OBJ_OUT)); [by apply IH|].
    destruct ((f0 :: fields) !! 1%nat) as [name|].
    + destruct (decide (CfgName_Type name = T_INVALID)); [by apply Hret|].
      destruct (Read_alloc setUUID fileID (CfgName_Type name) w) as [o w1].
      by apply Hnext.
    + simpl. unfold outcome. simpl. by rewrite Hsrc.
  - destruct co as [o|]; [|by apply IH].
    destruct (length (f0 :: fields) <? 2)%nat; [by apply IH|by apply Hnext].
  - by apply Hret.
Qed.

End Positions.

(** C4. A line whose first rune is the comment marker, with any content
    up to its newline, has no effect: the loop of [Read] consumes it and
    goes on with the same object under construction, the same
    [prevState] and the same ledger, and what it returns is what it
    returns on the input without the line, but for the positions in
    errors.  The same holds of [Read] when its input starts with such a
    line. *)
Theorem Read_skips_comment_line `{Nagioscfg} (body : str) (ending : Eol) (n : nat)
    (setUUID : bool) (fileID : str) (w : World) (r : Reader) (co : option CfgObj)
    (prevState : IoState) (rest : str) :
  no_LF body = true -> Comment r = HASH ->
  src r = HASH :: body ++ eol ending ++ rest ->
  (exists r',
     Read_loop (S n) setUUID fileID w r co prevState
     = Read_loop n setUUID fileID w r' co prevState
     /\ Comment r' = HASH /\ line r' = line r + 1 /\ srcerr r' = srcerr r
     /\ src r' = rest)
  /\ outcome <$> Read_loop (S n) setUUID fileID w r co prevState
     = outcome <$> Read_loop n setUUID fileID w (set_src rest r) co prevState
  /\ outcome <$> Read setUUID fileID w r = outcome <$> Read setUUID fileID w (set_src rest r).
Proof.
  intros Hb HC Hs.
  assert (forall m co1 prev1, exists r',
     Read_loop (S m) setUUID fileID w r co1 prev1
     = Read_loop m setUUID fileID w r' co1 prev1
     /\ Comment r' = HASH /\ line r' = line r + 1 /\ srcerr r' = srcerr r
     /\ src r' = rest) as Hstep.
  { intros m co1 prev1.
    apply (Read_loop_Filler (CommentLine body ending) m setUUID fileID w r co1 prev1 rest);
      [done|done|].
    rewrite Hs. simpl. by rewrite <- app_assoc. }
  assert (forall m co1 prev1,
     outcome <$> Read_loop (S m) setUUID fileID w r co1 prev1
     = outcome <$> Read_loop m setUUID fileID w (set_src rest r) co1 prev1) as Hout.
  { intros m co1 prev1. destruct (Hstep m co1 prev1) as (r' & -> & HC' & _ & He' & Hs').
    apply Read_loop_same_stream. destruct r as [C l il col f s e]. simpl in *.
    unfold same_stream. simpl. repeat split; congruence. }
  split; [apply Hstep|]. split; [apply Hout|].
  unfold Read at 1. rewrite Hout.
  destruct (Read_total setUUID fileID w (set_src rest r)) as (out & Hread & _).
  rewrite Hread. unfold Read in Hread.
  assert (S (length (src (set_src rest r))) <= length (src r))%nat as Hle.
  { destruct r as [C l il col f s e]. simpl in *. subst s. simpl.
    rewrite !length_app. lia. }
  by rewrite (Read_loop_mono _ (length (src r)) _ _ _ _ _ _ _ Hle Hread).
Qed.

(** * Examples, counterexamples and witnesses *)

Example ex1_block_text : Block_text ex1_block = ex1.
Proof. reflexivity. Qed.

Example ex1_props : Read_props ex1 = Some [(runes "host_name", runes "h1")].
Proof. vm_compute. reflexivity. Qed.

Example pig_read :
  Read false (runes "/dev/null") world0 (NewReader pig)
  = Some (Return (Some (set_FileID (runes "/dev/null") pig_object), None), world0,
          mkReader HASH 7 5 1 [] [] io_EOF).
Proof. vm_compute. reflexivity. Qed.

Example ex2_block_text : Block_text ex2_block = ex2.
Proof. reflexivity. Qed.

Example ex2_props :
  Read_props ex2 = Some [(runes "host_name", runes "h1");
                         (runes "check_command", runes "check_ping 100 20%")].
Proof. vm_compute. reflexivity. Qed.

Lemma Read_one_block_witness :
  Block_wf ex2_block = true /\
  exists o w1 r1 w2 r2,
    Read false [] world0 (NewReader (Block_text ex2_block)) = Some (Return (Some o, None), w1, r1)
    /\ co_Type o = CfgName_Type (h_type (b_header ex2_block))
    /\ co_Type o <> T_INVALID
    /\ co_Props o = list_to_map (Body_props (b_body ex2_block))
    /\ (forall l, Prop_ l ∈ b_body ex2_block ->
          co_Props o !! PropLine_key l = Some (PropLine_value l))
    /\ Read false [] w1 r1 = Some (Return (None, Some io_EOF), w2, r2).
Proof.
  split; [reflexivity|apply (Read_one_block ex2_block false [] world0); reflexivity].
Defined.

(** C1, as stated, fails: a block-open rune in a value, at a column up to
    [DEF_ALIGN], makes the line a header line inside the block, which is
    passed over; the object comes back without the property
    [command_line]. *)
Lemma Read_drops_property_with_brace :
  Read_props brace_value = Some [(runes "command_name", runes "check_x")].
Proof. vm_compute. reflexivity. Qed.

(** Two more inputs on which C1, as stated, fails.  A header whose
    block-open rune follows the type name beyond column [DEF_ALIGN] opens
    no object, and the closing line makes [Read] return neither an object
    nor an error.  A space that ends the input without a newline makes the
    call after the object return a [ParseError] where [io.EOF] is
    expected. *)
Lemma Read_indented_header :
  Read false [] world0 (NewReader indented_header)
  = Some (Return (None, None), world0, mkReader HASH 3 2 0 [] [LF] io_EOF).
Proof. vm_compute. reflexivity. Qed.

Lemma Read_no_final_newline :
  (exists o,
     Read false [] world0 (NewReader no_final_newline)
     = Some (Return (Some o, None), world0, mkReader HASH 4 2 0 [] [LF; SPACE] io_EOF))
  /\ Read false [] world0 (mkReader HASH 4 2 0 [] [LF; SPACE] io_EOF)
     = Some (Return (None, Some (ParseError 6 1 ErrUnknown)), world0,
             mkReader HASH 6 3 1 [] [] io_EOF).
Proof. split; [eexists|]; vm_compute; reflexivity. Qed.

(** The producer on an input with a header of an unknown type and then a
    block: the error is logged, the next call returns nothing at the
    closing line of the rejected block, the block is read and sent, and
    [io.EOF] closes the channel. *)
Example ReadChan_bogus_then_host :
  exists o w' r',
    ReadChan_loop 10 false [] world0 (NewReader bogus_then_host)
    = Some ([EvRead (Return (None, Some (ParseError 1 12 ErrUnknown)));
             EvLog (ParseError 1 12 ErrUnknown);
             EvRead (Return (None, None));
             EvRead (Return (Some o, None)); EvSend o;
             EvRead (Return (None, Some io_EOF)); EvClose], Finished, w', r')
    /\ co_Type o = T_HOST.
Proof. eexists _, _, _. split; vm_compute; reflexivity. Qed.

(** C2, as stated, fails: on a block-close line with no block open, [Read]
    returns neither an object nor an error. *)
Lemma Read_nil_nil :
  Read false [] world0 (NewReader (runes "}
"))
  = Some (Return (None, None), world0, mkReader HASH 1 0 0 [] [LF] io_EOF).
Proof. vm_compute. reflexivity. Qed.

(** C4, as stated, fails: a comment marker after white space does not
    start a comment, and the line is a property line. *)
Lemma indented_comment_is_property :
  Read_props indented_comment = Some [(runes "#", runes "c d")]
  /\ Read_props without_comment = Some [].
Proof. split; vm_compute; reflexivity. Qed.


Lemma Read_bogus_type_witness :
  exists r',
    Read false [] world0 (NewReader (runes "define bogus{
}
"))
    = Some (Return (None, Some (ParseError 1 12 ErrUnknown)), world0, r').
Proof. apply (Read_bogus_type false [] world0); [simpl; lia|reflexivity]. Defined.

(** C8, as stated, fails: a key as wide as the alignment is printed with
    no white space before the value, and the line is read back as a line
    with one field, which is skipped. *)
Lemma roundtrip_loses_long_key :
  roundtrip longkey
  = Some ([(runes "_a_custom_variable_of_32_runes__", runes "v")], []).
Proof. vm_compute. reflexivity. Qed.

(** The same round trip on a key with a block-open rune: it is printed
    at the indentation of the object, before column [DEF_ALIGN], and is
    read back as a block opening; the rest of the line is a property of its
    own. *)
Lemma roundtrip_splits_key_with_brace :
  roundtrip bracekey
  = Some ([(runes "_arg{1}", runes "v")], [(runes "1}", runes "v")]).
Proof. vm_compute. reflexivity. Qed.

(** A key that fills the width is followed by its value at once, whatever
    the width and the prefix. *)
Lemma Fprintf_prop_no_gap (prefix : str) (width : nat) (k v : str) :
  (width <= length k)%nat ->
  Fprintf_prop prefix width k v = prefix ++ k ++ v ++ [LF].
Proof.
  intros Hw. unfold Fprintf_prop, padRight.
  replace (width - length k)%nat with O by lia.
  cbn [replicate]. by rewrite app_nil_r.
Qed.

Lemma Print_Read_roundtrip_witness :
  exists text co' o' w3 r3,
    Print (set_FileID (runes "/dev/null") pig_object)
      (map_to_list (co_Props pig_object)) = Some (text, co')
    /\ Read false [] world0 (NewReader text) = Some (Return (Some o', None), w3, r3)
    /\ co_Props o' = co_Props pig_object
    /\ co_Type o' = T_SERVICE.
Proof.
  apply (Print_Read_roundtrip false (runes "/dev/null") world0 (NewReader pig)
           (set_FileID (runes "/dev/null") pig_object) world0
           (mkReader HASH 7 5 1 [] [] io_EOF)
           (map_to_list (co_Props pig_object)) false [] world0).
  - vm_compute. reflexivity.
  - reflexivity.
  - vm_compute. reflexivity.
Defined.

Lemma Read_skips_comment_line_witness :
  outcome <$> Read false [] world0 (NewReader ex1)
  = outcome <$> Read false [] world0 (NewReader (runes "define service{
 host_name h1
}
")).
Proof.
  exact (proj2 (proj2 (Read_skips_comment_line (runes " c") EolLF O false [] world0
                         (NewReader ex1) None IO_OBJ_OUT (runes "define service{
 host_name h1
}
") eq_refl eq_refl eq_refl))).
Defined.

(** * Further properties *)

(** ** The rune reader as dos2unix *)

Lemma readRune_delivers r c r' :
  readRune r = (c, None, r') -> dos2unix (src r) = c :: dos2unix (src r').
Proof.
  destruct r as [C l il col f s e]. unfold readRune, ReadRune. simpl.
  destruct s as [|c0 s]; [done|]. simpl.
  destruct (c0 =? CR) eqn:Hcr.
  - destruct s as [|c1 s]; [done|]. simpl.
    destruct (c1 =? LF) eqn:Hlf; simpl; intros [= <- <-]; simpl.
    + apply Z.eqb_eq in Hlf. subst c1. done.
    + done.
  - destruct (c0 =? LF) eqn:Hlf; intros [= <- <-]; simpl; done.
Qed.

Lemma readRune_fails r c e r' :
  readRune r = (c, Some e, r') ->
  dos2unix (src r) = [] /\ src r' = [] /\ c = 0 /\ e = srcerr r.
Proof.
  destruct r as [C l il col f s e0]. unfold readRune, ReadRune. simpl.
  destruct s as [|c0 s]; simpl.
  - by intros [= <- <- <-].
  - destruct (c0 =? CR) eqn:Hcr.
    + destruct s as [|c1 s]; simpl; [by intros [= <- <- <-]|].
      by destruct (c1 =? LF).
    + by destruct (c0 =? LF).
Qed.

Lemma dos2unix_length s : (length (dos2unix s) <= length s)%nat.
Proof.
  induction s as [|c s IH]; [done|]. simpl.
  destruct (c =? CR); [|simpl; lia].
  destruct s as [|d s]; [simpl; lia|]. destruct (d =? LF); simpl in *; lia.
Qed.

(** X1.  The runes that [readRune] delivers until it fails are the input with
    every CR LF replaced by LF; a CR that ends the input is lost, since
    [readRune] returns the error it met while looking for the LF. *)
Theorem readRunes_dos2unix (n : nat) (r : Reader) :
  readRunes (S (length (src r)) + n) r = dos2unix (src r).
Proof.
  assert (forall m r, (length (src r) < m)%nat -> readRunes m r = dos2unix (src r)) as Hgen.
  { clear. induction m as [|m IH]; intros r Hm; [lia|]. simpl.
    destruct (readRune r) as [[c err] r'] eqn:Hr. destruct err as [e|]; simpl.
    - by destruct (readRune_fails _ _ _ _ Hr) as (-> & _).
    - rewrite (readRune_delivers _ _ _ Hr). f_equal. apply IH.
      pose proof (readRune_shorter _ _ _ Hr). lia. }
  apply Hgen. lia.
Qed.

(** ** [skip] *)

Lemma skip_loop_spec n : forall r delim,
  (length (src r) < n)%nat ->
  exists err r',
    skip_loop n r delim = Some (err, r')
    /\ Comment r' = Comment r /\ line r' = line r /\ field r' = field r
    /\ srcerr r' = srcerr r
    /\ (err = None ->
        exists body, dos2unix (src r) = body ++ delim :: dos2unix (src r')
                     /\ (delim ∉ body)
                     /\ column r' = column r + Z.of_nat (length body) + 1)
    /\ (forall e, err = Some e ->
        e = srcerr r /\ (delim ∉ dos2unix (src r)) /\ src r' = []
        /\ column r' = column r + Z.of_nat (length (dos2unix (src r))) + 1).
Proof.
  induction n as [|n IH]; intros r delim Hn; [lia|]. rewrite skip_loop_S.
  destruct (readRune r) as [[c err] r1] eqn:Hr.
  destruct (readRune_frame _ _ _ _ Hr) as (HC & Hl & Hf & Hse & Hcol & _ & Hlt & _).
  destruct err as [e|]; cbn [is_nil negb].
  - destruct (readRune_fails _ _ _ _ Hr) as (Hd & Hs & _ & He).
    exists (Some e), r1. split; [done|]. do 4 (split; [done|]). split; [done|].
    intros e' [= <-]. rewrite Hd. split; [done|]. split; [apply not_elem_of_nil|].
    split; [done|]. simpl. lia.
  - pose proof (readRune_delivers _ _ _ Hr) as Hd. specialize (Hlt eq_refl).
    destruct (c =? delim) eqn:Hc.
    + apply Z.eqb_eq in Hc. subst c. exists None, r1. split; [done|].
      do 4 (split; [done|]). split; [|done]. intros _. exists [].
      split; [done|]. split; [apply not_elem_of_nil|]. simpl. lia.
    + apply Z.eqb_neq in Hc.
      destruct (IH r1 delim) as (err & r' & -> & HC' & Hl' & Hf' & Hse' & Hok & Hko); [lia|].
      exists err, r'. split; [done|]. do 4 (split; [congruence|]). split.
      * intros He. destruct (Hok He) as (body & Hb & Hnin & Hcol').
        exists (c :: body). split; [by rewrite Hd, Hb|]. split.
        -- intros [?|?]%elem_of_cons; [congruence|done].
        -- simpl length. lia.
      * intros e He. destruct (Hko e He) as (-> & Hnin & Hs & Hcol').
        split; [done|]. rewrite Hd. split.
        -- intros [?|?]%elem_of_cons; [congruence|done].
        -- split; [done|]. simpl length. lia.
Qed.

(** X2.  [skip] reads up to the first delimiter that [readRune] delivers and
    stops behind it; when there is none it uses up the input and returns
    the error of the stream.  The line number and the field are left
    alone, and the column counts every call of [readRune], the failing
    one included. *)
Theorem skip_spec (r : Reader) (delim : rune) :
  exists err r',
    skip r delim = Some (err, r')
    /\ line r' = line r /\ field r' = field r
    /\ (err = None <-> delim ∈ dos2unix (src r))
    /\ (err = None ->
        exists body, dos2unix (src r) = body ++ delim :: dos2unix (src r')
                     /\ (delim ∉ body)
                     /\ column r' = column r + Z.of_nat (length body) + 1)
    /\ (forall e, err = Some e ->
        e = srcerr r /\ src r' = []
        /\ column r' = column r + Z.of_nat (length (dos2unix (src r))) + 1).
Proof.
  destruct (skip_loop_spec (S (length (src r))) r delim)
    as (err & r' & Hs & _ & Hl & Hf & _ & Hok & Hko); [lia|].
  exists err, r'. split; [done|]. split; [done|]. split; [done|]. split.
  - split.
    + intros He. destruct (Hok He) as (body & -> & _). apply elem_of_app. right.
      apply elem_of_cons. by left.
    + intros Hin. destruct err as [e|]; [|done]. by destruct (Hko e eq_refl) as (_ & ? & _).
  - split; [done|]. intros e He. by destruct (Hko e He) as (? & _ & ? & ?).
Qed.

(** ** The scanner: fields, errors and progress *)

Section ScannerMore.
Context `{Nagioscfg}.

Lemma readRune_progress r c err r' :
  readRune r = (c, err, r') -> src r <> [] -> (length (src r') < length (src r))%nat.
Proof.
  destruct r as [C l il col f s e]. unfold readRune, ReadRune. simpl.
  destruct s as [|c0 s]; [done|]. simpl. intros Hr _.
  destruct (c0 =? CR).
  - destruct s as [|c1 s]; simpl in Hr.
    + injection Hr as <- <- <-. simpl. lia.
    + destruct (c1 =? LF); simpl in Hr; injection Hr as <- <- <-; simpl; lia.
  - destruct (c0 =? LF); injection Hr as <- <- <-; simpl; lia.
Qed.

Lemma parseFields_skip_field n : forall c err r c' err' r',
  parseFields_skip n c err r = Some (c', err', r') -> field r' = field r.
Proof.
  induction n as [|n IH]; intros c err r c' err' r'; simpl.
  - destruct (is_nil err && negb (c =? LF) && IsSpace c); [done|]. by intros [= <- <- <-].
  - destruct (is_nil err && negb (c =? LF) && IsSpace c); [|by intros [= <- <- <-]].
    destruct (readRune r) as [[c1 e1] r1] eqn:Hr. intros Hs.
    rewrite (IH _ _ _ _ _ _ Hs). by destruct (readRune_frame _ _ _ _ Hr) as (_&_&?&_).
Qed.

(** The field that [parseFields] leaves in the buffer has no white space,
    and [parseFields] consumes input whenever there is some, also when it
    fails. *)
Lemma parseFields_more r :
  exists hf d err r',
    parseFields r = Some (hf, d, err, r')
    /\ nospace (field r') = true
    /\ (src r <> [] -> (length (src r') < length (src r))%nat)
    /\ (hf = true -> d = 0 -> field r' = [] \/ (length (src r') < length (src r))%nat).
Proof.
  rewrite parseFields_unfold.
  destruct (readRune (set_field [] r)) as [[c0 e0] r0] eqn:Hr0.
  destruct (readRune_frame _ _ _ _ Hr0) as (_&_&Hf0&_&_&Hle0&_&_).
  assert (src (set_field [] r) = src r) as Hsrc by by destruct r.
  assert (field (set_field [] r) = []) as Hfld by by destruct r.
  rewrite Hsrc in Hle0. rewrite Hfld in Hf0.
  assert (src r <> [] -> (length (src r0) < length (src r))%nat) as Hp0.
  { intros Hne. rewrite <- Hsrc. eapply readRune_progress; [exact Hr0|by rewrite Hsrc]. }
  destruct (parseFields_skip_total (S (length (src r))) c0 e0 r0)
    as (c1 & e1 & r1 & Hsk & Hrd1 & _ & Hs2 & _ & _); [left; lia|].
  rewrite Hsk. pose proof (parseFields_skip_field _ _ _ _ _ _ _ Hsk) as Hf1.
  rewrite Hf0 in Hf1.
  assert (src r <> [] -> (length (src r1) < length (src r))%nat) as Hp1.
  { intros Hne. specialize (Hp0 Hne). destruct Hrd1 as (_&_&_&?). lia. }
  assert (length (src r1) <= length (src r))%nat as Hle1.
  { destruct Hrd1 as (_&_&_&?). lia. }
  destruct (is_EOF e1 && negb (column r1 =? 0)).
  { exists true, 0, e1, r1. rewrite Hf1. split; [done|]. split; [done|]. split; [done|]. by left. }
  destruct e1 as [e1|]; cbn [is_nil negb].
  { exists false, 0, (Some e1), r1. rewrite Hf1. scan_done. }
  destruct (c1 =? LF) eqn:H1; [exists false, c1, None, r1; rewrite Hf1; scan_done|].
  destruct (c1 =? TAB); [exists false, c1, None, r1; rewrite Hf1; scan_done|].
  destruct (c1 =? SPACE); [exists false, c1, None, r1; rewrite Hf1; scan_done|].
  destruct (c1 =? LBRACE); [exists false, c1, None, r1; rewrite Hf1; scan_done|].
  destruct (c1 =? RBRACE) eqn:H5.
  { exists true, c1, None, r1. rewrite Hf1. split; [done|]. split; [done|]. split; [done|].
    by left. }
  assert (IsSpace c1 = false) as Hc1.
  { destruct (Hs2 eq_refl) as [->|?]; [done|done]. }
  destruct (parseFields_accum_total (S (length (src r))) c1 r1)
    as (d & e2 & r2 & -> & Hrd2 & (more & Hm & Hall) & _ & _); [lia|done|].
  assert (nospace (field r2) = true) as Hns.
  { rewrite Hm, Hf1. unfold nospace. simpl. by rewrite Hc1, Hall. }
  assert (src r <> [] -> (length (src r2) < length (src r))%nat) as Hp2.
  { intros Hne. specialize (Hp1 Hne). destruct Hrd2 as (_&_&_&?). lia. }
  assert (src r <> []) as Hne.
  { intros Hnil. destruct r as [C l il col f s e]. simpl in Hnil. subst s.
    unfold set_field in Hr0. simpl in Hr0. rewrite readRune_end in Hr0.
    injection Hr0 as <- <- <-. by rewrite parseFields_skip_err in Hsk. }
  destruct e2 as [e2|]; cbn [is_nil negb].
  - destruct (is_EOF (Some e2)); eexists _, _, _, _; (split; [done|]);
      (split; [done|]); (split; [done|]); intros _ _; right; by apply Hp2.
  - exists true, d, None, r2. split; [done|]. split; [done|]. split; [done|].
    intros _ _. right. by apply Hp2.
Qed.

Lemma parseLine_loop_more n : forall r fields,
  (length (src r) < n)%nat -> forallb nospace fields = true ->
  exists fields' st err r',
    parseLine_loop n r fields = Some (fields', st, err, r')
    /\ forallb nospace fields' = true
    /\ (length (src r') <= length (src r))%nat
    /\ (src r <> [] -> (length (src r') < length (src r))%nat)
    /\ (forall e, err = Some e -> e <> io_EOF -> fields' = []).
Proof.
  induction n as [|n IH]; intros r fields Hn Hw; [lia|]. rewrite parseLine_loop_S.
  destruct (parseFields_more r) as (hf & d & err & r1 & Hpf & Hns & Hp & _).
  destruct (parseFields_total r) as (hf' & d' & err' & r1' & Hpf' & Hrd & Hlt & Herr & _).
  rewrite Hpf in Hpf'. injection Hpf' as <- <- <- <-. rewrite Hpf.
  set (fields1 := if hf then fields ++ [field r1] else fields).
  assert (forallb nospace fields1 = true) as Hw1.
  { unfold fields1. destruct hf; [|done]. by rewrite forallb_snoc, Hw, Hns. }
  assert (d <> 0 -> forall e, err = Some e -> e <> io_EOF -> fields1 = []) as Hnz.
  { intros Hd e He. by destruct (Herr e He). }
  assert (length (src r1) <= length (src r))%nat as Hle by (by destruct Hrd as (_&_&_&?)).
  destruct (d =? LBRACE) eqn:H1.
  { apply Z.eqb_eq in H1. exists fields1, IO_OBJ_BEGIN, err, r1.
    do 4 (split; [done|]). apply Hnz. by subst d. }
  destruct (d =? RBRACE) eqn:H2.
  { apply Z.eqb_eq in H2. exists fields1, IO_OBJ_END, err, r1.
    do 4 (split; [done|]). apply Hnz. by subst d. }
  destruct (d =? LF) eqn:H3.
  { apply Z.eqb_eq in H3. exists fields1, IO_OBJ_IN, err, r1.
    do 4 (split; [done|]). apply Hnz. by subst d. }
  destruct (is_EOF err) eqn:H4.
  { exists fields1, IO_OBJ_OUT, err, r1. do 4 (split; [done|]).
    intros e -> Hne. by destruct e. }
  destruct err as [e|]; cbn [is_nil negb].
  { exists [], IO_OBJ_OUT, (Some e), r1. done. }
  specialize (Hlt eq_refl).
  destruct (IH r1 fields1) as (f' & st & err & r' & -> & Hw' & Hle' & _ & He'); [lia|done|].
  exists f', st, err, r'. split; [done|]. split; [done|]. split; [lia|]. split; [|done]. lia.
Qed.

Lemma parseLine_more r :
  exists fields st err r',
    parseLine r = Some (fields, st, err, r')
    /\ forallb nospace fields = true
    /\ (src r <> [] -> (length (src r') < length (src r))%nat)
    /\ (src r = [] -> fields = [] /\ err = Some (srcerr r))
    /\ (forall e, err = Some e -> e <> io_EOF -> fields = []).
Proof.
  unfold parseLine. set (r0 := set_column (-1) (set_line (line r + 1) r)).
  assert (src r0 = src r) as Hsrc by by destruct r.
  assert (srcerr r0 = srcerr r) as Hse by by destruct r.
  unfold ReadRune. rewrite Hsrc. destruct (src r) as [|c s] eqn:Hs.
  { cbn [is_nil negb]. exists [], IO_OBJ_OUT, (Some (srcerr r0)), r0.
    rewrite Hse. done. }
  cbn [is_nil negb].
  destruct (negb (Comment r0 =? 0) && (c =? Comment r0)).
  - destruct (skip_total (set_src s r0) LF) as (err & r' & -> & (_&_&_&Hle) & _).
    exists [], IO_OBJ_OUT, err, r'. split; [done|]. split; [done|]. split; [|done].
    intros _. simpl in Hle. simpl. lia.
  - destruct (parseLine_loop_more (S (length (c :: s))) r0 [])
      as (f' & st & err & r' & -> & Hw & _ & Hp & He); [rewrite Hsrc; simpl; lia|done|].
    exists f', st, err, r'. split; [done|]. split; [done|]. rewrite Hsrc in Hp.
    split; [done|]. done.
Qed.

Lemma parseLine_facts r :
  exists fields st err r',
    parseLine r = Some (fields, st, err, r')
    /\ line r' = line r + 1 /\ Comment r' = Comment r /\ srcerr r' = srcerr r
    /\ forallb nospace fields = true
    /\ (forall e, err = Some e ->
          e = srcerr r /\ st = IO_OBJ_OUT /\ (e <> io_EOF -> fields = []))
    /\ (src r <> [] -> (length (src r') < length (src r))%nat)
    /\ (src r = [] -> fields = [] /\ err = Some (srcerr r)).
Proof.
  destruct (parseLine_more r) as (fields & st & err & r' & Hpl & Hns & Hp & Hnil & Hne).
  destruct (parseLine_total r) as (?&?&?&?& Hpl' & (HC & Hl & Hse & _) & _ & Herr & Hst & _).
  rewrite Hpl in Hpl'. injection Hpl' as <- <- <- <-.
  exists fields, st, err, r'. split; [done|].
  split; [rewrite Hl; by destruct r|]. split; [rewrite HC; by destruct r|].
  split; [rewrite Hse; by destruct r|]. split; [done|]. split; [|done].
  intros e He. split; [by apply Herr|]. split; [|by apply Hne].
  destruct st; [done| | |]; by rewrite Hst in He.
Qed.

End ScannerMore.

(** X3.  [parseLine] on any input: it moves to the next line whatever it
    finds, no field it returns has white space in it, an error is the
    error of the stream and makes the line one outside of any object, an
    error other than [io.EOF] comes without fields, and input is consumed
    whenever there is some. *)
Theorem parseLine_spec `{Nagioscfg} (r : Reader) :
  exists fields st err r',
    parseLine r = Some (fields, st, err, r')
    /\ line r' = line r + 1 /\ Comment r' = Comment r /\ srcerr r' = srcerr r
    /\ forallb nospace fields = true
    /\ (forall e, err = Some e ->
          e = srcerr r /\ st = IO_OBJ_OUT /\ (e <> io_EOF -> fields = []))
    /\ (src r <> [] -> (length (src r') < length (src r))%nat)
    /\ (src r = [] -> fields = [] /\ err = Some (srcerr r)).
Proof. apply parseLine_facts. Qed.

(** ** [Read]: errors, positions and the ledger *)

Section ReadMore.
Context `{Nagioscfg}.

Lemma Read_loop_errors setUUID fileID n : forall w r co prev res w' r',
  Read_loop n setUUID fileID w r co prev = Some (res, w', r') ->
  line r < line r'
  /\ forall x e, res = Return (x, Some e) ->
       x = None
       /\ (e = srcerr r
           \/ (e = ParseError (line r') (column r') ErrUnknown
               /\ (length (src r') < length (src r))%nat)).
Proof.
  induction n as [|n IH]; intros w r co prev res w' r'; [done|]. rewrite Read_loop_S.
  destruct (parseLine_facts r)
    as (fields & st & err & r1 & -> & Hl & _ & Hse & _ & Herr & Hp & Hnil).
  assert (forall w1 co1 prev1,
    Read_loop n setUUID fileID w1 r1 co1 prev1 = Some (res, w', r') -> err = None ->
    line r < line r'
    /\ forall x e, res = Return (x, Some e) ->
         x = None
         /\ (e = srcerr r
             \/ (e = ParseError (line r') (column r') ErrUnknown
                 /\ (length (src r') < length (src r))%nat))) as Hrec.
  { intros w1 co1 prev1 Hr He. destruct (IH _ _ _ _ _ _ _ Hr) as [Hl' Hx].
    split; [lia|]. intros x e Hres. destruct (Hx x e Hres) as [-> [->|[-> Hlt]]].
    - split; [done|]. by left.
    - split; [done|]. right. split; [done|].
      destruct (decide (src r = [])) as [Hs|Hs].
      + destruct (Hnil Hs) as [_ ?]. congruence.
      + specialize (Hp Hs). lia. }
  assert (forall w1 co1 prev1,
    (if negb (is_nil err) then Some (Return (None, err), w1, r1)
     else Read_loop n setUUID fileID w1 r1 co1 prev1) = Some (res, w', r') ->
    line r < line r'
    /\ forall x e, res = Return (x, Some e) ->
         x = None
         /\ (e = srcerr r
             \/ (e = ParseError (line r') (column r') ErrUnknown
                 /\ (length (src r') < length (src r))%nat))) as Hnext.
  { intros w1 co1 prev1. destruct err as [e0|]; cbn [is_nil negb].
    - intros [= <- <- <-]. split; [lia|]. intros x e [= <- <-]. split; [done|]. left.
      by destruct (Herr e0 eq_refl).
    - intros Hr. by eapply Hrec. }
  assert (fields <> [] ->
    Some (Return (@None CfgObj, Some (Reader_error r1 ErrUnknown)), w, r1) = Some (res, w', r') ->
    line r < line r'
    /\ forall x e, res = Return (x, Some e) ->
         x = None
         /\ (e = srcerr r
             \/ (e = ParseError (line r') (column r') ErrUnknown
                 /\ (length (src r') < length (src r))%nat))) as Hperr.
  { intros Hf [= <- <- <-]. split; [lia|]. intros x e [= <- <-]. split; [done|]. right.
    split; [done|]. apply Hp. intros Hs. by destruct (Hnil Hs). }
  destruct fields as [|f0 fields]; [by apply Hnext|]. cbv zeta.
  assert (err = None -> True) as _ by done.
  destruct st.
  - by apply Hperr.
  - assert (err = None) as He by (destruct err as [e|]; [by destruct (Herr e eq_refl) as (_&?&_)|done]).
    destruct (negb (IoState_eqb prev IO_OBJ_OUT)); [intros Hr; by eapply Hrec|].
    destruct ((f0 :: fields) !! 1%nat) as [name|].
    + destruct (decide (CfgName_Type name = T_INVALID)); [by apply Hperr|].
      destruct (Read_alloc setUUID fileID (CfgName_Type name) w) as [o w1]. by apply Hnext.
    + intros [= <- <- <-]. split; [lia|done].
  - assert (err = None) as He by (destruct err as [e|]; [by destruct (Herr e eq_refl) as (_&?&_)|done]).
    destruct co as [o|]; [|intros Hr; by eapply Hrec].
    destruct (length (f0 :: fields) <? 2)%nat; [intros Hr; by eapply Hrec|by apply Hnext].
  - intros [= <- <- <-]. split; [lia|done].
Qed.

Lemma CfgObj_Add_FileID k v o : co_FileID (CfgObj_Add k v o).1 = co_FileID o.
Proof. unfold CfgObj_Add. by destruct (co_Props o !! k). Qed.

(** Once an object is open, the loop of [Read] leaves the world alone, and
    the object it returns is the open one with properties added. *)
Lemma Read_loop_inside setUUID fileID n : forall w r co prev res w' r',
  prev <> IO_OBJ_OUT ->
  Read_loop n setUUID fileID w r co prev = Some (res, w', r') ->
  w' = w
  /\ forall o', res = Return (Some o', None) ->
       exists o, co = Some o /\ co_UUID o' = co_UUID o /\ co_FileID o' = co_FileID o
                 /\ co_Type o' = co_Type o.
Proof.
  induction n as [|n IH]; intros w r co prev res w' r' Hprev; [done|]. rewrite Read_loop_S.
  destruct (parseLine r) as [[[[fields st] err] r1]|]; [|done].
  assert (forall co1,
    (forall o1, co1 = Some o1 ->
       exists o, co = Some o /\ co_UUID o1 = co_UUID o /\ co_FileID o1 = co_FileID o
                 /\ co_Type o1 = co_Type o) ->
    (if negb (is_nil err) then Some (Return (None, err), w, r1)
     else Read_loop n setUUID fileID w r1 co1 prev) = Some (res, w', r') ->
    w' = w
    /\ forall o', res = Return (Some o', None) ->
         exists o, co = Some o /\ co_UUID o' = co_UUID o /\ co_FileID o' = co_FileID o
                   /\ co_Type o' = co_Type o) as Hnext.
  { intros co1 Hco1. destruct err as [e|]; cbn [is_nil negb].
    - by intros [= <- <- <-].
    - intros Hr. destruct (IH _ _ _ _ _ _ _ Hprev Hr) as [-> Ho]. split; [done|].
      intros o' Hres. destruct (Ho o' Hres) as (o1 & -> & Hu & Hf & Ht).
      destruct (Hco1 o1 eq_refl) as (o & -> & Hu' & Hf' & Ht'). exists o.
      split; [done|]. split; [congruence|]. split; congruence. }
  assert (forall o1, co = Some o1 ->
       exists o, co = Some o /\ co_UUID o1 = co_UUID o /\ co_FileID o1 = co_FileID o
                 /\ co_Type o1 = co_Type o) as Hsame by (intros o1 ->; by exists o1).
  destruct fields as [|f0 fields]; [by apply Hnext|]. cbv zeta.
  destruct st.
  - by intros [= <- <- <-].
  - destruct (IoState_eqb prev IO_OBJ_OUT) eqn:Hp; [by destruct prev|]. cbn [negb].
    by apply IH.
  - destruct co as [o|]; [|by apply IH].
    destruct (length (f0 :: fields) <? 2)%nat; [by apply IH|].
    apply Hnext. intros o1 [= <-]. exists o. split; [done|].
    by rewrite CfgObj_Add_UUID, CfgObj_Add_FileID, CfgObj_Add_Type.
  - intros [= <- <- <-]. split; [done|]. intros o' [= ->]. by exists o'.
Qed.

(** With no object open, the loop of [Read] allocates at most once. *)
Lemma Read_loop_outside setUUID fileID n : forall w r res w' r',
  Read_loop n setUUID fileID w r None IO_OBJ_OUT = Some (res, w', r') ->
  (w' = w /\ forall o', res <> Return (Some o', None))
  \/ exists ct, ct <> T_INVALID /\ w' = (Read_alloc setUUID fileID ct w).2
       /\ forall o', res = Return (Some o', None) ->
            co_UUID o' = co_UUID (Read_alloc setUUID fileID ct w).1
            /\ co_FileID o' = co_FileID (Read_alloc setUUID fileID ct w).1
            /\ co_Type o' = ct.
Proof.
  induction n as [|n IH]; intros w r res w' r'; [done|]. rewrite Read_loop_S.
  destruct (parseLine r) as [[[[fields st] err] r1]|]; [|done].
  assert ((if negb (is_nil err) then Some (Return (@None CfgObj, err), w, r1)
           else Read_loop n setUUID fileID w r1 None IO_OBJ_OUT) = Some (res, w', r') ->
    (w' = w /\ forall o', res <> Return (Some o', None))
    \/ exists ct, ct <> T_INVALID /\ w' = (Read_alloc setUUID fileID ct w).2
         /\ forall o', res = Return (Some o', None) ->
              co_UUID o' = co_UUID (Read_alloc setUUID fileID ct w).1
              /\ co_FileID o' = co_FileID (Read_alloc setUUID fileID ct w).1
              /\ co_Type o' = ct) as Hnext.
  { destruct err as [e|]; cbn [is_nil negb]; [|by apply IH].
    intros [= <- <- <-]. by left. }
  destruct fields as [|f0 fields]; [by apply Hnext|]. cbv zeta.
  destruct st.
  - intros [= <- <- <-]. by left.
  - cbn [IoState_eqb negb]. destruct ((f0 :: fields) !! 1%nat) as [name|].
    + destruct (decide (CfgName_Type name = T_INVALID)) as [|Hty];
        [intros [= <- <- <-]; by left|].
      destruct (Read_alloc setUUID fileID (CfgName_Type name) w) as [o w1] eqn:Ha.
      intros Hr. right. exists (CfgName_Type name). split; [done|]. rewrite Ha. simpl.
      destruct (Read_alloc_ledger _ _ _ _ _ _ Ha) as (_ & Hty0 & _).
      destruct err as [e|]; cbn [is_nil negb] in Hr.
      * by injection Hr as <- <- <-.
      * destruct (Read_loop_inside setUUID fileID n w1 r1 (Some o) IO_OBJ_BEGIN res w' r'
                    ltac:(done) Hr) as [-> Ho].
        split; [done|]. intros o' Hres. destruct (Ho o' Hres) as (o1 & [= <-] & ? & ? & ?).
        split; [done|]. split; [done|]. congruence.
    + intros [= <- <- <-]. by left.
  - by apply IH.
  - intros [= <- <- <-]. by left.
Qed.

End ReadMore.

(** X4.  Every error that [Read] returns is either the error of the underlying
    stream, passed on as it is, or a [ParseError] that wraps [ErrUnknown]
    and carries the line and the column at which the reader stands; an
    error never comes with an object, and [ErrNoValue] is never returned
    by [Read] itself.  Every call moves to a later line, and a call that
    returns without an error, or with a [ParseError], has consumed
    input. *)
Theorem Read_errors `{Nagioscfg} (setUUID : bool) (fileID : str) (w : World) (r : Reader) :
  exists res w' r',
    Read setUUID fileID w r = Some (res, w', r')
    /\ line r < line r' /\ srcerr r' = srcerr r /\ Comment r' = Comment r
    /\ (forall x e, res = Return (x, Some e) ->
          x = None
          /\ (e = srcerr r
              \/ (e = ParseError (line r') (column r') ErrUnknown
                  /\ (length (src r') < length (src r))%nat)))
    /\ (forall x, res = Return (x, None) -> (length (src r') < length (src r))%nat).
Proof.
  destruct (Read_total setUUID fileID w r) as ([[res w'] r'] & Hr & HC & Hse & _ & _ & Hp & _).
  exists res, w', r'. split; [done|].
  destruct (Read_loop_errors _ _ _ _ _ _ _ _ _ _ Hr) as [Hl He].
  split; [done|]. split; [done|]. split; [done|]. split; [done|]. exact Hp.
Qed.


(** X6.  The objects that [Read] returns: the type is never [T_INVALID], the
    origin file is the one given when one is given, every key is a field
    (not empty, without white space, not starting with a brace), every
    value is one field or more joined by single spaces, and indentation,
    alignment and comment are those of a new object. *)
Theorem Read_object_shape `{Nagioscfg} (setUUID : bool) (fileID : str) (w : World) (r : Reader) :
  exists res w' r',
    Read setUUID fileID w r = Some (res, w', r')
    /\ forall o, res = Return (Some o, None) ->
         co_Type o <> T_INVALID
         /\ (fileID <> [] -> co_FileID o = fileID)
         /\ (forall k v, co_Props o !! k = Some v ->
               wordb k = true /\ exists ws, valueb_of ws v)
         /\ co_Indent o = DEF_INDENT /\ co_Align o = DEF_ALIGN /\ co_Comment o = [].
Proof.
  destruct (Read_total setUUID fileID w r) as ([[res w'] r'] & Hr & _).
  exists res, w', r'. split; [done|]. intros o ->.
  pose proof (Read_produced _ _ _ _ _ _ _ Hr) as (Hp & Hi & Ha & Hc).
  unfold Read in Hr.
  destruct (Read_loop_outside _ _ _ _ _ _ _ _ Hr) as [[_ Hno]|(ct & Hct & _ & Ho)].
  { by destruct (Hno o). }
  destruct (Ho o eq_refl) as (_ & Hf & Ht).
  split; [congruence|]. split; [|done]. intros Hne. rewrite Hf.
  unfold Read_alloc, NewCfgObjWithUUID.
  rewrite bool_decide_eq_false_2 by done. cbn [negb].
  destruct setUUID; [destruct (NewUUID (uuidsrc w))|]; done.
Qed.

(** ** [Read] at the edges of the input format *)

Section ReadEdges.
Context `{Nagioscfg}.




End ReadEdges.

(** X7.  On an input of blank lines and comment lines only, each ended by a
    newline, [Read] returns the error of the stream ([io.EOF] for a file)
    and no object, having counted every line and the failed attempt to
    read one more. *)
Theorem Read_only_fillers `{Nagioscfg} (fls : list Filler) (setUUID : bool) (fileID : str)
    (w : World) (r : Reader) :
  forallb Filler_wf fls = true -> Comment r = HASH ->
  src r = List.concat (map Filler_text fls) ->
  exists r',
    Read setUUID fileID w r = Some (Return (None, Some (srcerr r)), w, r')
    /\ line r' = line r + Z.of_nat (length fls) + 1 /\ src r' = [].
Proof.
  intros Hwf HC Hs.
  destruct (Read_loop_Fillers fls 1 setUUID fileID w r None IO_OBJ_OUT [] Hwf HC)
    as (ra & Ha & HCa & Hla & Hea & Hsa); [by rewrite app_nil_r|].
  rewrite (Reader_eta ra _ _ HCa Hsa), Read_loop_S, parseLine_end in Ha.
  cbn [is_nil negb] in Ha. apply Read_loop_Read in Ha. eexists. rewrite Hea in Ha.
  split; [exact Ha|]. simpl. split; [lia|done].
Qed.




(** ** [ReadAllList], [ReadAllMap] and [ReadChan] *)

Section CollectorFacts.
Context `{Nagioscfg}.

Lemma CfgMap_of_snoc l o : CfgMap_of (l ++ [o]) = <[co_UUID o := o]> (CfgMap_of l).
Proof. unfold CfgMap_of. by rewrite foldl_app. Qed.

Lemma ReadAllList_loop_S n setUUID fileID w r l :
  ReadAllList_loop (S n) setUUID fileID w r l =
  match Read setUUID fileID w r with
  | None => None
  | Some (Panic, w, r) => Some (Panic, w, r)
  | Some (Return (obj, err), w, r) =>
    let l :=
      match obj with
      | Some o => if is_nil err then l ++ [o] else l
      | None => l
      end in
    if negb (is_nil err) then
      if negb (is_EOF err) then Some (Return (l, err), w, r)
      else Some (Return (l, None), w, r)
    else ReadAllList_loop n setUUID fileID w r l
  end.
Proof. reflexivity. Qed.

Lemma ReadAllMap_loop_list n : forall fileID w r l,
  ReadAllMap_loop n fileID w r (CfgMap_of l)
  = match ReadAllList_loop n true fileID w r l with
    | Some (Return (l', err), w', r') => Some (Return (CfgMap_of l', err), w', r')
    | Some (Panic, w', r') => Some (Panic, w', r')
    | None => None
    end.
Proof.
  induction n as [|n IH]; intros fileID w r l; [done|]. simpl.
  destruct (Read true fileID w r) as [[[[[obj err]|] w1] r1]|]; [|done|done].
  destruct err as [e|]; cbn [is_nil negb].
  - destruct obj; by destruct (is_EOF (Some e)).
  - destruct obj as [o|]; [|apply IH]. rewrite <- CfgMap_of_snoc. apply IH.
Qed.

Lemma ReadAllList_loop_total n : forall setUUID fileID w r l,
  (length (src r) < n)%nat ->
  exists res w' r', ReadAllList_loop n setUUID fileID w r l = Some (res, w', r').
Proof.
  induction n as [|n IH]; intros setUUID fileID w r l Hn; [lia|]. simpl.
  destruct (Read_total setUUID fileID w r) as ([[res w1] r1] & -> & _ & _ & _ & _ & Hp & _).
  simpl in Hp. destruct res as [[obj err]|]; [|by eexists _, _, _].
  destruct err as [e|]; cbn [is_nil negb].
  - destruct (negb (is_EOF (Some e))); by eexists _, _, _.
  - specialize (Hp _ eq_refl). apply IH. lia.
Qed.

(** The loops of [ReadAllList] and of the producer of [ReadChan] side by
    side: what the producer has done when [ReadAllList] returns. *)
Lemma ReadAllList_loop_ReadChan n : forall setUUID fileID w r l l' err w' r',
  ReadAllList_loop n setUUID fileID w r l = Some (Return (l', err), w', r') ->
  exists k t,
    (k <= n)%nat
    /\ ReadChan_loop k setUUID fileID w r
       = Some (t ++ match err with Some e => [EvLog e] | None => [EvClose] end,
               match err with Some _ => Running | None => Finished end, w', r')
    /\ l' = l ++ sent t /\ (forall e, EvLog e ∉ t)
    /\ (forall e, err = Some e -> e <> io_EOF).
Proof.
  induction n as [|n IH]; intros setUUID fileID w r l l' err w' r'; [done|]. simpl.
  destruct (Read setUUID fileID w r) as [[[[[obj e0]|] w1] r1]|] eqn:Hread; [|done|done].
  destruct e0 as [e0|]; cbn [is_nil negb].
  - assert ((match obj with Some _ => l | None => l end) = l) as Hl by (by destruct obj).
    rewrite Hl.
    destruct (is_EOF (Some e0)) eqn:Heof; cbn [negb]; intros [= <- <- <- <-].
    + exists 1%nat, [EvRead (Return (obj, Some e0))]. split; [lia|]. simpl.
      rewrite Hread, Heof. cbn [negb is_nil].
      split; [by destruct obj|]. split; [by rewrite app_nil_r|]. split; [|done].
      intros e [?|?%elem_of_nil]%elem_of_cons; done.
    + exists 1%nat, [EvRead (Return (obj, Some e0))]. split; [lia|]. simpl.
      rewrite Hread, Heof. cbn [negb is_nil].
      split; [by destruct obj|]. split; [by rewrite app_nil_r|]. split.
      * intros e [?|?%elem_of_nil]%elem_of_cons; done.
      * intros e [= <-]. by apply is_EOF_false.
  - intros Hloop. destruct (IH _ _ _ _ _ _ _ _ _ Hloop) as (k & t & Hk & Hchan & Hl' & Hlog & He).
    exists (S k), (EvRead (Return (obj, None))
                   :: match obj with Some o => [EvSend o] | None => [] end ++ t).
    split; [lia|]. simpl. rewrite Hread, Hchan. split.
    + destruct obj; by rewrite <- ?app_assoc.
    + split; [|split; [|done]].
      * rewrite Hl'. destruct obj; simpl; by rewrite <- ?app_assoc.
      * intros e [?|Hin]%elem_of_cons; [done|]. apply elem_of_app in Hin as [Hin|Hin].
        -- destruct obj; [apply list_elem_of_singleton in Hin; done|by apply elem_of_nil in Hin].
        -- by apply (Hlog e).
Qed.

(** As long as the stream does not end with [io.EOF], the producer does not
    close the channel. *)
Lemma ReadChan_loop_open n : forall setUUID fileID w r,
  srcerr r <> io_EOF ->
  exists t p w' r',
    ReadChan_loop n setUUID fileID w r = Some (t, p, w', r')
    /\ p <> Finished /\ (EvClose ∉ t)
    /\ (src r = [] ->
        t = List.concat (replicate n [EvRead (Return (None, Some (srcerr r))); EvLog (srcerr r)])
        /\ p = Running /\ w' = w).
Proof.
  induction n as [|n IH]; intros setUUID fileID w r He.
  { eexists _, _, _, _. split; [done|]. split; [done|]. split; [apply not_elem_of_nil|done]. }
  simpl.
  destruct (Read_total setUUID fileID w r) as ([[res w1] r1] & Hr & _ & Hse & Hle & _).
  rewrite Hr. simpl in Hse, Hle.
  destruct res as [[obj err]|].
  2:{ eexists _, _, _, _. split; [done|]. split; [done|]. split.
      - intros [?|?%elem_of_nil]%elem_of_cons; done.
      - intros Hs. destruct (Read_loop_end (length (src r)) setUUID fileID w r None IO_OBJ_OUT Hs)
          as (r2 & Hr2). unfold Read in Hr. congruence. }
  destruct (IH setUUID fileID w1 r1) as (t & p & w2 & r2 & Ht & Hp & Hcl & Hnil);
    [congruence|].
  destruct (Read_loop_errors _ _ _ _ _ _ _ _ _ _ Hr) as [_ Herr].
  assert (src r = [] -> obj = None /\ err = Some (srcerr r) /\ w1 = w /\ src r1 = []) as Hend.
  { intros Hs. destruct (Read_loop_end (length (src r)) setUUID fileID w r None IO_OBJ_OUT Hs)
      as (r3 & Hr3). unfold Read in Hr. rewrite Hr3 in Hr. injection Hr as <- <- <- <-.
    split; [done|]. split; [done|]. split; [done|]. rewrite Hs in Hle.
    destruct (src r3); [done|simpl in Hle; lia]. }
  destruct err as [e|].
  - destruct (Herr obj e eq_refl) as [-> Hcase].
    assert (e <> io_EOF) as Hne by (destruct Hcase as [->|[-> _]]; done).
    apply is_EOF_false in Hne. rewrite Hne. cbn [negb]. rewrite Ht.
    eexists _, _, _, _. split; [done|]. split; [done|]. split.
    + simpl. intros [?|[?|?]%elem_of_cons]%elem_of_cons; done.
    + intros Hs. destruct (Hend Hs) as (_ & [= ->] & -> & Hs1).
      destruct (Hnil Hs1) as (-> & -> & ->). simpl. by rewrite Hse.
  - rewrite Ht. eexists _, _, _, _. split; [done|]. split; [done|]. split.
    + intros [?|Hin]%elem_of_cons; [done|]. apply elem_of_app in Hin as [Hin|Hin]; [|done].
      destruct obj; [apply list_elem_of_singleton in Hin; done|by apply elem_of_nil in Hin].
    + intros Hs. by destruct (Hend Hs) as (_ & ? & _).
Qed.

(** On a stream that ends with [io.EOF] the producer comes to an end. *)
Lemma ReadChan_loop_ends k : forall setUUID fileID w r,
  srcerr r = io_EOF -> (length (src r) < k)%nat ->
  exists n t p w' r',
    (n <= k)%nat
    /\ ReadChan_loop n setUUID fileID w r = Some (t, p, w', r')
    /\ (p = Finished \/ p = Crashed).
Proof.
  induction k as [|k IH]; intros setUUID fileID w r He Hk; [lia|].
  destruct (Read_total setUUID fileID w r) as ([[res w1] r1] & Hr & _ & Hse & Hle & _ & Hp & _).
  simpl in Hse, Hle, Hp.
  destruct (Read_loop_errors _ _ _ _ _ _ _ _ _ _ Hr) as [_ Herr].
  destruct res as [[obj err]|].
  2:{ exists 1%nat. simpl. rewrite Hr. eexists _, _, _, _. split; [lia|]. split; [done|].
      by right. }
  assert (forall e, err = Some e -> e <> io_EOF -> (length (src r1) < length (src r))%nat)
    as Hcons.
  { intros e -> Hne. destruct (Herr obj e eq_refl) as [_ [->|[_ ?]]]; [congruence|done]. }
  destruct err as [e|].
  - destruct (is_EOF (Some e)) eqn:Heof.
    + exists 1%nat. simpl. rewrite Hr, Heof. cbn [negb].
      eexists _, _, _, _. split; [lia|]. split; [done|]. by left.
    + pose proof Heof as Hne. apply is_EOF_false in Hne. specialize (Hcons e eq_refl Hne).
      destruct (IH setUUID fileID w1 r1) as (n & t & p & w2 & r2 & Hn & Ht & Hfin);
        [congruence|lia|].
      exists (S n). simpl. rewrite Hr, Heof. cbn [negb]. rewrite Ht.
      eexists _, _, _, _. split; [lia|]. split; [done|]. done.
  - specialize (Hp obj eq_refl).
    destruct (IH setUUID fileID w1 r1) as (n & t & p & w2 & r2 & Hn & Ht & Hfin);
      [congruence|lia|].
    exists (S n). simpl. rewrite Hr, Ht.
    eexists _, _, _, _. split; [lia|]. split; [done|]. done.
Qed.

End CollectorFacts.

(** X11.  [ReadAllMap] returns what [ReadAllList] returns when identities are
    requested, with the objects entered under their UUIDs in the order in
    which they were read (a later object replaces an earlier one with the
    same UUID): the same error, the same ledger and the same reader. *)
Theorem ReadAllMap_ReadAllList `{Nagioscfg} (fileID : str) (w : World) (r : Reader) :
  ReadAllMap fileID w r
  = match ReadAllList true fileID w r with
    | Some (Return (l, err), w', r') => Some (Return (CfgMap_of l, err), w', r')
    | Some (Panic, w', r') => Some (Panic, w', r')
    | None => None
    end.
Proof. apply (ReadAllMap_loop_list _ fileID w r []). Qed.

(** X12.  [ReadAllList] terminates; when it ends without an error, the producer
    of [ReadChan] sends the same objects in the same order, logs nothing
    and closes the channel; when it ends with an error, the producer has
    sent the same objects and logged that error at that point, and it
    goes on reading where [ReadAllList] gave up. *)
Theorem ReadChan_ReadAllList `{Nagioscfg} (setUUID : bool) (fileID : str) (w : World)
    (r : Reader) :
  exists res w' r',
    ReadAllList setUUID fileID w r = Some (res, w', r')
    /\ forall l err, res = Return (l, err) ->
         exists k t,
           ReadChan_loop k setUUID fileID w r
           = Some (t ++ match err with Some e => [EvLog e] | None => [EvClose] end,
                   match err with Some _ => Running | None => Finished end, w', r')
           /\ sent t = l /\ (forall e, EvLog e ∉ t)
           /\ (forall e, err = Some e -> e <> io_EOF).
Proof.
  destruct (ReadAllList_loop_total (S (length (src r))) setUUID fileID w r [])
    as (res & w' & r' & Hl); [lia|].
  exists res, w', r'. split; [done|]. intros l err ->.
  destruct (ReadAllList_loop_ReadChan _ _ _ _ _ _ _ _ _ _ Hl) as (k & t & _ & Hc & Hs & Hlog & He).
  by exists k, t.
Qed.

(** X13.  The producer of [ReadChan] closes the channel only when the stream
    ends with [io.EOF]: over a stream that fails with another error it
    never does, and once the input is used up it logs that error at every
    turn of its loop, for ever. *)
Theorem ReadChan_never_closes `{Nagioscfg} (n : nat) (setUUID : bool) (fileID : str)
    (w : World) (r : Reader) :
  srcerr r <> io_EOF ->
  exists t p w' r',
    ReadChan_loop n setUUID fileID w r = Some (t, p, w', r')
    /\ p <> Finished /\ (EvClose ∉ t)
    /\ (src r = [] ->
        t = List.concat (replicate n [EvRead (Return (None, Some (srcerr r))); EvLog (srcerr r)])
        /\ p = Running /\ w' = w).
Proof. apply ReadChan_loop_open. Qed.

(** X14.  Over a stream that ends with [io.EOF] the producer of [ReadChan] stops
    after at most one call of [Read] per rune of input and one more: the
    channel is closed, unless [Read] panics. *)
Theorem ReadChan_finishes `{Nagioscfg} (setUUID : bool) (fileID : str) (w : World)
    (r : Reader) :
  srcerr r = io_EOF ->
  exists n t p w' r',
    (n <= S (length (src r)))%nat
    /\ ReadChan_loop n setUUID fileID w r = Some (t, p, w', r')
    /\ (p = Finished \/ p = Crashed).
Proof. intros He. apply ReadChan_loop_ends; [done|lia]. Qed.

(** ** Files of several blocks *)

Section Files.
Context `{Nagioscfg}.

(** One call of [Read] on a block that is followed by more input: the
    object, and the reader left behind the block-close rune. *)
Lemma Read_block_rest pre b rest setUUID fileID w r :
  forallb Filler_wf pre = true -> Block_wf b = true -> Comment r = HASH ->
  src r = List.concat (map Filler_text pre) ++ Block_text b ++ rest ->
  exists o r',
    Read setUUID fileID w r
    = Some (Return (Some o, None),
            (Read_alloc setUUID fileID (CfgName_Type (h_type (b_header b))) w).2, r')
    /\ co_Type o = CfgName_Type (h_type (b_header b))
    /\ co_Props o = list_to_map (Body_props (b_body b))
    /\ co_UUID o = co_UUID (Read_alloc setUUID fileID (CfgName_Type (h_type (b_header b))) w).1
    /\ co_FileID o
       = co_FileID (Read_alloc setUUID fileID (CfgName_Type (h_type (b_header b))) w).1
    /\ Comment r' = HASH /\ srcerr r' = srcerr r
    /\ src r' = List.concat (map Filler_text (b_after b)) ++ rest.
Proof.
  intros Hpre Hwf HC Hs. unfold Block_wf in Hwf.
  apply andb_prop in Hwf as [Hwf Hafter]. apply andb_prop in Hwf as [Hwf Hclose].
  apply andb_prop in Hwf as [Hwf Hnodup]. apply andb_prop in Hwf as [Hwf Hbody].
  apply andb_prop in Hwf as [Hwf Hty]. apply andb_prop in Hwf as [Hbefore Hhdr].
  apply negb_true_iff, bool_decide_eq_false in Hty.
  destruct b as [before h body close after]. unfold Block_text in Hs. simpl in *.
  set (ct := CfgName_Type (h_type h)) in *.
  set (o0 := (Read_alloc setUUID fileID ct w).1).
  set (w1 := (Read_alloc setUUID fileID ct w).2).
  rewrite <- !app_assoc in Hs.
  destruct (Read_loop_Fillers pre (length before + S (length body + 1)) setUUID fileID w r
              None IO_OBJ_OUT _ Hpre HC Hs) as (r0 & H0 & HC0 & _ & He0 & Hs0).
  destruct (Read_loop_Fillers before (S (length body + 1)) setUUID fileID w r0
              None IO_OBJ_OUT _ Hbefore HC0 Hs0) as (ra & Ha & HCa & _ & Hea & Hsa).
  destruct (Read_loop_Header h (length body + 1) setUUID fileID w ra None _ Hhdr Hty HCa Hsa)
    as (rb & Hb & HCb & _ & Heb & Hsb).
  fold ct in Hb. fold o0 in Hb. fold w1 in Hb.
  destruct (Read_loop_Body body 1 setUUID fileID w1 rb o0 IO_OBJ_BEGIN _ Hbody HCb Hsb)
    as (rc & Hc & HCc & _ & Hec & Hsc).
  destruct (Read_loop_close close 0 setUUID fileID w1 rc
              (Some (add_props (Body_props body) o0)) IO_OBJ_BEGIN _ Hclose HCc Hsc)
    as (rd & Hd & HCd & _ & Hed & Hsd).
  rewrite Hd in Hc. rewrite Hc in Hb. rewrite Hb in Ha. rewrite Ha in H0.
  apply Read_loop_Read in H0.
  destruct (Read_alloc_ledger _ _ _ _ _ _ (surjective_pairing (Read_alloc setUUID fileID ct w)))
    as (_ & Hty0 & Hpr0 & _).
  fold o0 in Hty0, Hpr0.
  exists (add_props (Body_props body) o0), rd. split; [exact H0|].
  rewrite add_props_Type, add_props_Props, Hpr0, (left_id_L ∅ (∪)).
  split; [done|]. split; [done|]. split.
  { clear. generalize (Body_props body) o0. intros kvs. induction kvs as [|kv kvs IH]; intros o; [done|].
    unfold add_props in *. simpl. by rewrite IH, CfgObj_Add_UUID. }
  split.
  { clear. generalize (Body_props body) o0. intros kvs. induction kvs as [|kv kvs IH]; intros o; [done|].
    unfold add_props in *. simpl. by rewrite IH, CfgObj_Add_FileID. }
  split; [done|]. split; [congruence|done].
Qed.

Lemma Block_text_length bs : (length bs <= length (List.concat (map Block_text bs)))%nat.
Proof.
  induction bs as [|b bs IH]; [done|]. simpl. rewrite length_app. unfold Block_text at 1.
  rewrite !length_app. simpl. lia.
Qed.

Lemma ReadAllList_loop_blocks bs : forall n pre setUUID fileID w r l,
  forallb Filler_wf pre = true -> forallb Block_wf bs = true -> Comment r = HASH ->
  src r = List.concat (map Filler_text pre) ++ List.concat (map Block_text bs) ->
  (length bs < n)%nat ->
  exists objs w' r',
    ReadAllList_loop n setUUID fileID w r l
    = Some (Return (l ++ objs, if is_EOF (Some (srcerr r)) then None else Some (srcerr r)),
            w', r')
    /\ Forall2 (Block_object fileID) bs objs
    /\ uuidorder w' = uuidorder w ++ (if setUUID then map co_UUID objs else [])
    /\ src r' = [].
Proof.
  induction bs as [|b bs IH]; intros n pre setUUID fileID w r l Hpre Hwf HC Hs Hn.
  - destruct n as [|n]; [simpl in Hn; lia|]. simpl in Hs. rewrite app_nil_r in Hs.
    destruct (Read_loop_Fillers pre 1 setUUID fileID w r None IO_OBJ_OUT [] Hpre HC)
      as (ra & Ha & HCa & _ & Hea & Hsa); [by rewrite app_nil_r|].
    rewrite (Reader_eta ra _ _ HCa Hsa), Read_loop_S, parseLine_end in Ha.
    cbn [is_nil negb] in Ha. apply Read_loop_Read in Ha.
    rewrite ReadAllList_loop_S, Ha, Hea. cbv zeta.
    cbn [is_nil negb]. exists []. rewrite app_nil_r.
    destruct (is_EOF (Some (srcerr r))); cbn [negb]; eexists _, _; (split; [done|]);
      (split; [constructor|]); (split; [|done]); destruct setUUID; by rewrite app_nil_r.
  - destruct n as [|n]; [simpl in Hn; lia|]. simpl in Hwf.
    apply andb_prop in Hwf as [Hb Hwf]. simpl in Hs.
    destruct (Read_block_rest pre b _ setUUID fileID w r Hpre Hb HC Hs)
      as (o & r1 & Hread & Hty & Hprops & Hu & Hf & HC1 & He1 & Hs1).
    rewrite ReadAllList_loop_S, Hread. cbv zeta. cbn [is_nil negb].
    assert (forallb Filler_wf (b_after b) = true) as Hafter.
    { unfold Block_wf in Hb. by apply andb_prop in Hb as [_ ?]. }
    set (ct := CfgName_Type (h_type (b_header b))) in *.
    destruct (IH n (b_after b) setUUID fileID (Read_alloc setUUID fileID ct w).2 r1 (l ++ [o])
                Hafter Hwf HC1 Hs1) as (objs & w' & r' & Hloop & Hall & Hled & Hsrc);
      [simpl in Hn; lia|].
    exists (o :: objs), w', r'. rewrite Hloop, He1, <- app_assoc. split; [done|].
    split; [|split; [|done]].
    + constructor; [|done]. split; [done|]. split; [done|]. intros Hne. rewrite Hf.
      unfold Read_alloc, NewCfgObjWithUUID. rewrite bool_decide_eq_false_2 by done.
      cbn [negb]. destruct setUUID; [destruct (NewUUID (uuidsrc w))|]; done.
    + rewrite Hled.
      destruct (Read_alloc_ledger _ _ _ _ _ _
                  (surjective_pairing (Read_alloc setUUID fileID ct w))) as (-> & _).
      rewrite <- app_assoc. f_equal. destruct setUUID; [|done]. simpl. by rewrite Hu.
Qed.

End Files.

(** X15.  A file of well-formed blocks, one after the other: [ReadAllList]
    returns one object for each block, in the order of the file, with the
    type and the properties of its block; when identities are requested
    the ledger grows by the UUIDs of these objects, in that order. *)
Theorem ReadAllList_blocks `{Nagioscfg} (bs : list Block) (setUUID : bool) (fileID : str)
    (w : World) :
  forallb Block_wf bs = true ->
  exists objs w' r',
    ReadAllList setUUID fileID w (NewReader (List.concat (map Block_text bs)))
    = Some (Return (objs, None), w', r')
    /\ Forall2 (Block_object fileID) bs objs
    /\ uuidorder w' = uuidorder w ++ (if setUUID then map co_UUID objs else [])
    /\ src r' = [].
Proof.
  intros Hwf.
  destruct (ReadAllList_loop_blocks bs (S (length (List.concat (map Block_text bs)))) []
              setUUID fileID w (NewReader (List.concat (map Block_text bs))) [])
    as (objs & w' & r' & Hl & Hall & Hled & Hs); try done.
  { pose proof (Block_text_length bs). lia. }
  by exists objs, w', r'.
Qed.

(** ** [PrintPropsSorted] *)

Section SortedFacts.
Context `{Nagioscfg}.
Variable rank : str -> CfgType -> Z.

Lemma keypri_snoc ty order kv :
  keypri rank ty (order ++ [kv]) = <[rank kv.1 ty := kv.1]> (keypri rank ty order).
Proof. unfold keypri. by rewrite foldl_snoc. Qed.

(** Every entry of [keypri] is a key of the object under its rank. *)
Lemma keypri_lookup ty order p k :
  keypri rank ty order !! p = Some k -> rank k ty = p /\ exists v, (k, v) ∈ order.
Proof.
  induction order as [|[k0 v0] order IH] using rev_ind; [done|].
  rewrite keypri_snoc. simpl. destruct (decide (rank k0 ty = p)) as [<-|Hne].
  - rewrite lookup_insert_eq. intros [= <-]. split; [done|]. exists v0.
    apply elem_of_app. right. by apply list_elem_of_singleton.
  - rewrite lookup_insert_ne by done. intros Hp. destruct (IH Hp) as [? [v Hv]].
    split; [done|]. exists v. apply elem_of_app. by left.
Qed.

(** Every rank of a key of the object has an entry. *)
Lemma keypri_covers ty order k v :
  (k, v) ∈ order -> is_Some (keypri rank ty order !! rank k ty).
Proof.
  induction order as [|[k0 v0] order IH] using rev_ind; [by intros ?%elem_of_nil|].
  rewrite keypri_snoc. simpl. intros [Hin|Hin%list_elem_of_singleton]%elem_of_app.
  - destruct (decide (rank k0 ty = rank k ty)) as [<-|Hne].
    + rewrite lookup_insert_eq. by eexists.
    + rewrite lookup_insert_ne by done. by apply IH.
  - injection Hin as <- <-. rewrite lookup_insert_eq. by eexists.
Qed.

Lemma Sorted_le_lt (l : list Z) : Sorted Z.le l -> NoDup l -> StronglySorted Z.lt l.
Proof.
  intros Hs%Sorted_StronglySorted; [|apply _]. induction Hs as [|x l Hl IH Hx]; intros Hnd.
  - constructor.
  - apply NoDup_cons in Hnd as [Hnin Hnd]. constructor; [by apply IH|].
    apply Forall_forall. intros y Hy. rewrite Forall_forall in Hx.
    specialize (Hx y Hy). assert (x <> y) by (intros ->; done). lia.
Qed.

(** [PrintPropsSorted] writes one line for every rank that a key of the
    object has, in increasing order of the ranks; the key of a line is a
    key of that rank, the last one visited in the first loop. *)
Lemma PrintPropsSorted_lines co order prefix width :
  order ≡ₚ map_to_list (co_Props co) ->
  exists sel,
    PrintPropsSorted rank co order prefix width = PrintProps sel prefix width
    /\ (forall k v, (k, v) ∈ sel -> co_Props co !! k = Some v)
    /\ StronglySorted Z.lt (map (fun kv => rank kv.1 (co_Type co)) sel)
    /\ (forall k, is_Some (co_Props co !! k) ->
          rank k (co_Type co) ∈ map (fun kv => rank kv.1 (co_Type co)) sel).
Proof.
  intros Hperm. unfold PrintPropsSorted. cbv zeta.
  set (kp := keypri rank (co_Type co) order).
  set (keys := merge_sort Z.le (map_to_list kp).*1).
  assert (keys ≡ₚ (map_to_list kp).*1) as Hkeys by apply merge_sort_Permutation.
  assert (forall p, p ∈ keys <-> is_Some (kp !! p)) as Hin.
  { intros p. rewrite Hkeys, list_elem_of_fmap. split.
    - intros ([p' k] & -> & Hpk). apply elem_of_map_to_list in Hpk. by eexists.
    - intros [k Hk]. exists (p, k). split; [done|]. by apply elem_of_map_to_list. }
  assert (NoDup keys) as Hnd by (rewrite Hkeys; apply NoDup_fst_map_to_list).
  assert (StronglySorted Z.lt keys) as Hss.
  { apply Sorted_le_lt; [|done]. apply Sorted_merge_sort. apply _. }
  set (line := fun p => (default [] (kp !! p),
                         default [] (co_Props co !! default [] (kp !! p)))).
  assert (forall p, p ∈ keys ->
            exists k v, line p = (k, v) /\ co_Props co !! k = Some v
                        /\ rank k (co_Type co) = p) as Hline.
  { intros p [k Hk]%Hin. destruct (keypri_lookup _ _ _ _ Hk) as [Hr [v Hv]].
    rewrite Hperm in Hv. apply elem_of_map_to_list in Hv.
    exists k, v. unfold line. rewrite Hk. simpl. by rewrite Hv. }
  assert (map (fun kv => rank kv.1 (co_Type co)) (map line keys) = keys) as Hranks.
  { rewrite map_map. rewrite <- (map_id keys) at 2. apply map_ext_in.
    intros p Hp%list_elem_of_In. by destruct (Hline p Hp) as (k & v & -> & _ & ?). }
  exists (map line keys). split; [|split; [|split]].
  - unfold PrintProps. by rewrite map_map.
  - intros k v Hkv. apply list_elem_of_In, in_map_iff in Hkv as (p & Hp & Hin').
    apply list_elem_of_In in Hin'. destruct (Hline p Hin') as (k' & v' & Hl & Hv & _).
    congruence.
  - by rewrite Hranks.
  - intros k [v Hv]. rewrite Hranks. apply Hin.
    apply (keypri_covers _ _ k v). rewrite Hperm. by apply elem_of_map_to_list.
Qed.

(** When no two keys of the object have the same rank, the lines are all
    the properties, each once. *)
Lemma PrintPropsSorted_all co order prefix width :
  order ≡ₚ map_to_list (co_Props co) ->
  (forall k1 k2, is_Some (co_Props co !! k1) -> is_Some (co_Props co !! k2) ->
     rank k1 (co_Type co) = rank k2 (co_Type co) -> k1 = k2) ->
  exists sel,
    PrintPropsSorted rank co order prefix width = PrintProps sel prefix width
    /\ sel ≡ₚ map_to_list (co_Props co)
    /\ StronglySorted Z.lt (map (fun kv => rank kv.1 (co_Type co)) sel).
Proof.
  intros Hperm Hinj.
  destruct (PrintPropsSorted_lines co order prefix width Hperm)
    as (sel & Heq & Hsel & Hss & Hcov).
  exists sel. split; [done|]. split; [|done].
  assert (NoDup (map (fun kv => rank kv.1 (co_Type co)) sel)) as Hnd.
  { clear -Hss. induction Hss as [|x l Hl IH Hx]; constructor; [|done].
    intros Hin. rewrite Forall_forall in Hx. specialize (Hx x Hin). lia. }
  apply NoDup_Permutation.
  - by apply (NoDup_fmap_1 (fun kv : str * str => rank kv.1 (co_Type co))).
  - apply NoDup_map_to_list.
  - intros [k v]. rewrite elem_of_map_to_list. split; [apply Hsel|].
    intros Hv. pose proof (proj1 (list_elem_of_In _ _) (Hcov k (mk_is_Some _ _ Hv)))
      as Hin. apply in_map_iff in Hin as ([k' v'] & Hr & Hin'). simpl in Hr.
    apply list_elem_of_In in Hin'. pose proof (Hsel _ _ Hin') as Hv'.
    assert (k' = k) as -> by (apply Hinj; [by eexists|by eexists|done]).
    by replace v with v' by congruence.
Qed.

Lemma ranks_NoDup_inj co :
  NoDup ((fun kv : str * str => rank kv.1 (co_Type co)) <$> map_to_list (co_Props co)) ->
  forall k1 k2, is_Some (co_Props co !! k1) -> is_Some (co_Props co !! k2) ->
    rank k1 (co_Type co) = rank k2 (co_Type co) -> k1 = k2.
Proof.
  intros Hnd k1 k2 [v1 H1%elem_of_map_to_list] [v2 H2%elem_of_map_to_list] Hr.
  revert Hnd H1 H2. generalize (map_to_list (co_Props co)). intros l.
  induction l as [|[k v] l IH]; [by intros _ ?%elem_of_nil|].
  rewrite fmap_cons. cbn [fst]. intros [Hnin Hnd]%NoDup_cons.
  intros [[= <- <-]|H1]%elem_of_cons [[= <- <-]|H2]%elem_of_cons.
  - done.
  - exfalso. apply Hnin. rewrite Hr.
    by apply (list_elem_of_fmap_2 (fun kv : str * str => rank kv.1 (co_Type co)) _ (k2, v2)).
  - exfalso. apply Hnin. rewrite <- Hr.
    by apply (list_elem_of_fmap_2 (fun kv : str * str => rank kv.1 (co_Type co)) _ (k1, v1)).
  - by apply IH.
Qed.

Lemma Print_with_sorted co order :
  order ≡ₚ map_to_list (co_Props co) ->
  (forall k1 k2, is_Some (co_Props co !! k1) -> is_Some (co_Props co !! k2) ->
     rank k1 (co_Type co) = rank k2 (co_Type co) -> k1 = k2) ->
  exists sel,
    Print_with rank true co order = Print co sel
    /\ sel ≡ₚ map_to_list (co_Props co)
    /\ StronglySorted Z.lt (map (fun kv => rank kv.1 (co_Type co)) sel).
Proof.
  intros Hperm Hinj.
  assert (co_Type (generateComment co).1 = co_Type co) as Hgt
    by (unfold generateComment; by destruct (deriveComment _ _)).
  assert (co_Props (generateComment co).1 = co_Props co) as Hgp
    by (unfold generateComment; by destruct (deriveComment _ _)).
  destruct (PrintPropsSorted_all (generateComment co).1 order
              (Repeat [SPACE] (Z.to_nat (co_Indent co)))
              (Z.to_nat (co_Align (generateComment co).1)))
    as (sel & Heq & Hsel & Hss).
  { by rewrite Hgp. }
  { rewrite Hgp, Hgt. exact Hinj. }
  exists sel. rewrite Hgp in Hsel. rewrite Hgt in Hss. split; [|done].
  unfold Print_with, Print. destruct (_ && _); [|done]. cbv zeta. by rewrite Heq.
Qed.

End SortedFacts.

(** X16.  [PrintPropsSorted] writes one line for every rank that the keys of
    the object have in [CfgKeySortOrder], in increasing order of the
    ranks, each line with a key of that rank and its value.  Keys that
    share a rank, among them all the keys that the table does not list,
    give one line only, so that properties are left out. *)
Theorem PrintPropsSorted_spec `{Nagioscfg} (rank : str -> CfgType -> Z) (co : CfgObj)
    (order : list (str * str)) (prefix : str) (width : nat) :
  order ≡ₚ map_to_list (co_Props co) ->
  exists sel,
    PrintPropsSorted rank co order prefix width = PrintProps sel prefix width
    /\ (forall k v, (k, v) ∈ sel -> co_Props co !! k = Some v)
    /\ StronglySorted Z.lt (map (fun kv => rank kv.1 (co_Type co)) sel)
    /\ (forall k, is_Some (co_Props co !! k) ->
          rank k (co_Type co) ∈ map (fun kv => rank kv.1 (co_Type co)) sel).
Proof. apply PrintPropsSorted_lines. Qed.

(** X17.  When the keys of the object have ranks that differ, [Print] with
    [sorted] writes what [Print] without it writes when it visits the
    properties in the order of their ranks: every property once, whatever
    the order in which the first loop of [PrintPropsSorted] visits them. *)
Theorem Print_sorted_is_Print `{Nagioscfg} (rank : str -> CfgType -> Z) (co : CfgObj)
    (order : list (str * str)) :
  order ≡ₚ map_to_list (co_Props co) ->
  NoDup ((fun kv : str * str => rank kv.1 (co_Type co)) <$> map_to_list (co_Props co)) ->
  exists sel,
    Print_with rank true co order = Print co sel
    /\ sel ≡ₚ map_to_list (co_Props co)
    /\ StronglySorted Z.lt (map (fun kv => rank kv.1 (co_Type co)) sel).
Proof.
  intros Hperm Hnd. apply Print_with_sorted; [done|]. by apply ranks_NoDup_inj.
Qed.

(** ** What [Print] writes is a block of the input format *)

Section PrintedBlocks.
Context `{Nagioscfg}.

Lemma PrintProps_PropLines ind width kvs :
  (1 <= ind)%nat -> DEF_ALIGN <= Z.of_nat ind + Z.of_nat width ->
  Forall (fun kv => wordb kv.1 = true /\ key_printable width kv.1 = true
                    /\ exists ws, valueb_of ws kv.2) kvs ->
  exists pls,
    forallb BodyLine_wf (map Prop_ pls) = true
    /\ List.concat (map BodyLine_text (map Prop_ pls))
       = PrintProps kvs (replicate ind SPACE) width
    /\ Body_props (map Prop_ pls) = kvs.
Proof.
  intros Hind Hcol. induction 1 as [|[k v] kvs (Hk & Hkp & ws & Hv) Hall (pls & Hwf & Htxt & Hbp)].
  - by exists [].
  - simpl in Hk, Hkp, Hv.
    destruct (Fprintf_prop_PropLine ind width k ws v Hind Hcol Hk Hkp Hv)
      as (pl & Hplwf & Hpltxt & Hkey & Hval).
    exists (pl :: pls). simpl. rewrite Hplwf, Hwf, Htxt, Hpltxt, Hbp, Hkey, Hval. done.
Qed.

(** The block that [Print] writes for an object: the comment line, the
    header, one property line for each property in the order visited, the
    closing line at the indentation of the object, and the end of that
    line. *)
Lemma Print_Block co order :
  produced co -> Print_readable co = true -> order ≡ₚ map_to_list (co_Props co) ->
  exists b,
    Print co order = Some (Block_text b, (generateComment co).1)
    /\ Block_wf b = true
    /\ h_type (b_header b) = CfgType_String (co_Type co)
    /\ Body_props (b_body b) = order.
Proof.
  intros (Hprops & _ & _ & Hc0) Hpr Hperm. unfold Print_readable in Hpr.
  apply andb_prop in Hpr as [Hpr Hkeys]. apply andb_prop in Hpr as [Hpr Hcmt].
  apply andb_prop in Hpr as [Hpr Htyv]. apply andb_prop in Hpr as [Hpr Htylen].
  apply andb_prop in Hpr as [Hpr Htynb]. apply andb_prop in Hpr as [Hpr Htyw].
  apply andb_prop in Hpr as [Hpr Hcol]. apply andb_prop in Hpr as [Hpr Hal2].
  apply andb_prop in Hpr as [Hind Hal1].
  apply Z.leb_le in Hind, Hal1, Hal2, Hcol, Htylen.
  rewrite forallb_forall in Hkeys.
  set (ty := CfgType_String (co_Type co)) in *.
  set (ind := Z.to_nat (co_Indent co)).
  set (width := Z.to_nat (co_Align co)).
  set (cmt := co_Comment (generateComment co).1).
  assert (comment_printable cmt = true) as Hcmt'.
  { unfold cmt, generateComment.
    destruct (deriveComment (co_Type co) (co_Props co)) as [c|] eqn:Hd; simpl.
    - done.
    - by rewrite Hc0. }
  assert (co_Type (generateComment co).1 = co_Type co) as Hgt
    by (unfold generateComment; by destruct (deriveComment _ _)).
  assert (co_Align (generateComment co).1 = co_Align co) as Hga
    by (unfold generateComment; by destruct (deriveComment _ _)).
  assert (Print co order
          = Some (cmt ++ [LF] ++ runes "define " ++ ty ++ [LBRACE; LF]
                  ++ PrintProps order (replicate ind SPACE) width
                  ++ replicate ind SPACE ++ [RBRACE; LF], (generateComment co).1)) as HP.
  { unfold Print.
    destruct (0 <=? co_Indent co) eqn:H1; [|lia].
    destruct (0 <=? co_Align co) eqn:H2; [|lia].
    destruct (co_Align co <=? 1000000) eqn:H3; [|lia].
    cbn [andb]. rewrite Repeat_SPACE. fold cmt. rewrite Hgt, Hga. done. }
  assert (exists fl, Filler_wf fl = true /\ Filler_text fl = cmt ++ [LF]) as (fl & Hfl & Hflt).
  { destruct cmt as [|h body].
    - by exists (BlankLine [] EolLF).
    - simpl in Hcmt'. apply andb_prop in Hcmt' as [Hh Hb]. apply Z.eqb_eq in Hh. subst h.
      by exists (CommentLine body EolLF). }
  set (h := mkHeader [] [SPACE] ty []).
  assert (Header_wf h = true) as Hh.
  { unfold Header_wf, h. cbn [h_indent h_sep h_type h_gap head is_nil negb blanks forallb andb].
    rewrite Htyw, Htynb. cbn [andb app orb].
    change (hspace SPACE) with true. cbn [andb].
    apply Z.leb_le. repeat (rewrite ?length_app; cbn [length app]).
    change (length (runes "define")) with 6%nat. lia. }
  assert (Forall (fun kv => wordb kv.1 = true /\ key_printable width kv.1 = true
                            /\ exists ws, valueb_of ws kv.2) order) as Hall.
  { apply Forall_forall. intros [k v] Hkv. rewrite Hperm in Hkv.
    specialize (Hkeys (k, v) (proj1 (list_elem_of_In _ _) Hkv)).
    apply elem_of_map_to_list in Hkv. destruct (Hprops k v Hkv) as [Hk Hv]. done. }
  destruct (PrintProps_PropLines ind width order) as (pls & Hpls & Hptxt & Hpbp);
    [unfold ind; lia|unfold ind, width; lia|done|].
  exists (mkBlock [fl] h (Fill (BlankLine [] EolLF) :: map Prop_ pls) (replicate ind SPACE)
            [BlankLine [] EolLF]).
  split; [|split; [|split]].
  - rewrite HP. f_equal. f_equal. unfold Block_text.
    cbn [b_before b_header b_body b_close b_after map List.concat BodyLine_text Filler_text eol].
    rewrite Hflt, Hptxt. unfold Header_text, h. cbn [h_indent h_sep h_type h_gap].
    rewrite !app_nil_r. rewrite <- !app_assoc. done.
  - unfold Block_wf.
    cbn [b_before b_header b_body b_close b_after forallb BodyLine_wf Filler_wf blanks
         Body_props].
    rewrite Hfl, Hh, Hpls, Hpbp, blanks_replicate. cbn [andb h_type h].
    rewrite Htyv. cbn [andb]. rewrite !andb_true_r. apply bool_decide_eq_true.
    rewrite Hperm. apply NoDup_fst_map_to_list.
  - done.
  - done.
Qed.

Lemma Print_with_Print rank sorted co order :
  order ≡ₚ map_to_list (co_Props co) ->
  (sorted = true ->
   forall k1 k2, is_Some (co_Props co !! k1) -> is_Some (co_Props co !! k2) ->
     rank k1 (co_Type co) = rank k2 (co_Type co) -> k1 = k2) ->
  exists sel, Print_with rank sorted co order = Print co sel
              /\ sel ≡ₚ map_to_list (co_Props co).
Proof.
  intros Hperm Hinj. destruct sorted.
  - destruct (Print_with_sorted rank co order Hperm (Hinj eq_refl)) as (sel & ? & ? & _).
    by exists sel.
  - by exists order.
Qed.

Lemma CfgObjs_Print_blocks rank sorted cos :
  Forall (fun c => produced c.1 /\ Print_readable c.1 = true
                   /\ c.2 ≡ₚ map_to_list (co_Props c.1)
                   /\ (sorted = true ->
                       NoDup ((fun kv : str * str => rank kv.1 (co_Type c.1))
                                <$> map_to_list (co_Props c.1)))) cos ->
  exists bs,
    CfgObjs_Print rank sorted cos
    = Some (List.concat (map Block_text bs), map (fun c => (generateComment c.1).1) cos)
    /\ forallb Block_wf bs = true
    /\ Forall2 (fun c b =>
         h_type (b_header b) = CfgType_String (co_Type c.1)
         /\ list_to_map (Body_props (b_body b)) = co_Props c.1) cos bs.
Proof.
  induction 1 as [|[co order] cos (Hprod & Hpr & Hperm & Hinj) Hall (bs & Hbs & Hwf & Hrel)].
  - by exists [].
  - simpl in Hprod, Hpr, Hperm, Hinj.
    destruct (Print_with_Print rank sorted co order Hperm) as (sel & Hsel & Hsperm).
    { intros Hs. by apply ranks_NoDup_inj, Hinj. }
    destruct (Print_Block co sel Hprod Hpr Hsperm) as (b & Hb & Hbwf & Hty & Hbp).
    set (b' := mkBlock (b_before b) (b_header b) (b_body b) (b_close b)
                 (b_after b ++ [BlankLine [] EolLF])).
    assert (Block_text b' = Block_text b ++ [LF]) as Htxt.
    { unfold Block_text, b'. cbn [b_before b_header b_body b_close b_after].
      rewrite map_app, concat_app. simpl. rewrite <- !app_assoc. done. }
    assert (Block_wf b' = true) as Hwf'.
    { unfold Block_wf in *. cbn [b' b_before b_header b_body b_close b_after].
      rewrite forallb_app. cbn [forallb Filler_wf blanks andb].
      rewrite andb_true_r. exact Hbwf. }
    exists (b' :: bs). cbn [CfgObjs_Print]. rewrite Hsel, Hb, Hbs. split; [|split].
    + cbn [map List.concat fst]. rewrite Htxt, <- app_assoc. done.
    + simpl. by rewrite Hwf', Hwf.
    + constructor; [|done]. cbn [b' b_header b_body fst]. split; [done|].
      rewrite Hbp. rewrite <- (list_to_map_to_list (co_Props co)).
      apply list_to_map_proper; [|done]. rewrite Hsperm. apply NoDup_fst_map_to_list.
Qed.

End PrintedBlocks.

(** X18.  A configuration that [CfgObjs.Print] writes is read back whole by
    [ReadAllList]: one object for each object printed, in the same order,
    with the same properties and with the type that its type name stands
    for.  The objects are objects as [Read] produces them that are readable
    in the sense of [Print_readable]; with [sorted], the ranks of the keys
    of each object must differ. *)
Theorem CfgObjs_Print_ReadAllList `{Nagioscfg} (rank : str -> CfgType -> Z) (sorted : bool)
    (cos : list (CfgObj * list (str * str))) (setUUID : bool) (fileID : str) (w : World) :
  Forall (fun c => produced c.1 /\ Print_readable c.1 = true
                   /\ c.2 ≡ₚ map_to_list (co_Props c.1)
                   /\ (sorted = true ->
                       NoDup ((fun kv : str * str => rank kv.1 (co_Type c.1))
                                <$> map_to_list (co_Props c.1)))) cos ->
  exists text cos' objs w' r',
    CfgObjs_Print rank sorted cos = Some (text, cos')
    /\ ReadAllList setUUID fileID w (NewReader text) = Some (Return (objs, None), w', r')
    /\ Forall2 reread cos objs.
Proof.
  intros Hall. destruct (CfgObjs_Print_blocks rank sorted cos Hall) as (bs & Hp & Hwf & Hrel).
  destruct (ReadAllList_loop_blocks bs (S (length (List.concat (map Block_text bs)))) []
              setUUID fileID w (NewReader (List.concat (map Block_text bs))) [])
    as (objs & w' & r' & Hl & Hobjs & _); try done.
  { pose proof (Block_text_length bs). lia. }
  eexists _, _, objs, w', r'. split; [exact Hp|]. split; [exact Hl|].
  clear -Hrel Hobjs. revert objs Hobjs.
  induction Hrel as [|c b cos bs [Hty Hpr] Hrel IH]; intros objs Hobjs.
  - inversion Hobjs. constructor.
  - inversion Hobjs as [|? o ? objs' (Hoty & Hopr & _) Hrest]; subst.
    constructor; [|by apply IH]. split; [congruence|]. by rewrite Hoty, Hty.
Qed.

(** ** Lines that [Read] passes over, and the keyword of a header *)

Section LooseLines.
Context `{Nagioscfg}.





Lemma parseLine_Keyword_header kw h l il col f rest e :
  Keyword_header_wf kw h = true ->
  exists r',
    parseLine (mkReader HASH l il col f (Keyword_header_text kw h ++ rest) e)
    = Some ([kw; h_type h], IO_OBJ_BEGIN, None, r')
    /\ stands HASH (l + 1) e rest r'.
Proof.
  unfold Keyword_header_wf, Keyword_header_text. destruct h as [ind sep ty gap].
  cbn [h_indent h_sep h_type h_gap].
  intros Hwf. apply andb_prop in Hwf as [Hwf Hcol]. apply andb_prop in Hwf as [Hwf Hgap].
  apply andb_prop in Hwf as [Hwf Hnb]. apply andb_prop in Hwf as [Hwf Hty].
  apply andb_prop in Hwf as [Hwf Hsep]. apply andb_prop in Hwf as [Hwf Hsep1].
  apply andb_prop in Hwf as [Hwf Hhash]. apply andb_prop in Hwf as [Hwf Hkwnb].
  apply andb_prop in Hwf as [Hind Hkw].
  destruct sep as [|d sep]; [done|]. apply blanks_cons in Hsep as [Hd Hsep].
  destruct (hspace_nonbrace _ Hd) as [Hd1 Hd2].
  rewrite <- !app_assoc. cbn [app].
  remember (ind ++ kw ++ d :: sep ++ ty ++ gap ++ LBRACE :: rest) as txt eqn:Htxt.
  assert (exists c s, txt = c :: s /\ negb (HASH =? 0) && (c =? HASH) = false)
    as (c & s & Hcs & Hc).
  { destruct ind as [|c ind].
    - destruct kw as [|c kw]; [done|]. eexists _, _. split; [by subst txt|]. simpl in *.
      destruct (c =? HASH) eqn:Hh; [|done]. apply Z.eqb_eq in Hh. subst c.
      by rewrite bool_decide_eq_true_2 in Hhash.
    - eexists _, _. split; [by subst txt|]. apply not_comment_hspace.
      by apply blanks_cons in Hind as [? _]. }
  rewrite Hcs, parseLine_start by done. rewrite <- Hcs.
  assert (3 <= length txt)%nat as Hlen.
  { subst txt. rewrite !length_app. simpl. rewrite !length_app. simpl.
    destruct kw; [done|]. destruct ty; [done|]. simpl. lia. }
  destruct (length txt) as [|[|[|n]]] eqn:Hn; [lia|lia|lia|]. subst txt.
  rewrite parseLine_loop_S.
  rewrite (parseFields_word ind kw HASH (l + 1) il (-1) f _ e d _ Hind Hkw
             (brace_ok_nobrace _ kw Hkwnb) (readRune_hspace _ _ _ _ _ _ _ _ Hd))
    by (left; by apply hspace_IsSpace).
  cbv zeta. rewrite Hd1, Hd2, (hspace_not_LF _ Hd). cbn [is_EOF is_nil negb field app].
  rewrite parseLine_loop_S.
  destruct gap as [|g gap].
  - cbn [app].
    rewrite (parseFields_word sep ty HASH (l + 1) il _ kw (LBRACE :: rest) e LBRACE _ Hsep Hty
               (brace_ok_nobrace _ ty Hnb) (readRune_nonspace _ _ _ _ _ LBRACE _ _ eq_refl)).
    + cbv zeta. cbn [field]. eexists. split; [done|]. done.
    + right. split; [done|]. cbn [column]. simpl in Hcol.
      apply Z.leb_le in Hcol. repeat (rewrite ?length_app in Hcol; cbn [length] in Hcol).
      lia.
  - apply blanks_cons in Hgap as [Hg Hgap]. destruct (hspace_nonbrace _ Hg) as [Hg1 Hg2].
    cbn [app].
    rewrite (parseFields_word sep ty HASH (l + 1) il _ kw _ e g _ Hsep Hty
               (brace_ok_nobrace _ ty Hnb) (readRune_hspace _ _ _ _ _ _ _ _ Hg))
      by (left; by apply hspace_IsSpace).
    cbv zeta. rewrite Hg1, Hg2, (hspace_not_LF _ Hg). cbn [is_EOF is_nil negb field].
    rewrite parseLine_loop_S.
    rewrite (parseFields_delim gap HASH (l + 1) il _ ty (LBRACE :: rest) e LBRACE _ Hgap
               (readRune_nonspace _ _ _ _ _ LBRACE _ _ eq_refl)) by auto.
    cbv zeta. eexists. split; [done|]. done.
Qed.

End LooseLines.

(** X19.  A header that names no valid type, after any blank and comment
    lines: [Read] returns a [ParseError] with the line of the header and
    the column of its block-open rune; nothing is allocated, and the
    reader is left behind that rune, so that the next call reads the
    body of the rejected block as lines outside of any block. *)
Theorem Read_invalid_type `{Nagioscfg} (fls : list Filler) (h : Header) (rest : str)
    (setUUID : bool) (fileID : str) (w : World) (r : Reader) :
  forallb Filler_wf fls = true -> Header_wf h = true ->
  CfgName_Type (h_type h) = T_INVALID -> Comment r = HASH ->
  src r = List.concat (map Filler_text fls) ++ Header_text h ++ rest ->
  exists r',
    Read setUUID fileID w r
    = Some (Return (None, Some (ParseError (line r + Z.of_nat (length fls) + 1)
                                  (Z.of_nat (length (Header_text h)) - 1) ErrUnknown)),
            w, r')
    /\ src r' = rest.
Proof.
  intros Hfls Hh Hty HC Hs.
  destruct (Read_loop_Fillers fls 1 setUUID fileID w r None IO_OBJ_OUT _ Hfls HC Hs)
    as (ra & Ha & HCa & Hla & _ & Hsa).
  destruct (Read_loop_Header_invalid h 0 setUUID fileID w ra None rest Hh Hty HCa Hsa)
    as (rb & Hb & _ & _ & _ & Hsb).
  rewrite Hb, Hla in Ha. apply Read_loop_Read in Ha. by exists rb.
Qed.

(** X20.  A block-close rune met while no object is open, after any blank and
    comment lines: [Read] returns neither an object nor an error, and the
    reader is left behind that rune. *)
Theorem Read_stray_close `{Nagioscfg} (fls : list Filler) (ws rest : str)
    (setUUID : bool) (fileID : str) (w : World) (r : Reader) :
  forallb Filler_wf fls = true -> blanks ws = true -> Comment r = HASH ->
  src r = List.concat (map Filler_text fls) ++ ws ++ RBRACE :: rest ->
  exists r',
    Read setUUID fileID w r = Some (Return (None, None), w, r')
    /\ line r' = line r + Z.of_nat (length fls) + 1 /\ src r' = rest.
Proof.
  intros Hfls Hws HC Hs.
  destruct (Read_loop_Fillers fls 1 setUUID fileID w r None IO_OBJ_OUT _ Hfls HC Hs)
    as (ra & Ha & HCa & Hla & _ & Hsa).
  destruct (Read_loop_close ws 0 setUUID fileID w ra None IO_OBJ_OUT rest Hws HCa Hsa)
    as (rb & Hb & _ & Hlb & _ & Hsb).
  rewrite Hb in Ha. apply Read_loop_Read in Ha. exists rb. split; [done|].
  split; [lia|done].
Qed.



(** X23.  The first field of a header is not looked at: any word in the place
    of ["define"] opens the object, with the type that the second field
    names. *)
Theorem Read_keyword_unchecked `{Nagioscfg} (kw : str) (h : Header) (body : list BodyLine)
    (close rest : str) (setUUID : bool) (fileID : str) (w : World) (r : Reader) :
  Keyword_header_wf kw h = true -> CfgName_Type (h_type h) <> T_INVALID ->
  forallb BodyLine_wf body = true -> blanks close = true -> Comment r = HASH ->
  src r = Keyword_header_text kw h ++ List.concat (map BodyLine_text body)
          ++ close ++ RBRACE :: rest ->
  exists o w' r',
    Read setUUID fileID w r = Some (Return (Some o, None), w', r')
    /\ co_Type o = CfgName_Type (h_type h)
    /\ co_Props o = list_to_map (Body_props body)
    /\ src r' = rest.
Proof.
  intros Hh Hty Hb Hclose HC Hs.
  set (ct := CfgName_Type (h_type h)) in *.
  set (o0 := (Read_alloc setUUID fileID ct w).1).
  set (w1 := (Read_alloc setUUID fileID ct w).2).
  assert (exists ra,
    Read_loop (S (length body + 1)) setUUID fileID w r None IO_OBJ_OUT
    = Read_loop (length body + 1) setUUID fileID w1 ra (Some o0) IO_OBJ_BEGIN
    /\ stands HASH (line r + 1) (srcerr r)
         (List.concat (map BodyLine_text body) ++ close ++ RBRACE :: rest) ra)
    as (ra & Ha & HCa & _ & _ & Hsa).
  { rewrite (Reader_eta r _ _ HC Hs), Read_loop_S.
    destruct (parseLine_Keyword_header kw h (line r) (inputline r) (column r) (field r)
                (List.concat (map BodyLine_text body) ++ close ++ RBRACE :: rest)
                (srcerr r) Hh) as (r' & -> & Hst).
    exists r'. split; [|done]. cbn [lookup list_lookup IoState_eqb negb is_nil].
    simpl. fold ct. destruct (decide _) as [|_]; [done|]. unfold o0, w1.
    by destruct (Read_alloc _ _ _ _). }
  destruct (Read_loop_Body body 1 setUUID fileID w1 ra o0 IO_OBJ_BEGIN
              _ Hb HCa Hsa) as (rb & Hbd & HCb & _ & _ & Hsb).
  destruct (Read_loop_close close 0 setUUID fileID w1 rb
              (Some (add_props (Body_props body) o0))
              IO_OBJ_BEGIN _ Hclose HCb Hsb) as (re & He & _ & _ & _ & Hse).
  rewrite He in Hbd. rewrite Hbd in Ha. apply Read_loop_Read in Ha.
  destruct (Read_alloc_ledger _ _ _ _ _ _ (surjective_pairing (Read_alloc setUUID fileID ct w)))
    as (_ & Hty0 & Hpr0 & _).
  fold o0 in Hty0, Hpr0.
  eexists _, _, _. split; [exact Ha|]. rewrite !add_props_Type. split; [done|].
  split; [|done]. by rewrite !add_props_Props, Hpr0, (left_id_L ∅ (∪)).
Qed.

(** ** Witnesses of the further properties *)

Lemma Read_only_fillers_witness :
  exists r',
    Read false [] world0 (NewReader (runes "# c" ++ [LF; CR; LF]))
    = Some (Return (None, Some io_EOF), world0, r')
    /\ line r' = 0 + 2 + 1 /\ src r' = [].
Proof.
  exact (Read_only_fillers [CommentLine (runes " c") EolLF; BlankLine [] EolCRLF]
           false [] world0 (NewReader (runes "# c" ++ [LF; CR; LF]))
           eq_refl eq_refl eq_refl).
Defined.




Lemma ReadChan_never_closes_witness :
  exists t p w' r',
    ReadChan_loop 2 false [] world0 (NewReaderErr [] (IOFailure 5)) = Some (t, p, w', r')
    /\ p <> Finished /\ (EvClose ∉ t)
    /\ (@nil Z = [] ->
        t = List.concat (replicate 2 [EvRead (Return (None, Some (IOFailure 5)));
                                      EvLog (IOFailure 5)])
        /\ p = Running /\ w' = world0).
Proof.
  apply (ReadChan_never_closes 2 false [] world0 (NewReaderErr [] (IOFailure 5))).
  discriminate.
Defined.

Lemma ReadChan_finishes_witness :
  exists n t p w' r',
    (n <= S (length ex1))%nat
    /\ ReadChan_loop n false [] world0 (NewReader ex1) = Some (t, p, w', r')
    /\ (p = Finished \/ p = Crashed).
Proof. apply (ReadChan_finishes false [] world0 (NewReader ex1)). reflexivity. Defined.

Lemma ReadAllList_blocks_witness :
  exists objs w' r',
    ReadAllList true (runes "f.cfg") world0
      (NewReader (List.concat (map Block_text [ex1_block; ex1_block])))
    = Some (Return (objs, None), w', r')
    /\ Forall2 (Block_object (runes "f.cfg")) [ex1_block; ex1_block] objs
    /\ uuidorder w' = [] ++ map co_UUID objs
    /\ src r' = [].
Proof.
  apply (ReadAllList_blocks [ex1_block; ex1_block] true (runes "f.cfg") world0).
  reflexivity.
Defined.

Lemma PrintPropsSorted_spec_witness :
  exists sel,
    PrintPropsSorted (fun k _ => Z.of_nat (length k)) pig_object
      (map_to_list (co_Props pig_object)) (runes "  ") 32
    = PrintProps sel (runes "  ") 32
    /\ (forall k v, (k, v) ∈ sel -> co_Props pig_object !! k = Some v)
    /\ StronglySorted Z.lt (map (fun kv => Z.of_nat (length kv.1)) sel)
    /\ (forall k, is_Some (co_Props pig_object !! k) ->
          Z.of_nat (length k) ∈ map (fun kv => Z.of_nat (length kv.1)) sel).
Proof.
  apply (PrintPropsSorted_spec (fun k _ => Z.of_nat (length k)) pig_object
           (map_to_list (co_Props pig_object)) (runes "  ") 32).
  reflexivity.
Defined.

Lemma Print_sorted_is_Print_witness :
  exists sel,
    Print_with (fun k _ => Z.of_nat (length k)) true pig_object
      (map_to_list (co_Props pig_object))
    = Print pig_object sel
    /\ sel ≡ₚ map_to_list (co_Props pig_object)
    /\ StronglySorted Z.lt (map (fun kv => Z.of_nat (length kv.1)) sel).
Proof.
  apply (Print_sorted_is_Print (fun k _ => Z.of_nat (length k)) pig_object
           (map_to_list (co_Props pig_object))); [reflexivity|].
  compute_done.
Defined.

Lemma CfgObjs_Print_ReadAllList_witness :
  exists text cos' objs w' r',
    CfgObjs_Print (fun k _ => Z.of_nat (length k)) true
      [(pig_object, map_to_list (co_Props pig_object));
       (pig_object, map_to_list (co_Props pig_object))]
    = Some (text, cos')
    /\ ReadAllList false [] world0 (NewReader text) = Some (Return (objs, None), w', r')
    /\ Forall2 reread [(pig_object, map_to_list (co_Props pig_object));
                       (pig_object, map_to_list (co_Props pig_object))] objs.
Proof.
  assert (produced pig_object) as Hprod.
  { apply (Read_produced false [] world0 (NewReader pig) pig_object world0
             (mkReader HASH 7 5 1 [] [] io_EOF)). vm_compute. reflexivity. }
  apply (CfgObjs_Print_ReadAllList (fun k _ => Z.of_nat (length k)) true
           [(pig_object, map_to_list (co_Props pig_object));
            (pig_object, map_to_list (co_Props pig_object))] false [] world0).
  assert (Print_readable pig_object = true) as Hpr by (vm_compute; reflexivity).
  constructor; [|constructor; [|constructor]];
    (split; [exact Hprod|split; [exact Hpr|split; [reflexivity|intros _; compute_done]]]).
Defined.

Lemma Read_invalid_type_witness :
  exists r',
    Read true [] world0 (NewReader (runes "# c
define bogus {
}
"))
    = Some (Return (None, Some (ParseError (0 + 1 + 1) (14 - 1) ErrUnknown)), world0, r')
    /\ src r' = runes "
}
".
Proof.
  apply (Read_invalid_type [CommentLine (runes " c") EolLF]
           (mkHeader [] (runes " ") (runes "bogus") (runes " ")) (runes "
}
") true [] world0); reflexivity.
Defined.

Lemma Read_stray_close_witness :
  exists r',
    Read false [] world0 (NewReader (runes "
  }
define host{
}
"))
    = Some (Return (None, None), world0, r')
    /\ line r' = 0 + 1 + 1 /\ src r' = runes "
define host{
}
".
Proof.
  apply (Read_stray_close [BlankLine [] EolLF] (runes "  ") (runes "
define host{
}
") false [] world0); reflexivity.
Defined.



Lemma Read_keyword_unchecked_witness :
  exists o w' r',
    Read false [] world0 (NewReader (runes "undefine service{
 host_name h1
}
"))
    = Some (Return (Some o, None), w', r')
    /\ co_Type o = T_SERVICE
    /\ co_Props o = list_to_map [(runes "host_name", runes "h1")]
    /\ src r' = [LF].
Proof.
  apply (Read_keyword_unchecked (runes "undefine")
           (mkHeader [] (runes " ") (runes "service") [])
           [Fill (BlankLine [] EolLF);
            Prop_ (mkPropLine (runes " ") (runes "host_name") [(runes " ", runes "h1")] []
                     EolLF)]
           [] [LF] false [] world0);
    [reflexivity|discriminate|reflexivity|reflexivity|reflexivity|reflexivity].
Defined.
